(** * CacheDictionary

    A shallow embedding of [dbms/include/DB/Dictionaries/CacheDictionary.h]:
    the direct-mapped attribute cache, its batched lookups (scalar and
    string), the refresh from the source and the construction helpers,
    followed by the properties of the specification that concern them.

    Conventions.
    - [UInt64], [std::size_t] and the narrower integers are [Z] with the
      wrap-around written out where the code can wrap.
    - [std::chrono] values are counts of nanoseconds in [Z]; the arithmetic
      of [<chrono>] is taken without overflow.
    - Every call of [system_clock::now()] takes the next reading of the
      clock: the state counts the readings taken so far.
    - Indexing past an array, which C++ leaves undefined, is an explicit
      outcome [Undefined].
    - The source is an interface whose implementations are not in this
      file: [loadIds] stands for the answer a source delivers, the blocks
      its stream yields. A source that raises an exception instead of
      delivering, which [update] would let through to the caller, is not
      modelled: what is proved of a lookup is proved for the answers that
      arrive. *)

From stdpp Require Import gmap strings list fin_maps.
From Stdlib Require Import ZArith Lia.
From Stdlib.Strings Require Import Byte.

Open Scope Z_scope.

(** ** Outcomes of fallible code *)

Inductive undefined_behaviour : Type :=
  | out_index        (* out[i] past the caller's array *)
  | cell_index       (* cells[cell_idx] past the cell table *)
  | array_index      (* an attribute array indexed past its allocation *)
  | attribute_index  (* attributes[idx] past the attribute vector *)
  | block_shape      (* a column or a row missing from a source block *)
  | field_type.      (* Field::get<T> on a field that holds another type *)

Inductive outcome (E A : Type) : Type :=
  | Ok (a : A)
  | Throw (e : E)
  | Undefined (u : undefined_behaviour).

Arguments Ok {E A} a.
Arguments Throw {E A} e.
Arguments Undefined {E A} u.

#[global] Instance outcome_ret {E} : MRet (outcome E) := λ A, Ok.

#[global] Instance outcome_bind {E} : MBind (outcome E) :=
  λ A B f m,
    match m with
    | Ok a => f a
    | Throw e => Throw e
    | Undefined u => Undefined u
    end.

(** Re-tags what an exception carries (the state observable when it was
    thrown) when a callee's locals differ from the caller's. *)
Definition rethrow {E E' A} (f : E → E') (m : outcome E A) : outcome E' A :=
  match m with
  | Ok a => Ok a
  | Throw e => Throw (f e)
  | Undefined u => Undefined u
  end.

(** What a lookup hands back when it returns: the caller's output. *)
Definition output {E S O} (m : outcome E (S * O)) : option O :=
  match m with
  | Ok (_, out) => Some out
  | _ => None
  end.

(** A second call on the state the first one leaves, whether the first
    returned or threw. *)
Definition after {X S O O'} (first : outcome (X * (S * O)) (S * O))
    (next : S → outcome (X * (S * O')) (S * O')) : outcome (X * (S * O')) (S * O') :=
  match first with
  | Ok (d, _) => next d
  | Throw (_, (d, _)) => next d
  | Undefined u => Undefined u
  end.

(** Code that throws nothing, inside code that may throw. *)
Definition no_throw {E A} (m : outcome Empty_set A) : outcome E A :=
  rethrow (λ e : Empty_set, match e with end) m.

(** [P] holds of the state a computation ends in, returned or thrown, and
    [U] of the undefined behaviour it runs into. *)
Definition ends_in {X S} (P : S → Prop) (U : undefined_behaviour → Prop)
    (m : outcome (X * S) S) : Prop :=
  match m with
  | Ok s => P s
  | Throw (_, s) => P s
  | Undefined u => U u
  end.

(** [l[i]] and [l[i] = x] by plain indexing. *)
Definition read {E A} (u : undefined_behaviour) (l : list A) (i : nat) : outcome E A :=
  match l !! i with
  | Some x => Ok x
  | None => Undefined u
  end.

Definition store {E A} (u : undefined_behaviour) (l : list A) (i : nat) (x : A)
  : outcome E (list A) :=
  if decide (i < length l)%nat then Ok (<[i:=x]> l) else Undefined u.

(** ** Error codes and exceptions *)

Inductive ErrorCodes : Type :=
  | UNSUPPORTED_METHOD
  | BAD_ARGUMENTS
  | TYPE_MISMATCH.

Record Exception : Type := { message : string; code : ErrorCodes }.

(** ** Integers of the machine *)

Definition wrap_unsigned (w : Z) (x : Z) : Z := x mod 2 ^ w.

Definition wrap_signed (w : Z) (x : Z) : Z :=
  (x + 2 ^ (w - 1)) mod 2 ^ w - 2 ^ (w - 1).

(** [static std::size_t round_up_to_power_of_two(std::size_t n)], on the
    64-bit [std::size_t] its last shift presupposes. *)
Definition round_up_to_power_of_two (n : Z) : Z :=
  let n := wrap_unsigned 64 (n - 1) in
  let n := Z.lor n (Z.shiftr n 1) in
  let n := Z.lor n (Z.shiftr n 2) in
  let n := Z.lor n (Z.shiftr n 4) in
  let n := Z.lor n (Z.shiftr n 8) in
  let n := Z.lor n (Z.shiftr n 16) in
  let n := Z.lor n (Z.shiftr n 32) in
  wrap_unsigned 64 (n + 1).

(** What the shifts of [round_up_to_power_of_two] build: bit [i] of [y] is
    set exactly when one of the [w] bits of [m] from [i] upwards is. *)
Definition smeared (m w y : Z) : Prop :=
  ∀ i, 0 ≤ i → Z.testbit y i = true ↔ ∃ j, i ≤ j < i + w ∧ Z.testbit m j = true.

(** ** Attribute kinds *)

(** [enum class AttributeType] *)
Module AttributeType.
Inductive t : Type :=
  | uint8 | uint16 | uint32 | uint64
  | int8 | int16 | int32 | int64
  | float32 | float64
  | string.

#[global] Instance eq_dec : EqDecision t.
Proof. solve_decision. Defined.
End AttributeType.

(** The scalar types [TYPE] the getter macros are instantiated at; they
    are also the types that index the tuples of an attribute. *)
Inductive scalar : Type :=
  | UInt8 | UInt16 | UInt32 | UInt64
  | Int8 | Int16 | Int32 | Int64
  | Float32 | Float64.

#[global] Instance scalar_eq_dec : EqDecision scalar.
Proof. solve_decision. Defined.

(** The [LC_TYPE] that each macro instantiation pairs with its [TYPE]. *)
Definition LC_TYPE (T : scalar) : AttributeType.t :=
  match T with
  | UInt8 => AttributeType.uint8
  | UInt16 => AttributeType.uint16
  | UInt32 => AttributeType.uint32
  | UInt64 => AttributeType.uint64
  | Int8 => AttributeType.int8
  | Int16 => AttributeType.int16
  | Int32 => AttributeType.int32
  | Int64 => AttributeType.int64
  | Float32 => AttributeType.float32
  | Float64 => AttributeType.float64
  end.

(** The C++ type behind a scalar, given the two floating-point types. *)
Definition cpp_of (float double : Type) (T : scalar) : Type :=
  match T with
  | Float32 => float
  | Float64 => double
  | _ => Z
  end.

(** ** What the header takes from elsewhere

    Types, functions and library objects that the header uses and that are
    declared outside it. They are parameters of the development. *)
Class Platform : Type := {
  (* Float32 and Float64 *)
  float : Type;
  double : Type;
  float_zero : float;
  double_zero : double;
  double_to_float : double → float;
  (* intHash64 of DB/Common/HashTable/Hash.h *)
  intHash64 : Z → Z;
  (* std::mt19937_64 and one draw of
     std::uniform_int_distribution<std::uint64_t>{a, b} from it *)
  mt19937_64 : Type;
  uniform_int_distribution : Z → Z → mt19937_64 → Z * mt19937_64;
  (* the successive readings of std::chrono::system_clock::now() *)
  system_clock_now : nat → Z;
  (* toString(AttributeType) of DictionaryStructure.h *)
  toString : AttributeType.t → string;
  (* DB::parse<T> *)
  parse : ∀ T : scalar, string → cpp_of float double T;
}.


(** [std::chrono::seconds{n}] in the unit of [system_clock::time_point]. *)
Definition seconds (n : Z) : Z := n * 1000000000.

(** ** Strings *)

(** [String] is [std::string]: its bytes. *)
Definition String : Type := list byte.

(** [string.data()]: the bytes followed by the terminator that
    [std::string] keeps at [data()[size()]]. *)
Definition String_data (s : String) : list byte := s ++ [x00].

Definition String_size (s : String) : Z := Z.of_nat (length s).

(** [std::copy(first, last, result)] over a character array: the elements
    at the indices from [first] up to [last], each read from the source. *)
Definition std_copy (src : list byte) (first last : nat) : option (list byte) :=
  mapM (λ i, src !! i) (seq first (last - first)).

(** [struct StringRef { const char * data; size_t size; }]: [data] is the
    character array it points to, [None] for a null pointer. *)
Module StringRef.
Record t : Type := { data : option (list byte); size : Z }.

(** [StringRef{}] *)
Definition null : t := {| data := None; size := 0 |}.

(** The [size] bytes at [data], as [insertData(data, size)] and the
    conversion to [String] read them. *)
Definition bytes (r : t) : String :=
  match data r with
  | Some buf => take (Z.to_nat (size r)) buf
  | None => []
  end.
End StringRef.

(** Modelled from the spec: the variable-length byte column [ColumnString]
    (DB/Columns/ColumnString.h), with [insertData] appending the bytes and
    one terminator to [chars] and the new end to [offsets]. *)
Module ColumnString.
Record t : Type := { chars : list byte; offsets : list Z }.

Definition empty : t := {| chars := []; offsets := [] |}.

Definition insertData (out : t) (s : list byte) : t :=
  let chars' := chars out ++ s ++ [x00] in
  {| chars := chars'; offsets := offsets out ++ [Z.of_nat (length chars')] |}.

(** [getChars().resize_assume_reserved(0); getOffsets().resize_assume_reserved(0)] *)
Definition truncate (out : t) : t := empty.
End ColumnString.

(** [TYPE] as a type. *)
Definition cpp `{Platform} (T : scalar) : Type := cpp_of float double T.

(** ** Blocks of the source *)

(** The value that [IColumn::operator[]] returns for a row. *)
Inductive Field `{Platform} : Type :=
  | Field_Null
  | Field_UInt64 (x : Z)
  | Field_Int64 (x : Z)
  | Field_Float64 (x : double)
  | Field_String (x : String).

(** [value.get<T>()] reads the storage of the field as a [T] without a
    check: the two 64-bit integers read each other's bits, anything else
    is undefined. *)
Definition Field_get_UInt64 `{Platform} {E} (value : Field) : outcome E Z :=
  match value with
  | Field_UInt64 x => Ok x
  | Field_Int64 x => Ok (wrap_unsigned 64 x)
  | _ => Undefined field_type
  end.

Definition Field_get_Int64 `{Platform} {E} (value : Field) : outcome E Z :=
  match value with
  | Field_Int64 x => Ok x
  | Field_UInt64 x => Ok (wrap_signed 64 x)
  | _ => Undefined field_type
  end.

Definition Field_get_Float64 `{Platform} {E} (value : Field) : outcome E double :=
  match value with
  | Field_Float64 x => Ok x
  | _ => Undefined field_type
  end.

Definition Field_get_String `{Platform} {E} (value : Field) : outcome E String :=
  match value with
  | Field_String x => Ok x
  | _ => Undefined field_type
  end.

(** A block: [id_column] is what the [typeid_cast] of column 0 to
    [ColumnVector<UInt64>] yields ([None] for a null pointer), [columns]
    are the columns at positions 1, 2, ... *)
Module Block.
Record t `{Platform} : Type := { id_column : option (list Z); columns : list (list Field) }.
End Block.

(** [IDictionarySource]: [loadIds] with the blocks its stream yields when
    the source delivers its answer. *)
Module IDictionarySource.
Record t `{Platform} : Type := {
  supportsSelectiveLoad : bool;
  loadIds : list Z → list Block.t;
}.
End IDictionarySource.

Module DictionaryLifetime.
Record t : Type := { min_sec : Z; max_sec : Z }.
End DictionaryLifetime.

(** One attribute of [DictionaryStructure]; [type] is the tag that
    [getAttributeTypeByName] resolves the declared type name to. *)
Module DictionaryAttribute.
Record t : Type := {
  name : string;
  type : AttributeType.t;
  null_value : string;
  hierarchical : bool;
}.
End DictionaryAttribute.

(** ** Cells and attributes *)

Module cell_metadata_t.
Record t : Type := { id : Z; expires_at : Z }.
End cell_metadata_t.

(** The tuple [null_values] of [attribute_t]. *)
Module null_values_t.
Section with_platform.
Context `{Platform}.

Record t : Type := {
  of_UInt8 : Z; of_UInt16 : Z; of_UInt32 : Z; of_UInt64 : Z;
  of_Int8 : Z; of_Int16 : Z; of_Int32 : Z; of_Int64 : Z;
  of_Float32 : float; of_Float64 : double;
  of_String : String;
}.

(** [std::get<T>(attribute.null_values)] *)
Definition get (T : scalar) (v : t) : cpp T :=
  match T with
  | UInt8 => of_UInt8 v | UInt16 => of_UInt16 v
  | UInt32 => of_UInt32 v | UInt64 => of_UInt64 v
  | Int8 => of_Int8 v | Int16 => of_Int16 v
  | Int32 => of_Int32 v | Int64 => of_Int64 v
  | Float32 => of_Float32 v | Float64 => of_Float64 v
  end.

(** The tuple as value-initialised. *)
Definition zero : t :=
  {| of_UInt8 := 0; of_UInt16 := 0; of_UInt32 := 0; of_UInt64 := 0;
     of_Int8 := 0; of_Int16 := 0; of_Int32 := 0; of_Int64 := 0;
     of_Float32 := float_zero; of_Float64 := double_zero;
     of_String := [] |}.

Definition set (T : scalar) (x : cpp T) (v : t) : t :=
  match T return cpp T → t with
  | UInt8 => λ x, {| of_UInt8 := x; of_UInt16 := of_UInt16 v; of_UInt32 := of_UInt32 v; of_UInt64 := of_UInt64 v; of_Int8 := of_Int8 v; of_Int16 := of_Int16 v; of_Int32 := of_Int32 v; of_Int64 := of_Int64 v; of_Float32 := of_Float32 v; of_Float64 := of_Float64 v; of_String := of_String v |}
  | UInt16 => λ x, {| of_UInt8 := of_UInt8 v; of_UInt16 := x; of_UInt32 := of_UInt32 v; of_UInt64 := of_UInt64 v; of_Int8 := of_Int8 v; of_Int16 := of_Int16 v; of_Int32 := of_Int32 v; of_Int64 := of_Int64 v; of_Float32 := of_Float32 v; of_Float64 := of_Float64 v; of_String := of_String v |}
  | UInt32 => λ x, {| of_UInt8 := of_UInt8 v; of_UInt16 := of_UInt16 v; of_UInt32 := x; of_UInt64 := of_UInt64 v; of_Int8 := of_Int8 v; of_Int16 := of_Int16 v; of_Int32 := of_Int32 v; of_Int64 := of_Int64 v; of_Float32 := of_Float32 v; of_Float64 := of_Float64 v; of_String := of_String v |}
  | UInt64 => λ x, {| of_UInt8 := of_UInt8 v; of_UInt16 := of_UInt16 v; of_UInt32 := of_UInt32 v; of_UInt64 := x; of_Int8 := of_Int8 v; of_Int16 := of_Int16 v; of_Int32 := of_Int32 v; of_Int64 := of_Int64 v; of_Float32 := of_Float32 v; of_Float64 := of_Float64 v; of_String := of_String v |}
  | Int8 => λ x, {| of_UInt8 := of_UInt8 v; of_UInt16 := of_UInt16 v; of_UInt32 := of_UInt32 v; of_UInt64 := of_UInt64 v; of_Int8 := x; of_Int16 := of_Int16 v; of_Int32 := of_Int32 v; of_Int64 := of_Int64 v; of_Float32 := of_Float32 v; of_Float64 := of_Float64 v; of_String := of_String v |}
  | Int16 => λ x, {| of_UInt8 := of_UInt8 v; of_UInt16 := of_UInt16 v; of_UInt32 := of_UInt32 v; of_UInt64 := of_UInt64 v; of_Int8 := of_Int8 v; of_Int16 := x; of_Int32 := of_Int32 v; of_Int64 := of_Int64 v; of_Float32 := of_Float32 v; of_Float64 := of_Float64 v; of_String := of_String v |}
  | Int32 => λ x, {| of_UInt8 := of_UInt8 v; of_UInt16 := of_UInt16 v; of_UInt32 := of_UInt32 v; of_UInt64 := of_UInt64 v; of_Int8 := of_Int8 v; of_Int16 := of_Int16 v; of_Int32 := x; of_Int64 := of_Int64 v; of_Float32 := of_Float32 v; of_Float64 := of_Float64 v; of_String := of_String v |}
  | Int64 => λ x, {| of_UInt8 := of_UInt8 v; of_UInt16 := of_UInt16 v; of_UInt32 := of_UInt32 v; of_UInt64 := of_UInt64 v; of_Int8 := of_Int8 v; of_Int16 := of_Int16 v; of_Int32 := of_Int32 v; of_Int64 := x; of_Float32 := of_Float32 v; of_Float64 := of_Float64 v; of_String := of_String v |}
  | Float32 => λ x, {| of_UInt8 := of_UInt8 v; of_UInt16 := of_UInt16 v; of_UInt32 := of_UInt32 v; of_UInt64 := of_UInt64 v; of_Int8 := of_Int8 v; of_Int16 := of_Int16 v; of_Int32 := of_Int32 v; of_Int64 := of_Int64 v; of_Float32 := x; of_Float64 := of_Float64 v; of_String := of_String v |}
  | Float64 => λ x, {| of_UInt8 := of_UInt8 v; of_UInt16 := of_UInt16 v; of_UInt32 := of_UInt32 v; of_UInt64 := of_UInt64 v; of_Int8 := of_Int8 v; of_Int16 := of_Int16 v; of_Int32 := of_Int32 v; of_Int64 := of_Int64 v; of_Float32 := of_Float32 v; of_Float64 := x; of_String := of_String v |}
  end x.

Definition set_String (x : String) (v : t) : t :=
  {| of_UInt8 := of_UInt8 v; of_UInt16 := of_UInt16 v; of_UInt32 := of_UInt32 v; of_UInt64 := of_UInt64 v; of_Int8 := of_Int8 v; of_Int16 := of_Int16 v; of_Int32 := of_Int32 v; of_Int64 := of_Int64 v; of_Float32 := of_Float32 v; of_Float64 := of_Float64 v; of_String := x |}.
End with_platform.
End null_values_t.

(** The tuple [arrays] of [attribute_t]: a member is the array its
    [unique_ptr] owns, empty while the pointer is null. *)
Module arrays_t.
Section with_platform.
Context `{Platform}.

Record t : Type := {
  of_UInt8 : list Z; of_UInt16 : list Z; of_UInt32 : list Z; of_UInt64 : list Z;
  of_Int8 : list Z; of_Int16 : list Z; of_Int32 : list Z; of_Int64 : list Z;
  of_Float32 : list float; of_Float64 : list double;
  of_StringRef : list StringRef.t;
}.

(** [std::get<std::unique_ptr<T[]>>(attribute.arrays)] *)
Definition get (T : scalar) (a : t) : list (cpp T) :=
  match T with
  | UInt8 => of_UInt8 a | UInt16 => of_UInt16 a
  | UInt32 => of_UInt32 a | UInt64 => of_UInt64 a
  | Int8 => of_Int8 a | Int16 => of_Int16 a
  | Int32 => of_Int32 a | Int64 => of_Int64 a
  | Float32 => of_Float32 a | Float64 => of_Float64 a
  end.

Definition null : t :=
  {| of_UInt8 := []; of_UInt16 := []; of_UInt32 := []; of_UInt64 := [];
     of_Int8 := []; of_Int16 := []; of_Int32 := []; of_Int64 := [];
     of_Float32 := []; of_Float64 := []; of_StringRef := [] |}.

Definition set (T : scalar) (x : list (cpp T)) (a : t) : t :=
  match T return list (cpp T) → t with
  | UInt8 => λ x, {| of_UInt8 := x; of_UInt16 := of_UInt16 a; of_UInt32 := of_UInt32 a; of_UInt64 := of_UInt64 a; of_Int8 := of_Int8 a; of_Int16 := of_Int16 a; of_Int32 := of_Int32 a; of_Int64 := of_Int64 a; of_Float32 := of_Float32 a; of_Float64 := of_Float64 a; of_StringRef := of_StringRef a |}
  | UInt16 => λ x, {| of_UInt8 := of_UInt8 a; of_UInt16 := x; of_UInt32 := of_UInt32 a; of_UInt64 := of_UInt64 a; of_Int8 := of_Int8 a; of_Int16 := of_Int16 a; of_Int32 := of_Int32 a; of_Int64 := of_Int64 a; of_Float32 := of_Float32 a; of_Float64 := of_Float64 a; of_StringRef := of_StringRef a |}
  | UInt32 => λ x, {| of_UInt8 := of_UInt8 a; of_UInt16 := of_UInt16 a; of_UInt32 := x; of_UInt64 := of_UInt64 a; of_Int8 := of_Int8 a; of_Int16 := of_Int16 a; of_Int32 := of_Int32 a; of_Int64 := of_Int64 a; of_Float32 := of_Float32 a; of_Float64 := of_Float64 a; of_StringRef := of_StringRef a |}
  | UInt64 => λ x, {| of_UInt8 := of_UInt8 a; of_UInt16 := of_UInt16 a; of_UInt32 := of_UInt32 a; of_UInt64 := x; of_Int8 := of_Int8 a; of_Int16 := of_Int16 a; of_Int32 := of_Int32 a; of_Int64 := of_Int64 a; of_Float32 := of_Float32 a; of_Float64 := of_Float64 a; of_StringRef := of_StringRef a |}
  | Int8 => λ x, {| of_UInt8 := of_UInt8 a; of_UInt16 := of_UInt16 a; of_UInt32 := of_UInt32 a; of_UInt64 := of_UInt64 a; of_Int8 := x; of_Int16 := of_Int16 a; of_Int32 := of_Int32 a; of_Int64 := of_Int64 a; of_Float32 := of_Float32 a; of_Float64 := of_Float64 a; of_StringRef := of_StringRef a |}
  | Int16 => λ x, {| of_UInt8 := of_UInt8 a; of_UInt16 := of_UInt16 a; of_UInt32 := of_UInt32 a; of_UInt64 := of_UInt64 a; of_Int8 := of_Int8 a; of_Int16 := x; of_Int32 := of_Int32 a; of_Int64 := of_Int64 a; of_Float32 := of_Float32 a; of_Float64 := of_Float64 a; of_StringRef := of_StringRef a |}
  | Int32 => λ x, {| of_UInt8 := of_UInt8 a; of_UInt16 := of_UInt16 a; of_UInt32 := of_UInt32 a; of_UInt64 := of_UInt64 a; of_Int8 := of_Int8 a; of_Int16 := of_Int16 a; of_Int32 := x; of_Int64 := of_Int64 a; of_Float32 := of_Float32 a; of_Float64 := of_Float64 a; of_StringRef := of_StringRef a |}
  | Int64 => λ x, {| of_UInt8 := of_UInt8 a; of_UInt16 := of_UInt16 a; of_UInt32 := of_UInt32 a; of_UInt64 := of_UInt64 a; of_Int8 := of_Int8 a; of_Int16 := of_Int16 a; of_Int32 := of_Int32 a; of_Int64 := x; of_Float32 := of_Float32 a; of_Float64 := of_Float64 a; of_StringRef := of_StringRef a |}
  | Float32 => λ x, {| of_UInt8 := of_UInt8 a; of_UInt16 := of_UInt16 a; of_UInt32 := of_UInt32 a; of_UInt64 := of_UInt64 a; of_Int8 := of_Int8 a; of_Int16 := of_Int16 a; of_Int32 := of_Int32 a; of_Int64 := of_Int64 a; of_Float32 := x; of_Float64 := of_Float64 a; of_StringRef := of_StringRef a |}
  | Float64 => λ x, {| of_UInt8 := of_UInt8 a; of_UInt16 := of_UInt16 a; of_UInt32 := of_UInt32 a; of_UInt64 := of_UInt64 a; of_Int8 := of_Int8 a; of_Int16 := of_Int16 a; of_Int32 := of_Int32 a; of_Int64 := of_Int64 a; of_Float32 := of_Float32 a; of_Float64 := x; of_StringRef := of_StringRef a |}
  end x.

Definition set_StringRef (x : list StringRef.t) (a : t) : t :=
  {| of_UInt8 := of_UInt8 a; of_UInt16 := of_UInt16 a; of_UInt32 := of_UInt32 a; of_UInt64 := of_UInt64 a; of_Int8 := of_Int8 a; of_Int16 := of_Int16 a; of_Int32 := of_Int32 a; of_Int64 := of_Int64 a; of_Float32 := of_Float32 a; of_Float64 := of_Float64 a; of_StringRef := x |}.
End with_platform.
End arrays_t.

Module attribute_t.
Section with_platform.
Context `{Platform}.

Record t : Type := {
  type : AttributeType.t;
  null_values : null_values_t.t;
  arrays : arrays_t.t;
}.

Definition with_arrays (arrays' : arrays_t.t) (attribute : t) : t :=
  {| type := type attribute; null_values := null_values attribute; arrays := arrays' |}.
End with_platform.
End attribute_t.

(** ** The dictionary *)

(** The scoped locks taken on [rw_lock]. *)
Inductive lock_event : Type := ScopedReadRWLock | ScopedWriteRWLock.

(** The members of [class CacheDictionary] that the lookups and the
    refresh use, with three records of its environment: the locks taken on
    [rw_lock] so far, the calls of [source_ptr->loadIds] so far, and how
    many readings of the system clock were taken. *)
Module CacheDictionary.
Section with_platform.
Context `{Platform}.

Record t : Type := {
  name : string;
  source_ptr : IDictionarySource.t;
  dict_lifetime : DictionaryLifetime.t;
  rw_lock : list lock_event;
  size : Z;
  attribute_index_by_name : gmap string nat;
  attributes : list attribute_t.t;
  cells : list cell_metadata_t.t;
  hierarchical_attribute : option nat;
  rnd_engine : mt19937_64;
  loadIds_calls : list (list Z);
  clock_reads : nat;
}.

Definition lock (e : lock_event) (d : t) : t :=
  {| name := name d; source_ptr := source_ptr d; dict_lifetime := dict_lifetime d;
     rw_lock := rw_lock d ++ [e]; size := size d;
     attribute_index_by_name := attribute_index_by_name d;
     attributes := attributes d; cells := cells d;
     hierarchical_attribute := hierarchical_attribute d;
     rnd_engine := rnd_engine d; loadIds_calls := loadIds_calls d;
     clock_reads := clock_reads d |}.

Definition called_loadIds (ids : list Z) (d : t) : t :=
  {| name := name d; source_ptr := source_ptr d; dict_lifetime := dict_lifetime d;
     rw_lock := rw_lock d; size := size d;
     attribute_index_by_name := attribute_index_by_name d;
     attributes := attributes d; cells := cells d;
     hierarchical_attribute := hierarchical_attribute d;
     rnd_engine := rnd_engine d; loadIds_calls := loadIds_calls d ++ [ids];
     clock_reads := clock_reads d |}.

Definition read_clock (d : t) : t :=
  {| name := name d; source_ptr := source_ptr d; dict_lifetime := dict_lifetime d;
     rw_lock := rw_lock d; size := size d;
     attribute_index_by_name := attribute_index_by_name d;
     attributes := attributes d; cells := cells d;
     hierarchical_attribute := hierarchical_attribute d;
     rnd_engine := rnd_engine d; loadIds_calls := loadIds_calls d;
     clock_reads := S (clock_reads d) |}.

(** The state after one row of a refresh was installed. *)
Definition installed (attributes' : list attribute_t.t) (cells' : list cell_metadata_t.t)
    (rnd_engine' : mt19937_64) (d : t) : t :=
  {| name := name d; source_ptr := source_ptr d; dict_lifetime := dict_lifetime d;
     rw_lock := rw_lock d; size := size d;
     attribute_index_by_name := attribute_index_by_name d;
     attributes := attributes'; cells := cells';
     hierarchical_attribute := hierarchical_attribute d;
     rnd_engine := rnd_engine'; loadIds_calls := loadIds_calls d;
     clock_reads := clock_reads d |}.
End with_platform.
End CacheDictionary.

Section operations.
Context `{Platform}.

Import CacheDictionary.

(** What a lookup throws: the exception with the dictionary and the
    caller's output as they are at that moment. *)
Definition thrown (O : Type) : Type := Exception * (CacheDictionary.t * O).

(** [std::uint64_t getCellIdx(const id_t id) const] *)
Definition getCellIdx (d : CacheDictionary.t) (id : Z) : Z :=
  let hash := intHash64 id in
  let idx := Z.land hash (wrap_unsigned 64 (size d - 1)) in
  idx.

(** [static bool hasTimeExpired(const time_point &)]: takes a reading of
    the clock. *)
Definition hasTimeExpired (time_point : Z) (d : CacheDictionary.t)
  : bool * CacheDictionary.t :=
  (bool_decide (time_point ≤ system_clock_now (clock_reads d)), read_clock d).

(** [cell.id != id || hasTimeExpired(cell.expires_at)]: the clock is read
    only when the ids are equal. *)
Definition cell_outdated (cell : cell_metadata_t.t) (id : Z) (d : CacheDictionary.t)
  : bool * CacheDictionary.t :=
  if decide (cell_metadata_t.id cell ≠ id) then (true, d)
  else hasTimeExpired (cell_metadata_t.expires_at cell) d.

(** *** setAttributeValue *)

(** The value a row's field takes in an array of [T]: the right-hand
    sides of the scalar cases, with the conversion of the assignment. *)
Definition converted {E} (T : scalar) (value : Field) : outcome E (cpp T) :=
  match T return outcome E (cpp T) with
  | UInt8 => x ← Field_get_UInt64 value; Ok (wrap_unsigned 8 x)
  | UInt16 => x ← Field_get_UInt64 value; Ok (wrap_unsigned 16 x)
  | UInt32 => x ← Field_get_UInt64 value; Ok (wrap_unsigned 32 x)
  | UInt64 => Field_get_UInt64 value
  | Int8 => x ← Field_get_Int64 value; Ok (wrap_signed 8 x)
  | Int16 => x ← Field_get_Int64 value; Ok (wrap_signed 16 x)
  | Int32 => x ← Field_get_Int64 value; Ok (wrap_signed 32 x)
  | Int64 => Field_get_Int64 value
  | Float32 => x ← Field_get_Float64 value; Ok (double_to_float x)
  | Float64 => Field_get_Float64 value
  end.

(** One scalar case:
    [std::get<std::unique_ptr<T[]>>(attribute.arrays)[idx] = value.get<..>()] *)
Definition set_scalar {E} (T : scalar) (attribute : attribute_t.t) (idx : Z) (value : Field)
  : outcome E attribute_t.t :=
  x ← converted T value;
  array ← store array_index (arrays_t.get T (attribute_t.arrays attribute)) (Z.to_nat idx) x;
  Ok (attribute_t.with_arrays (arrays_t.set T array (attribute_t.arrays attribute)) attribute).

(** The string case: the character array that the new [StringRef] owns
    (the one it owned before is deleted). *)
Definition set_string {E} (attribute : attribute_t.t) (idx : Z) (value : Field)
  : outcome E attribute_t.t :=
  string ← Field_get_String value;
  let array := arrays_t.of_StringRef (attribute_t.arrays attribute) in
  _ ← read array_index array (Z.to_nat idx);
  let size := String_size string in
  string_ref ←
    (if decide (size > 0) then
       match std_copy (String_data string) 0 (Z.to_nat (size + 1)) with
       | Some string_ptr => Ok {| StringRef.data := Some string_ptr; StringRef.size := size |}
       | None => Undefined array_index
       end
     else Ok StringRef.null);
  array ← store array_index array (Z.to_nat idx) string_ref;
  Ok (attribute_t.with_arrays (arrays_t.set_StringRef array (attribute_t.arrays attribute)) attribute).

(** [void setAttributeValue(attribute_t &, const id_t idx, const Field &) const] *)
Definition setAttributeValue {E} (attribute : attribute_t.t) (idx : Z) (value : Field)
  : outcome E attribute_t.t :=
  match attribute_t.type attribute with
  | AttributeType.uint8 => set_scalar UInt8 attribute idx value
  | AttributeType.uint16 => set_scalar UInt16 attribute idx value
  | AttributeType.uint32 => set_scalar UInt32 attribute idx value
  | AttributeType.uint64 => set_scalar UInt64 attribute idx value
  | AttributeType.int8 => set_scalar Int8 attribute idx value
  | AttributeType.int16 => set_scalar Int16 attribute idx value
  | AttributeType.int32 => set_scalar Int32 attribute idx value
  | AttributeType.int64 => set_scalar Int64 attribute idx value
  | AttributeType.float32 => set_scalar Float32 attribute idx value
  | AttributeType.float64 => set_scalar Float64 attribute idx value
  | AttributeType.string => set_string attribute idx value
  end.

(** *** update *)

(** The loop over [attribute_idx] for row [i] of a block: column
    [attribute_idx + 1] of the block gives the value of the attribute. *)
Fixpoint setAttributeValues {E} (block : Block.t) (i : nat) (cell_idx : Z)
    (attribute_idx : nat) (attributes : list attribute_t.t)
  : outcome E (list attribute_t.t) :=
  match attributes with
  | [] => Ok []
  | attribute :: rest =>
      attribute_column ← read block_shape (Block.columns block) attribute_idx;
      value ← read block_shape attribute_column i;
      attribute' ← setAttributeValue attribute cell_idx value;
      rest' ← setAttributeValues block i cell_idx (S attribute_idx) rest;
      Ok (attribute' :: rest')
  end.

(** The body of the loop over the rows of a block, for row [i] with key
    [id]; [x] is what the callback [on_cell_updated] captures. The two
    callbacks of this file throw nothing. *)
Definition update_row {X} (on_cell_updated : Z → Z → CacheDictionary.t → X → outcome Empty_set X)
    (block : Block.t) (i : nat) (id : Z) (s : CacheDictionary.t * X)
  : outcome (thrown X) (CacheDictionary.t * X) :=
  let '(d, x) := s in
  let cell_idx := getCellIdx d id in
  _ ← read cell_index (cells d) (Z.to_nat cell_idx);
  attributes' ← setAttributeValues block i cell_idx 0 (attributes d);
  let '(drawn, rnd_engine') :=
    uniform_int_distribution
      (DictionaryLifetime.min_sec (dict_lifetime d))
      (DictionaryLifetime.max_sec (dict_lifetime d))
      (rnd_engine d) in
  let now := system_clock_now (clock_reads d) in
  let cell :=
    {| cell_metadata_t.id := id; cell_metadata_t.expires_at := now + seconds drawn |} in
  let d := read_clock (installed attributes' (<[Z.to_nat cell_idx := cell]> (cells d)) rnd_engine' d) in
  x ← no_throw (on_cell_updated id cell_idx d x);
  Ok (d, x).

Fixpoint update_rows {X} (on_cell_updated : Z → Z → CacheDictionary.t → X → outcome Empty_set X)
    (block : Block.t) (i : nat) (ids : list Z) (s : CacheDictionary.t * X)
  : outcome (thrown X) (CacheDictionary.t * X) :=
  match ids with
  | [] => Ok s
  | id :: ids' =>
      s ← update_row on_cell_updated block i id s;
      update_rows on_cell_updated block (S i) ids' s
  end.

Definition id_column_mismatch : Exception :=
  {| message := "Id column has type different from UInt64."; code := TYPE_MISMATCH |}.

(** [while (const auto block = stream->read())] *)
Fixpoint update_blocks {X} (on_cell_updated : Z → Z → CacheDictionary.t → X → outcome Empty_set X)
    (stream : list Block.t) (s : CacheDictionary.t * X)
  : outcome (thrown X) (CacheDictionary.t * X) :=
  match stream with
  | [] => Ok s
  | block :: stream' =>
      match Block.id_column block with
      | None => Throw (id_column_mismatch, s)
      | Some ids =>
          s ← update_rows on_cell_updated block 0 ids s;
          update_blocks on_cell_updated stream' s
      end
  end.

(** [template <typename F> void update(const std::vector<id_t> ids, F && on_cell_updated) const] *)
Definition update {X} (ids : list Z)
    (on_cell_updated : Z → Z → CacheDictionary.t → X → outcome Empty_set X)
    (s : CacheDictionary.t * X)
  : outcome (thrown X) (CacheDictionary.t * X) :=
  let '(d, x) := s in
  let stream := IDictionarySource.loadIds (source_ptr d) ids in
  let d := called_loadIds ids d in
  let d := lock ScopedWriteRWLock d in
  update_blocks on_cell_updated stream (d, x).

(** *** getItems, scalar *)

(** The positions [outdated_ids] holds for [id]: none when it has no entry. *)
Definition positions (outdated_ids : gmap Z (list nat)) (id : Z) : list nat :=
  default [] (outdated_ids !! id).

(** [outdated_ids[id].push_back(i)] *)
Definition push_back_outdated (id : Z) (i : nat) (outdated_ids : gmap Z (list nat))
  : gmap Z (list nat) :=
  <[id := positions outdated_ids id ++ [i]]> outdated_ids.

(** The body of the first loop of [getItems<T>] for position [i] with key
    [id]: fetch an up-to-date value, or note the position as outdated. *)
Definition fetch_row {E} (T : scalar) (attribute : attribute_t.t) (i : nat) (id : Z)
    (s : CacheDictionary.t * list (cpp T) * gmap Z (list nat))
  : outcome E (CacheDictionary.t * list (cpp T) * gmap Z (list nat)) :=
  let '(d, out, outdated_ids) := s in
  if decide (id = 0) then
    out ← store out_index out i (null_values_t.get T (attribute_t.null_values attribute));
    Ok (d, out, outdated_ids)
  else
    let cell_idx := getCellIdx d id in
    cell ← read cell_index (cells d) (Z.to_nat cell_idx);
    let '(outdated, d) := cell_outdated cell id d in
    if outdated then
      out ← store out_index out i (null_values_t.get T (attribute_t.null_values attribute));
      Ok (d, out, push_back_outdated id i outdated_ids)
    else
      x ← read array_index (arrays_t.get T (attribute_t.arrays attribute)) (Z.to_nat cell_idx);
      out ← store out_index out i x;
      Ok (d, out, outdated_ids).

Fixpoint fetch_rows {E} (T : scalar) (attribute : attribute_t.t) (i : nat) (ids : list Z)
    (s : CacheDictionary.t * list (cpp T) * gmap Z (list nat))
  : outcome E (CacheDictionary.t * list (cpp T) * gmap Z (list nat)) :=
  match ids with
  | [] => Ok s
  | id :: ids' =>
      s ← fetch_row T attribute i id s;
      fetch_rows T attribute (S i) ids' s
  end.

(** [for (const auto out_idx : ...) out[out_idx] = attribute_value] *)
Fixpoint set_missing {E A} (out : list A) (out_idxs : list nat) (attribute_value : A)
  : outcome E (list A) :=
  match out_idxs with
  | [] => Ok out
  | out_idx :: rest =>
      out ← store out_index out out_idx attribute_value;
      set_missing out rest attribute_value
  end.

(** The callback [getItems<T>] passes to [update]; it captures [out] and
    [outdated_ids], and [outdated_ids[id]] adds an empty entry for a key
    that has none. *)
Definition on_scalar_updated (T : scalar) (attribute_idx : nat) (id cell_idx : Z)
    (d : CacheDictionary.t) (x : list (cpp T) * gmap Z (list nat))
  : outcome Empty_set (list (cpp T) * gmap Z (list nat)) :=
  let '(out, outdated_ids) := x in
  attribute ← read attribute_index (attributes d) attribute_idx;
  attribute_value ← read array_index (arrays_t.get T (attribute_t.arrays attribute)) (Z.to_nat cell_idx);
  let out_idxs := positions outdated_ids id in
  out ← set_missing out out_idxs attribute_value;
  Ok (out, <[id := out_idxs]> outdated_ids).

(** The keys of a [HashMap] as the iteration over it yields them: each key
    once. The order is that of the map of the model; the source is any
    function of the list of keys, so that no property depends on it. *)
Definition keys {V} (m : gmap Z V) : list Z := (map_to_list m).*1.

(** [template <typename T> void getItems(attribute_idx, ids, out) const] *)
Definition getItems (T : scalar) (attribute_idx : nat) (ids : list Z) (out : list (cpp T))
    (d : CacheDictionary.t)
  : outcome (thrown (list (cpp T))) (CacheDictionary.t * list (cpp T)) :=
  attribute ← read attribute_index (attributes d) attribute_idx;
  let d := lock ScopedReadRWLock d in
  '(d, out, outdated_ids) ← fetch_rows T attribute 0 ids (d, out, ∅);
  if decide (outdated_ids = ∅) then Ok (d, out)
  else
    let required_ids := keys outdated_ids in
    '(d, (out, _)) ←
      rethrow (λ '(e, (d, (out, _))), (e, (d, out)))
        (update required_ids (on_scalar_updated T attribute_idx) (d, (out, outdated_ids)));
    Ok (d, out).

(** *** getItems, strings *)

(** The optimistic loop: it stops at the first outdated cell and returns
    [found_outdated_values] with what was appended so far. *)
Fixpoint fetch_strings {E} (attribute : attribute_t.t) (ids : list Z)
    (s : CacheDictionary.t * ColumnString.t)
  : outcome E (bool * CacheDictionary.t * ColumnString.t) :=
  let '(d, out) := s in
  match ids with
  | [] => Ok (false, d, out)
  | id :: ids' =>
      if decide (id = 0) then
        let string := null_values_t.of_String (attribute_t.null_values attribute) in
        fetch_strings attribute ids' (d, ColumnString.insertData out string)
      else
        let cell_idx := getCellIdx d id in
        cell ← read cell_index (cells d) (Z.to_nat cell_idx);
        let '(outdated, d) := cell_outdated cell id d in
        if outdated then Ok (true, d, out)
        else
          string_ref ← read array_index (arrays_t.of_StringRef (attribute_t.arrays attribute))
                         (Z.to_nat cell_idx);
          fetch_strings attribute ids' (d, ColumnString.insertData out (StringRef.bytes string_ref))
  end.

(** The body of the loop of the pessimistic pass for key [id]; the locals
    are [outdated_ids], [map] and [total_length]. *)
Definition collect_row {E} (attribute : attribute_t.t) (id : Z)
    (s : CacheDictionary.t * (gmap Z Z * gmap Z String * Z))
  : outcome E (CacheDictionary.t * (gmap Z Z * gmap Z String * Z)) :=
  let '(d, (outdated_ids, map, total_length)) := s in
  if decide (id = 0) then Ok (d, (outdated_ids, map, total_length + 1))
  else
    let cell_idx := getCellIdx d id in
    cell ← read cell_index (cells d) (Z.to_nat cell_idx);
    let '(outdated, d) := cell_outdated cell id d in
    if outdated then
      Ok (d, (<[id := default 0 (outdated_ids !! id) + 1]> outdated_ids, map, total_length))
    else
      string_ref ← read array_index (arrays_t.of_StringRef (attribute_t.arrays attribute))
                     (Z.to_nat cell_idx);
      Ok (d, (outdated_ids, <[id := StringRef.bytes string_ref]> map,
              total_length + (StringRef.size string_ref + 1))).

Fixpoint collect_rows {E} (attribute : attribute_t.t) (ids : list Z)
    (s : CacheDictionary.t * (gmap Z Z * gmap Z String * Z))
  : outcome E (CacheDictionary.t * (gmap Z Z * gmap Z String * Z)) :=
  match ids with
  | [] => Ok s
  | id :: ids' =>
      s ← collect_row attribute id s;
      collect_rows attribute ids' s
  end.

(** The callback the pessimistic pass gives to [update]; it captures
    [map] and [total_length]. *)
Definition on_string_updated (attribute_idx : nat) (id cell_idx : Z)
    (d : CacheDictionary.t) (x : gmap Z String * Z)
  : outcome Empty_set (gmap Z String * Z) :=
  let '(map, total_length) := x in
  attribute ← read attribute_index (attributes d) attribute_idx;
  attribute_value ← read array_index (arrays_t.of_StringRef (attribute_t.arrays attribute))
                      (Z.to_nat cell_idx);
  Ok (<[id := StringRef.bytes attribute_value]> map,
      total_length + (StringRef.size attribute_value + 1)).

(** The last loop: one string per requested key, in the order of [ids]. *)
Fixpoint emit (map : gmap Z String) (null_value : String) (ids : list Z)
    (out : ColumnString.t) : ColumnString.t :=
  match ids with
  | [] => out
  | id :: ids' =>
      let string := default null_value (map !! id) in
      emit map null_value ids' (ColumnString.insertData out string)
  end.

(** The pessimistic pass: everything after
    [if (!found_outdated_values) return;]. *)
Definition getItems_pessimistic (attribute_idx : nat) (ids : list Z) (out : ColumnString.t)
    (d : CacheDictionary.t)
  : outcome (thrown ColumnString.t) (CacheDictionary.t * ColumnString.t) :=
  attribute ← read attribute_index (attributes d) attribute_idx;
  let out := ColumnString.truncate out in
  let d := lock ScopedReadRWLock d in
  '(d, (outdated_ids, map, total_length)) ← collect_rows attribute ids (d, (∅, ∅, 0));
  '(d, (map, total_length)) ←
    (if decide (outdated_ids = ∅) then Ok (d, (map, total_length))
     else
       let required_ids := keys outdated_ids in
       rethrow (λ '(e, (d, _)), (e, (d, out)))
         (update required_ids (on_string_updated attribute_idx) (d, (map, total_length))));
  (* out->getChars().reserve(total_length) changes no content *)
  attribute ← read attribute_index (attributes d) attribute_idx;
  Ok (d, emit map (null_values_t.of_String (attribute_t.null_values attribute)) ids out).

(** [void getItems(attribute_idx, ids, ColumnString * out) const] *)
Definition getItems_string (attribute_idx : nat) (ids : list Z) (out : ColumnString.t)
    (d : CacheDictionary.t)
  : outcome (thrown ColumnString.t) (CacheDictionary.t * ColumnString.t) :=
  (* out->getOffsets().reserve(ids.size()) changes no content *)
  attribute ← read attribute_index (attributes d) attribute_idx;
  let d := lock ScopedReadRWLock d in
  '(found_outdated_values, d, out) ← fetch_strings attribute ids (d, out);
  if negb found_outdated_values then Ok (d, out)
  else getItems_pessimistic attribute_idx ids out d.

(** *** The getters *)

Definition no_such_attribute (attribute_name : string) : Exception :=
  {| message := String.append "No such attribute '" (String.append attribute_name "'");
     code := BAD_ARGUMENTS |}.

Definition type_mismatch (attribute_name : string) (type : AttributeType.t) : Exception :=
  {| message :=
       String.append "Type mismatch: attribute "
         (String.append attribute_name (String.append " has type " (toString type)));
     code := TYPE_MISMATCH |}.

(** [std::size_t getAttributeIndex(const std::string & attribute_name) const] *)
Definition getAttributeIndex {O} (attribute_name : string) (d : CacheDictionary.t) (out : O)
  : outcome (thrown O) nat :=
  match attribute_index_by_name d !! attribute_name with
  | None => Throw (no_such_attribute attribute_name, (d, out))
  | Some idx => Ok idx
  end.

(** The head of every getter: the index of the attribute, and the
    comparison of its type with the [LC_TYPE] of the getter. *)
Definition checked_attribute {O} (type : AttributeType.t) (attribute_name : string)
    (d : CacheDictionary.t) (out : O)
  : outcome (thrown O) nat :=
  idx ← getAttributeIndex attribute_name d out;
  attribute ← read attribute_index (attributes d) idx;
  if decide (attribute_t.type attribute ≠ type)
  then Throw (type_mismatch attribute_name (attribute_t.type attribute), (d, out))
  else Ok idx.

(** [DECLARE_MULTIPLE_GETTER(TYPE, LC_TYPE)]:
    [void get##TYPE(attribute_name, ids, out) const] *)
Definition get (T : scalar) (attribute_name : string) (ids : list Z) (out : list (cpp T))
    (d : CacheDictionary.t)
  : outcome (thrown (list (cpp T))) (CacheDictionary.t * list (cpp T)) :=
  idx ← checked_attribute (LC_TYPE T) attribute_name d out;
  getItems T idx ids out d.

(** [void getString(attribute_name, ids, ColumnString * out) const] *)
Definition getString (attribute_name : string) (ids : list Z) (out : ColumnString.t)
    (d : CacheDictionary.t)
  : outcome (thrown ColumnString.t) (CacheDictionary.t * ColumnString.t) :=
  idx ← checked_attribute AttributeType.string attribute_name d out;
  getItems_string idx ids out d.

(** [DECLARE_INDIVIDUAL_GETTER(TYPE, LC_TYPE)]:
    [TYPE get##TYPE(attribute_name, id) const]; [uninitialised] is what
    the one element of [PODArray<TYPE> out{1}] holds before it is written. *)
Definition get_individual (T : scalar) (attribute_name : string) (id : Z)
    (uninitialised : cpp T) (d : CacheDictionary.t)
  : outcome (thrown ()) (CacheDictionary.t * cpp T) :=
  idx ← checked_attribute (LC_TYPE T) attribute_name d ();
  let ids := [id] in
  let out := [uninitialised] in
  '(d, out) ← rethrow (λ '(e, (d, _)), (e, (d, ()))) (getItems T idx ids out d);
  front ← read out_index out 0;
  Ok (d, front).

(** [out.getDataAt(0)] *)
Definition getDataAt_0 (out : ColumnString.t) : String :=
  match ColumnString.offsets out with
  | [] => []
  | offset :: _ => take (Z.to_nat (offset - 1)) (ColumnString.chars out)
  end.

(** [String getString(attribute_name, id) const] *)
Definition getString_individual (attribute_name : string) (id : Z) (d : CacheDictionary.t)
  : outcome (thrown ()) (CacheDictionary.t * String) :=
  idx ← checked_attribute AttributeType.string attribute_name d ();
  let ids := [id] in
  let out := ColumnString.empty in
  '(d, out) ← rethrow (λ '(e, (d, _)), (e, (d, ()))) (getItems_string idx ids out d);
  Ok (d, getDataAt_0 out).

(** *** Construction *)

(** The value [std::make_unique<T[]>(size)] gives every element. *)
Definition cpp_zero (T : scalar) : cpp T :=
  match T with
  | Float32 => float_zero
  | Float64 => double_zero
  | _ => 0
  end.

Definition scalar_attribute (T : scalar) (size : Z) (null_value : string) : attribute_t.t :=
  {| attribute_t.type := LC_TYPE T;
     attribute_t.null_values := null_values_t.set T (parse T null_value) null_values_t.zero;
     attribute_t.arrays := arrays_t.set T (replicate (Z.to_nat size) (cpp_zero T)) arrays_t.null |}.

(** [attribute_t createAttributeWithType(const AttributeType type, const std::string & null_value)] *)
Definition createAttributeWithType (size : Z) (type : AttributeType.t) (null_value : string)
  : attribute_t.t :=
  match type with
  | AttributeType.uint8 => scalar_attribute UInt8 size null_value
  | AttributeType.uint16 => scalar_attribute UInt16 size null_value
  | AttributeType.uint32 => scalar_attribute UInt32 size null_value
  | AttributeType.uint64 => scalar_attribute UInt64 size null_value
  | AttributeType.int8 => scalar_attribute Int8 size null_value
  | AttributeType.int16 => scalar_attribute Int16 size null_value
  | AttributeType.int32 => scalar_attribute Int32 size null_value
  | AttributeType.int64 => scalar_attribute Int64 size null_value
  | AttributeType.float32 => scalar_attribute Float32 size null_value
  | AttributeType.float64 => scalar_attribute Float64 size null_value
  | AttributeType.string =>
      {| attribute_t.type := AttributeType.string;
         attribute_t.null_values :=
           null_values_t.set_String (String.list_byte_of_string null_value) null_values_t.zero;
         attribute_t.arrays :=
           arrays_t.set_StringRef (replicate (Z.to_nat size) StringRef.null) arrays_t.null |}
  end.

(** [void createAttributes()], as a loop over [dict_struct.attributes]
    that carries the three members it fills. *)
Fixpoint createAttributes (size : Z) (dict_struct : list DictionaryAttribute.t)
    (s : gmap string nat * list attribute_t.t * option nat)
  : gmap string nat * list attribute_t.t * option nat :=
  match dict_struct with
  | [] => s
  | attribute :: rest =>
      let '(attribute_index_by_name, attributes, hierarchical_attribute) := s in
      (* emplace keeps an entry that is already there *)
      let attribute_index_by_name :=
        match attribute_index_by_name !! DictionaryAttribute.name attribute with
        | Some _ => attribute_index_by_name
        | None => <[DictionaryAttribute.name attribute := length attributes]> attribute_index_by_name
        end in
      let attributes :=
        attributes ++ [createAttributeWithType size (DictionaryAttribute.type attribute)
                         (DictionaryAttribute.null_value attribute)] in
      let hierarchical_attribute :=
        if DictionaryAttribute.hierarchical attribute
        then Some (length attributes - 1)%nat else hierarchical_attribute in
      createAttributes size rest (attribute_index_by_name, attributes, hierarchical_attribute)
  end.

Definition unsupported_source : Exception :=
  {| message := "Source cannot be used with CacheDictionary"; code := UNSUPPORTED_METHOD |}.

(** The constructor; [rnd_engine] is the engine as seeded from [getSeed()]. *)
Definition construct (name : string) (dict_struct : list DictionaryAttribute.t)
    (source_ptr : IDictionarySource.t) (dict_lifetime : DictionaryLifetime.t) (size : Z)
    (rnd_engine : mt19937_64)
  : outcome Exception CacheDictionary.t :=
  let size := round_up_to_power_of_two size in
  let cells :=
    replicate (Z.to_nat size) {| cell_metadata_t.id := 0; cell_metadata_t.expires_at := 0 |} in
  if negb (IDictionarySource.supportsSelectiveLoad source_ptr) then Throw unsupported_source
  else
    let '(attribute_index_by_name, attributes, hierarchical_attribute) :=
      createAttributes size dict_struct (∅, [], None) in
    Ok {| CacheDictionary.name := name;
          CacheDictionary.source_ptr := source_ptr;
          CacheDictionary.dict_lifetime := dict_lifetime;
          CacheDictionary.rw_lock := [];
          CacheDictionary.size := size;
          CacheDictionary.attribute_index_by_name := attribute_index_by_name;
          CacheDictionary.attributes := attributes;
          CacheDictionary.cells := cells;
          CacheDictionary.hierarchical_attribute := hierarchical_attribute;
          CacheDictionary.rnd_engine := rnd_engine;
          CacheDictionary.loadIds_calls := [];
          CacheDictionary.clock_reads := 0 |}.

(** ** Notions the properties are stated with *)


(** What is noted in [outdated_ids] lies inside [out]. *)
Definition noted_inside {A} (out : list A) (outdated_ids : gmap Z (list nat)) : Prop :=
  ∀ k j, j ∈ positions outdated_ids k → (j < length out)%nat.

(** No position is noted in [outdated_ids] for two keys. *)
Definition noted_once (outdated_ids : gmap Z (list nat)) : Prop :=
  ∀ k k' j, j ∈ positions outdated_ids k → j ∈ positions outdated_ids k' → k = k'.

(** The last row with key [id] in the rows [i], [i + 1], ... of a block
    whose keys from [i] on are [ids], as [value] reads it. *)
Fixpoint last_row_in {A} (value : nat → option A) (i : nat) (ids : list Z) (id : Z)
  : option A :=
  match ids with
  | [] => None
  | id' :: ids' =>
      match last_row_in value (S i) ids' id with
      | Some x => Some x
      | None => if decide (id' = id) then value i else None
      end
  end.

(** The last row with key [id] of a stream of blocks. *)
Fixpoint last_row {A} (value : Block.t → nat → option A) (stream : list Block.t) (id : Z)
  : option A :=
  match stream with
  | [] => None
  | block :: stream' =>
      match last_row value stream' id with
      | Some x => Some x
      | None =>
          match Block.id_column block with
          | Some ids => last_row_in (value block) 0 ids id
          | None => None
          end
      end
  end.

(** The field of attribute [attribute_idx] in row [i] of [block]. *)
Definition row_field (attribute_idx : nat) (block : Block.t) (i : nat) : option Field :=
  attribute_column ← Block.columns block !! attribute_idx;
  attribute_column !! i.

(** What the row gives an array of [T], and what it gives a string slot. *)
Definition row_value (T : scalar) (attribute_idx : nat) (block : Block.t) (i : nat)
  : option (cpp T) :=
  value ← row_field attribute_idx block i;
  match converted (E := ()) T value with
  | Ok x => Some x
  | _ => None
  end.

Definition row_string (attribute_idx : nat) (block : Block.t) (i : nat) : option String :=
  value ← row_field attribute_idx block i;
  match value with
  | Field_String x => Some x
  | _ => None
  end.

(** [d'] has the cells, the attributes and the source calls of [d]: they
    differ at most in the locks taken and the readings of the clock. *)
Definition same_contents (d d' : CacheDictionary.t) : Prop :=
  cells d' = cells d ∧ attributes d' = attributes d ∧ size d' = size d ∧
  source_ptr d' = source_ptr d ∧ dict_lifetime d' = dict_lifetime d ∧
  loadIds_calls d' = loadIds_calls d.

(** What a lookup finds for key [id] when the clock gives its reading
    [n]: whether the cell of its slot holds [id] and has not expired. *)
Definition up_to_date (d : CacheDictionary.t) (n : nat) (id : Z) : bool :=
  match cells d !! Z.to_nat (getCellIdx d id) with
  | Some cell =>
      bool_decide (cell_metadata_t.id cell = id ∧
                   system_clock_now n < cell_metadata_t.expires_at cell)
  | None => false
  end.

(** None of the next [count] readings of the clock changes what a lookup
    finds for a key: no cell expires between them. *)
Definition steady (d : CacheDictionary.t) (count : nat) : Prop :=
  ∀ n id, (clock_reads d ≤ n < clock_reads d + count)%nat →
    up_to_date d n id = up_to_date d (clock_reads d) id.

(** The positions of [id] in [ids], counted from [i]. *)
Fixpoint occurrences (i : nat) (ids : list Z) (id : Z) : list nat :=
  match ids with
  | [] => []
  | id' :: ids' => (if decide (id' = id) then [i] else []) ++ occurrences (S i) ids' id
  end.

(** The value of attribute [attribute_idx] for key [id]: the null value
    for key 0, the value in the slot of [id] when the cell is up to date,
    else the value of the last row the source sent for [id], and the null
    value when it sent none. *)
Definition value_for (T : scalar) (attribute : attribute_t.t) (attribute_idx : nat)
    (d : CacheDictionary.t) (stream : list Block.t) (id : Z) : option (cpp T) :=
  let null_value := null_values_t.get T (attribute_t.null_values attribute) in
  if decide (id = 0) then Some null_value
  else if up_to_date d (clock_reads d) id
  then arrays_t.get T (attribute_t.arrays attribute) !! Z.to_nat (getCellIdx d id)
  else Some (default null_value (last_row (row_value T attribute_idx) stream id)).

(** Every key of [ids] other than 0 is up to date at each of the next
    [count] readings of the clock. *)
Definition all_fresh (d : CacheDictionary.t) (count : nat) (ids : list Z) : Prop :=
  ∀ n id, (clock_reads d ≤ n < clock_reads d + count)%nat → id ∈ ids → id ≠ 0 →
    up_to_date d n id = true.

(** The string in the slot of [id]. *)
Definition resident_string (attribute : attribute_t.t) (d : CacheDictionary.t) (id : Z)
  : option String :=
  StringRef.bytes <$>
    arrays_t.of_StringRef (attribute_t.arrays attribute) !! Z.to_nat (getCellIdx d id).

(** What the optimistic pass appends for a key whose cell it finds up to
    date, and for key 0. *)
Definition optimistic_string (attribute : attribute_t.t) (d : CacheDictionary.t) (id : Z)
  : String :=
  if decide (id = 0) then null_values_t.of_String (attribute_t.null_values attribute)
  else default [] (resident_string attribute d id).

(** [insertData] for each string in turn. *)
Definition insert_all (out : ColumnString.t) (strings : list String) : ColumnString.t :=
  foldl ColumnString.insertData out strings.

(** What the source sends a lookup whose request is [required_ids]: the
    lookup does not call it when there is nothing to request. *)
Definition answer (d : CacheDictionary.t) (required_ids : list Z) : list Block.t :=
  if decide (required_ids = []) then []
  else IDictionarySource.loadIds (source_ptr d) required_ids.

(** ** Notions of the further properties *)

(** [CacheDictionary(const CacheDictionary & other)]: the constructor on
    the members of [other]. [dict_struct] stands for [other.dict_struct],
    which the state above does not hold, [cloned] for what
    [other.source_ptr->clone()] returns and [rnd_engine] for the engine as
    it is seeded anew. *)
Definition copy_construct (other : CacheDictionary.t) (dict_struct : list DictionaryAttribute.t)
    (cloned : IDictionarySource.t) (rnd_engine : mt19937_64)
  : outcome Exception CacheDictionary.t :=
  construct (name other) dict_struct cloned (dict_lifetime other) (size other) rnd_engine.

(** The cell that [cells{this->size}] value-initialises. *)
Definition empty_cell : cell_metadata_t.t :=
  {| cell_metadata_t.id := 0; cell_metadata_t.expires_at := 0 |}.

(** The number of elements of the array that an attribute owns for its
    type. *)
Definition slots (attribute : attribute_t.t) : nat :=
  match attribute_t.type attribute with
  | AttributeType.uint8 => length (arrays_t.of_UInt8 (attribute_t.arrays attribute))
  | AttributeType.uint16 => length (arrays_t.of_UInt16 (attribute_t.arrays attribute))
  | AttributeType.uint32 => length (arrays_t.of_UInt32 (attribute_t.arrays attribute))
  | AttributeType.uint64 => length (arrays_t.of_UInt64 (attribute_t.arrays attribute))
  | AttributeType.int8 => length (arrays_t.of_Int8 (attribute_t.arrays attribute))
  | AttributeType.int16 => length (arrays_t.of_Int16 (attribute_t.arrays attribute))
  | AttributeType.int32 => length (arrays_t.of_Int32 (attribute_t.arrays attribute))
  | AttributeType.int64 => length (arrays_t.of_Int64 (attribute_t.arrays attribute))
  | AttributeType.float32 => length (arrays_t.of_Float32 (attribute_t.arrays attribute))
  | AttributeType.float64 => length (arrays_t.of_Float64 (attribute_t.arrays attribute))
  | AttributeType.string => length (arrays_t.of_StringRef (attribute_t.arrays attribute))
  end.

(** The shape the constructor gives a dictionary: a capacity that is a
    power of two of [std::size_t], one cell per slot, for every attribute
    one array element per slot, and every index of
    [attribute_index_by_name] inside [attributes]. *)
Definition well_formed (d : CacheDictionary.t) : Prop :=
  (∃ k, 0 ≤ k ≤ 63 ∧ size d = 2 ^ k) ∧
  length (cells d) = Z.to_nat (size d) ∧
  (∀ attribute, attribute ∈ attributes d → slots attribute = Z.to_nat (size d)) ∧
  (∀ attribute_name idx, attribute_index_by_name d !! attribute_name = Some idx →
     (idx < length (attributes d))%nat).

(** The members that stay as the constructor set them: [d'] has the
    capacity, the names, the source and the lifetime of [d], as many cells,
    and attribute by attribute the type, the null values and the number of
    slots of [d]. *)
Definition same_schema (d d' : CacheDictionary.t) : Prop :=
  size d' = size d ∧
  attribute_index_by_name d' = attribute_index_by_name d ∧
  source_ptr d' = source_ptr d ∧
  dict_lifetime d' = dict_lifetime d ∧
  length (cells d') = length (cells d) ∧
  Forall2 (λ attribute attribute',
             attribute_t.type attribute' = attribute_t.type attribute ∧
             attribute_t.null_values attribute' = attribute_t.null_values attribute ∧
             slots attribute' = slots attribute)
    (attributes d) (attributes d').

(** A field that [setAttributeValue] reads for an attribute of [type]
    through the [get] of the storage the field holds: a 64-bit integer for
    the integer types, a [Float64] for the floating-point types, a
    [String] for strings. *)
Definition readable (type : AttributeType.t) (value : Field) : bool :=
  match type with
  | AttributeType.uint8 | AttributeType.uint16 | AttributeType.uint32 | AttributeType.uint64
  | AttributeType.int8 | AttributeType.int16 | AttributeType.int32 | AttributeType.int64 =>
      match value with Field_UInt64 _ | Field_Int64 _ => true | _ => false end
  | AttributeType.float32 | AttributeType.float64 =>
      match value with Field_Float64 _ => true | _ => false end
  | AttributeType.string =>
      match value with Field_String _ => true | _ => false end
  end.

(** A block that [update] reads within its columns: when its column 0 is
    a [ColumnVector<UInt64>], it has for every attribute the column at the
    attribute's position, with a readable field in each row of the id
    column. *)
Definition well_shaped (types : list AttributeType.t) (block : Block.t) : Prop :=
  match Block.id_column block with
  | None => True
  | Some ids =>
      ∀ n type, types !! n = Some type →
        ∃ attribute_column, Block.columns block !! n = Some attribute_column ∧
          ∀ i, (i < length ids)%nat →
            ∃ value, attribute_column !! i = Some value ∧ readable type value = true
  end.

(** Row [i] of [block] has, for every attribute type of [types] in turn,
    a readable field in the column of the attribute. *)
Definition row_readable (types : list AttributeType.t) (block : Block.t) (i : nat) : Prop :=
  ∀ n type, types !! n = Some type →
    ∃ attribute_column value,
      Block.columns block !! n = Some attribute_column ∧
      attribute_column !! i = Some value ∧
      readable type value = true.

(** A source whose every answer is made of such blocks. *)
Definition well_behaved (d : CacheDictionary.t) : Prop :=
  ∀ ids, Forall (well_shaped (attribute_t.type <$> attributes d))
           (IDictionarySource.loadIds (source_ptr d) ids).

(** The slot [slot] is in [d'] as it is in [d]: its cell, and the element
    at the slot of every array of every attribute. *)
Definition slot_untouched (slot : nat) (d d' : CacheDictionary.t) : Prop :=
  cells d' !! slot = cells d !! slot ∧
  Forall2 (λ attribute attribute',
             (∀ T, arrays_t.get T (attribute_t.arrays attribute') !! slot
                   = arrays_t.get T (attribute_t.arrays attribute) !! slot) ∧
             arrays_t.of_StringRef (attribute_t.arrays attribute') !! slot
             = arrays_t.of_StringRef (attribute_t.arrays attribute) !! slot)
    (attributes d) (attributes d').

(** The attribute that [createAttributes] makes of a declared one. *)
Definition created (size : Z) (attribute : DictionaryAttribute.t) : attribute_t.t :=
  createAttributeWithType size (DictionaryAttribute.type attribute)
    (DictionaryAttribute.null_value attribute).

End operations.

(** ** A platform and a dictionary to run the code on *)

(** The mixer the examples use for [intHash64]: the finaliser of
    MurmurHash3 on 64 bits. *)
Definition murmur_finalizer (x : Z) : Z :=
  let x := Z.lxor x (Z.shiftr x 33) in
  let x := wrap_unsigned 64 (x * 0xff51afd7ed558ccd) in
  let x := Z.lxor x (Z.shiftr x 33) in
  let x := wrap_unsigned 64 (x * 0xc4ceb9fe1a85ec53) in
  let x := Z.lxor x (Z.shiftr x 33) in
  x.

(** Decimal digits to a number. *)
Fixpoint parse_digits (s : string) (acc : Z) : Z :=
  match s with
  | EmptyString => acc
  | String.String c s' => parse_digits s' (10 * acc + (Z.of_nat (Ascii.nat_of_ascii c) - 48))
  end.

Definition example_toString (type : AttributeType.t) : string :=
  match type with
  | AttributeType.uint8 => "UInt8" | AttributeType.uint16 => "UInt16"
  | AttributeType.uint32 => "UInt32" | AttributeType.uint64 => "UInt64"
  | AttributeType.int8 => "Int8" | AttributeType.int16 => "Int16"
  | AttributeType.int32 => "Int32" | AttributeType.int64 => "Int64"
  | AttributeType.float32 => "Float32" | AttributeType.float64 => "Float64"
  | AttributeType.string => "String"
  end.

(** Floating-point values stand as integers, the engine is a counter whose
    draw from [a, b] is [a + g mod (b - a + 1)], and the [n]-th reading of
    the clock is [n] seconds. *)
Definition example_platform : Platform :=
  {| float := Z;
     double := Z;
     float_zero := 0;
     double_zero := 0;
     double_to_float := λ x, x;
     intHash64 := murmur_finalizer;
     mt19937_64 := Z;
     uniform_int_distribution := λ a b g, (a + g mod (b - a + 1), g + 1);
     system_clock_now := λ n, seconds (Z.of_nat n);
     toString := example_toString;
     parse := λ T s,
       match T return cpp_of Z Z T with
       | UInt8 | UInt16 | UInt32 | UInt64 | Int8 | Int16 | Int32 | Int64
       | Float32 | Float64 => parse_digits s 0
       end |}.

Section examples.
#[local] Existing Instance example_platform.

(** The schema [{x: UInt32 null=0, s: String null=""}]. *)
Definition example_schema : list DictionaryAttribute.t :=
  [ {| DictionaryAttribute.name := "x"; DictionaryAttribute.type := AttributeType.uint32;
       DictionaryAttribute.null_value := "0"; DictionaryAttribute.hierarchical := false |};
    {| DictionaryAttribute.name := "s"; DictionaryAttribute.type := AttributeType.string;
       DictionaryAttribute.null_value := ""; DictionaryAttribute.hierarchical := false |} ].

(** A block with one row [(id, x, s)] per element. *)
Definition example_block (rows : list (Z * Z * String)) : Block.t :=
  {| Block.id_column := Some (rows.*1.*1);
     Block.columns := [Field_UInt64 <$> rows.*1.*2; Field_String <$> rows.*2] |}.

(** A source that answers from a table: one block with the rows of the
    requested keys it knows, preceded by the rows it sends unasked. *)
Definition example_source (unasked table : list (Z * Z * String)) : IDictionarySource.t :=
  {| IDictionarySource.supportsSelectiveLoad := true;
     IDictionarySource.loadIds := λ ids,
       [example_block
          (unasked ++ omap (λ id, list_find (λ row, row.1.1 = id) table ≫= λ found, Some found.2) ids)] |}.

Definition example_table : list (Z * Z * String) :=
  [(4, 7, ["a"%byte]); (5, 9, ["b"%byte]); (2, 3, ["h"%byte; "i"%byte]); (1, 6, ["k"%byte])].

Definition example_lifetime : DictionaryLifetime.t :=
  {| DictionaryLifetime.min_sec := 10; DictionaryLifetime.max_sec := 10 |}.

(** The dictionary of the examples as the constructor leaves it: capacity
    4, lifetime (10, 10), a source with [unasked] rows. With this mixer
    the keys 4 and 5 share slot 1 and the keys 0 and 1 share slot 0. *)
Definition example_dictionary (unasked : list (Z * Z * String)) : CacheDictionary.t :=
  let '(attribute_index_by_name, attributes, hierarchical_attribute) :=
    createAttributes 4 example_schema (∅, [], None) in
  {| CacheDictionary.name := "example";
     CacheDictionary.source_ptr := example_source unasked example_table;
     CacheDictionary.dict_lifetime := example_lifetime;
     CacheDictionary.rw_lock := [];
     CacheDictionary.size := 4;
     CacheDictionary.attribute_index_by_name := attribute_index_by_name;
     CacheDictionary.attributes := attributes;
     CacheDictionary.cells :=
       replicate 4 {| cell_metadata_t.id := 0; cell_metadata_t.expires_at := 0 |};
     CacheDictionary.hierarchical_attribute := hierarchical_attribute;
     CacheDictionary.rnd_engine := 0;
     CacheDictionary.loadIds_calls := [];
     CacheDictionary.clock_reads := 0 |}.

(** The example dictionary after batched lookups of its attribute [x],
    one after the other. *)
Definition example_after (unasked : list (Z * Z * String)) (lookups : list (list Z))
  : CacheDictionary.t :=
  foldl (λ d ids,
           match getItems UInt32 0 ids (replicate (length ids) 0) d with
           | Ok (d', _) => d'
           | _ => d
           end)
    (example_dictionary unasked) lookups.

(** The attribute [x] as it is after these lookups. *)
Definition example_after_attribute_x (unasked : list (Z * Z * String)) (lookups : list (list Z))
  : attribute_t.t :=
  default (createAttributeWithType 4 AttributeType.uint32 "0")
    (CacheDictionary.attributes (example_after unasked lookups) !! 0%nat).

(** The attribute [s] as it is after these lookups. *)
Definition example_after_attribute_s (unasked : list (Z * Z * String)) (lookups : list (list Z))
  : attribute_t.t :=
  default (createAttributeWithType 4 AttributeType.string "")
    (CacheDictionary.attributes (example_after unasked lookups) !! 1%nat).

(** The attribute [x] of the example schema, as constructed. *)
Definition example_scalar_attribute : attribute_t.t :=
  createAttributeWithType 4 AttributeType.uint32 "0".

(** The attribute [s] of the example schema, as constructed. *)
Definition example_string_attribute : attribute_t.t :=
  createAttributeWithType 4 AttributeType.string "".

(** A schema with two attributes declared hierarchical. *)
Definition example_hierarchy_schema : list DictionaryAttribute.t :=
  [ {| DictionaryAttribute.name := "region"; DictionaryAttribute.type := AttributeType.uint64;
       DictionaryAttribute.null_value := "0"; DictionaryAttribute.hierarchical := true |};
    {| DictionaryAttribute.name := "parent"; DictionaryAttribute.type := AttributeType.uint64;
       DictionaryAttribute.null_value := "0"; DictionaryAttribute.hierarchical := true |};
    {| DictionaryAttribute.name := "title"; DictionaryAttribute.type := AttributeType.string;
       DictionaryAttribute.null_value := ""; DictionaryAttribute.hierarchical := false |} ].

(** A source that answers with three blocks: one with a row for key 4,
    one whose id column is not a [ColumnVector<UInt64>], and one with a
    row for key 2. *)
Definition example_untyped_source : IDictionarySource.t :=
  {| IDictionarySource.supportsSelectiveLoad := true;
     IDictionarySource.loadIds := λ _,
       [ example_block [(4, 7, ["a"%byte])];
         {| Block.id_column := None; Block.columns := [] |};
         example_block [(2, 3, ["h"%byte; "i"%byte])] ] |}.

(** The dictionary of the examples over that source. *)
Definition example_untyped_dictionary : CacheDictionary.t :=
  let '(attribute_index_by_name, attributes, hierarchical_attribute) :=
    createAttributes 4 example_schema (∅, [], None) in
  {| CacheDictionary.name := "example";
     CacheDictionary.source_ptr := example_untyped_source;
     CacheDictionary.dict_lifetime := example_lifetime;
     CacheDictionary.rw_lock := [];
     CacheDictionary.size := 4;
     CacheDictionary.attribute_index_by_name := attribute_index_by_name;
     CacheDictionary.attributes := attributes;
     CacheDictionary.cells := replicate 4 empty_cell;
     CacheDictionary.hierarchical_attribute := hierarchical_attribute;
     CacheDictionary.rnd_engine := 0;
     CacheDictionary.loadIds_calls := [];
     CacheDictionary.clock_reads := 0 |}.

End examples.

(** The bodies of the loops stay folded under [simpl]. *)
#[global] Arguments fetch_row : simpl never.
#[global] Arguments collect_row : simpl never.
#[global] Arguments update_row : simpl never.
#[global] Arguments update : simpl never.
#[global] Arguments cell_outdated : simpl never.
#[global] Arguments getCellIdx : simpl never.
#[global] Arguments setAttributeValue : simpl never.
#[global] Arguments on_scalar_updated : simpl never.
#[global] Arguments on_string_updated : simpl never.

(** * Properties *)

(** ** The example dictionary is the constructed one *)

Lemma construct_example unasked :
  construct (H := example_platform) "example" example_schema
    (example_source unasked example_table) example_lifetime 4 0
  = Ok (example_dictionary unasked).
Proof. reflexivity. Qed.

(** ** Rounding up to a power of two *)

Lemma smeared_start m : smeared m 1 m.
Proof.
  intros i Hi. split.
  - intros Hb. exists i. split; [lia | done].
  - intros (j & Hj & Hb). by replace i with j by lia.
Qed.

Lemma smeared_step m w y :
  0 < w → smeared m w y → smeared m (2 * w) (Z.lor y (Z.shiftr y w)).
Proof.
  intros Hw Hy i Hi.
  rewrite Z.lor_spec, Z.shiftr_spec by lia.
  rewrite orb_true_iff, (Hy i), (Hy (i + w)) by lia.
  split.
  - intros [(j & Hj & Hb) | (j & Hj & Hb)]; exists j; (split; [lia | done]).
  - intros (j & Hj & Hb).
    destruct (decide (j < i + w)); [left | right]; exists j; (split; [lia | done]).
Qed.

Lemma smeared_64 m y :
  0 < m < 2 ^ 64 → smeared m 64 y → y = Z.ones (Z.log2 m + 1).
Proof.
  intros Hm Hy. apply Z.bits_inj'. intros i Hi.
  assert (HL : 0 ≤ Z.log2 m < 64).
  { split; [apply Z.log2_nonneg |]. apply Z.log2_lt_pow2; lia. }
  destruct (decide (i ≤ Z.log2 m)) as [Hle | Hgt].
  - rewrite Z.ones_spec_low by lia.
    apply Hy; [done |]. exists (Z.log2 m). split; [lia |].
    apply Z.bit_log2. lia.
  - rewrite Z.ones_spec_high by lia.
    apply not_true_is_false. intros Hb.
    apply Hy in Hb as (j & Hj & Hb); [| done].
    rewrite Z.bits_above_log2 in Hb by lia. done.
Qed.

(** For a request between 1 and 2^63 the capacity is 2 to the power of
    the rounded-up binary logarithm of the request. *)
Lemma round_up_to_power_of_two_log2_up n :
  1 ≤ n ≤ 2 ^ 63 → round_up_to_power_of_two n = 2 ^ Z.log2_up n.
Proof.
  intros Hn. unfold round_up_to_power_of_two, wrap_unsigned.
  rewrite (Z.mod_small (n - 1)) by lia.
  destruct (decide (n = 1)) as [-> | Hn1]; [done |].
  set (m := n - 1).
  assert (Hm : 0 < m < 2 ^ 63) by lia.
  pose proof (smeared_start m) as H1.
  apply (smeared_step m 1) in H1; [| lia].
  apply (smeared_step m 2) in H1; [| lia].
  apply (smeared_step m 4) in H1; [| lia].
  apply (smeared_step m 8) in H1; [| lia].
  apply (smeared_step m 16) in H1; [| lia].
  apply (smeared_step m 32) in H1; [| lia].
  change (2 * 1) with 2 in H1. change (2 * 2) with 4 in H1.
  change (2 * 4) with 8 in H1. change (2 * 8) with 16 in H1.
  change (2 * 16) with 32 in H1. change (2 * 32) with 64 in H1.
  apply smeared_64 in H1; [| lia]. rewrite H1.
  assert (HL : 0 ≤ Z.log2 m < 63).
  { split; [apply Z.log2_nonneg |]. apply Z.log2_lt_pow2; lia. }
  rewrite Z.ones_equiv, Z.log2_up_eqn by lia.
  replace (Z.pred n) with m by lia.
  replace (Z.pred (2 ^ (Z.log2 m + 1)) + 1) with (2 ^ Z.succ (Z.log2 m)) by (unfold Z.succ; lia).
  apply Z.mod_small. split; [lia |].
  apply Z.pow_lt_mono_r; lia.
Qed.

(** It is a power of two, it is not below the request, and no smaller
    power of two is. *)
Lemma round_up_to_power_of_two_least n :
  1 ≤ n ≤ 2 ^ 63 →
  ∃ k, 0 ≤ k ∧ round_up_to_power_of_two n = 2 ^ k ∧ n ≤ 2 ^ k ∧
       ∀ j, 0 ≤ j → n ≤ 2 ^ j → 2 ^ k ≤ 2 ^ j.
Proof.
  intros Hn. exists (Z.log2_up n).
  split; [apply Z.log2_up_nonneg |].
  split; [by apply round_up_to_power_of_two_log2_up |].
  split.
  - destruct (decide (n = 1)) as [-> | ?]; [done |]. apply Z.log2_up_spec. lia.
  - intros j Hj Hle. apply Z.pow_le_mono_r; [lia |].
    apply Z.log2_up_le_pow2; lia.
Qed.

(** C7. The claim gives every requested size a capacity that is a power
    of two and at least 1. For a requested size of 0 the decrement wraps
    to 2^64 - 1, the shifts leave it, and the increment wraps to 0: the
    capacity is 0, which is not at least 1 and not a power of two. *)
Theorem C7_round_up_to_power_of_two_zero :
  round_up_to_power_of_two 0 = 0 ∧
  ¬ (1 ≤ round_up_to_power_of_two 0) ∧
  ¬ (∃ k, 0 ≤ k ∧ round_up_to_power_of_two 0 = 2 ^ k).
Proof.
  assert (H0 : round_up_to_power_of_two 0 = 0) by (vm_compute; reflexivity).
  rewrite H0. split; [done |]. split; [lia |].
  intros (k & Hk & Hp). pose proof (Z.pow_pos_nonneg 2 k). lia.
Qed.

(** ** Outcomes *)

Lemma bind_Ok {E A B} (m : outcome E A) (f : A → outcome E B) (b : B) :
  m ≫= f = Ok b → ∃ a, m = Ok a ∧ f a = Ok b.
Proof. destruct m as [a | e | u]; simpl; [eauto | done | done]. Qed.

Lemma read_Ok {E A} u (l : list A) (i : nat) (x : A) :
  read (E := E) u l i = Ok x ↔ l !! i = Some x.
Proof. unfold read. destruct (l !! i); split; congruence. Qed.

Lemma read_lookup {E A} u (l : list A) (i : nat) (x : A) :
  l !! i = Some x → read (E := E) u l i = Ok x.
Proof. apply read_Ok. Qed.

Lemma store_Ok {E A} u (l l' : list A) (i : nat) (x : A) :
  store (E := E) u l i x = Ok l' ↔ (i < length l)%nat ∧ l' = <[i:=x]> l.
Proof.
  unfold store. destruct (decide (i < length l)%nat) as [Hlt | Hge]; split.
  - by intros [= <-].
  - by intros [_ ->].
  - done.
  - by intros [? _].
Qed.

Lemma store_lt {E A} u (l : list A) (i : nat) (x : A) :
  (i < length l)%nat → store (E := E) u l i x = Ok (<[i:=x]> l).
Proof. intros. by apply store_Ok. Qed.

(** ** Copying a string into a slot *)

Lemma std_copy_all (src : list byte) : std_copy src 0 (length src) = Some src.
Proof.
  unfold std_copy. apply mapM_Some. rewrite Nat.sub_0_r.
  apply Forall2_same_length_lookup. split; [by rewrite length_seq |].
  intros i j x Hj Hx. apply lookup_seq in Hj as [-> _]. done.
Qed.

Lemma String_data_length (s : String) : length (String_data s) = S (length s).
Proof. unfold String_data. rewrite length_app. simpl. lia. Qed.

Section string_slots.
Context `{Platform}.

(** C6, as the code has it. Installing a non-empty string of length
    [size] in a string slot copies [size + 1] bytes from [string.data()]:
    the [size] bytes of the string and the terminator at [data()[size]].
    The installed [StringRef] has length [size], and its first [size]
    bytes are the bytes of the string. *)
Theorem C6_setAttributeValue_copies_terminator {E}
    (attribute : attribute_t.t) (idx : Z) (string : String) :
  attribute_t.type attribute = AttributeType.string →
  (Z.to_nat idx < length (arrays_t.of_StringRef (attribute_t.arrays attribute)))%nat →
  String_size string > 0 →
  ∃ attribute' string_ptr,
    setAttributeValue (E := E) attribute idx (Field_String string) = Ok attribute' ∧
    std_copy (String_data string) 0 (Z.to_nat (String_size string + 1)) = Some string_ptr ∧
    string_ptr = string ++ [x00] ∧
    length string_ptr = S (length string) ∧
    string_ptr !! length string = String_data string !! length string ∧
    arrays_t.of_StringRef (attribute_t.arrays attribute') !! Z.to_nat idx
      = Some {| StringRef.data := Some string_ptr; StringRef.size := String_size string |} ∧
    StringRef.bytes {| StringRef.data := Some string_ptr; StringRef.size := String_size string |}
      = string.
Proof.
  intros Htype Hidx Hsize.
  assert (Hcopy : std_copy (String_data string) 0 (Z.to_nat (String_size string + 1))
                  = Some (string ++ [x00])).
  { replace (Z.to_nat (String_size string + 1)) with (length (String_data string)).
    - apply std_copy_all.
    - rewrite String_data_length. unfold String_size. lia. }
  destruct (lookup_lt_is_Some_2 _ _ Hidx) as [old Hold].
  eexists _, (string ++ [x00]).
  split.
  { unfold setAttributeValue. rewrite Htype. unfold set_string. simpl.
    rewrite (read_lookup _ _ _ _ Hold). simpl.
    rewrite decide_True by done. rewrite Hcopy. simpl.
    rewrite store_lt by done. simpl. reflexivity. }
  split; [done |]. split; [done |].
  split; [rewrite length_app; simpl; lia |].
  split; [done |].
  split.
  { simpl. by apply list_lookup_insert_eq. }
  unfold StringRef.bytes, String_size. simpl.
  rewrite Nat2Z.id. by rewrite take_app_length.
Qed.
End string_slots.

(** A string slot of the example dictionary and the string "a". *)
Lemma C6_witness :
  ∃ attribute' string_ptr,
    setAttributeValue (H := example_platform) (E := ())
      example_string_attribute 1 (Field_String ["a"%byte]) = Ok attribute' ∧
    std_copy (String_data ["a"%byte]) 0 (Z.to_nat (String_size ["a"%byte] + 1)) = Some string_ptr ∧
    string_ptr = ["a"%byte] ++ [x00] ∧
    length string_ptr = 2%nat ∧
    string_ptr !! 1%nat = String_data ["a"%byte] !! 1%nat ∧
    arrays_t.of_StringRef (attribute_t.arrays attribute') !! 1%nat
      = Some {| StringRef.data := Some string_ptr; StringRef.size := 1 |} ∧
    StringRef.bytes {| StringRef.data := Some string_ptr; StringRef.size := 1 |} = ["a"%byte].
Proof.
  apply (C6_setAttributeValue_copies_terminator (H := example_platform) (E := ())
           example_string_attribute 1 ["a"%byte]).
  - reflexivity.
  - vm_compute. lia.
  - vm_compute. reflexivity.
Defined.

(** C6, as the claim has it, fails for the string "a" of length 1: the
    array that the slot receives holds 2 bytes, not 1, and its byte at
    index 1 is the one read from [data()[1]]. *)
Lemma C6_counterexample :
  ∃ attribute' string_ref string_ptr,
    setAttributeValue (H := example_platform) (E := ())
      example_string_attribute 1 (Field_String ["a"%byte]) = Ok attribute' ∧
    arrays_t.of_StringRef (attribute_t.arrays attribute') !! 1%nat = Some string_ref ∧
    StringRef.data string_ref = Some string_ptr ∧
    StringRef.size string_ref = 1 ∧
    string_ptr = ["a"%byte; x00] ∧
    Z.of_nat (length string_ptr) ≠ StringRef.size string_ref ∧
    string_ptr !! 1%nat = String_data ["a"%byte] !! Z.to_nat (String_size ["a"%byte]).
Proof.
  eexists _, _, _.
  split; [reflexivity |].
  split; [reflexivity |].
  split; [reflexivity |].
  split; [reflexivity |].
  split; [reflexivity |].
  split; [discriminate | reflexivity].
Qed.

(** ** The type check of the getters *)

Section getters.
Context `{Platform}.

Lemma checked_attribute_eq {O} (type : AttributeType.t) attribute_name
    (d : CacheDictionary.t) (out : O) idx attribute :
  CacheDictionary.attribute_index_by_name d !! attribute_name = Some idx →
  CacheDictionary.attributes d !! idx = Some attribute →
  checked_attribute type attribute_name d out =
    if decide (attribute_t.type attribute ≠ type)
    then Throw (type_mismatch attribute_name (attribute_t.type attribute), (d, out))
    else Ok idx.
Proof.
  intros Hidx Hattribute. unfold checked_attribute, getAttributeIndex.
  rewrite Hidx. simpl. rewrite (read_lookup _ _ _ _ Hattribute). done.
Qed.

(** C4. For an attribute of the dictionary and a scalar type [T], the
    batched getter [get T] and the getter of one key pass their type check
    exactly when the type of the attribute is the [LC_TYPE] of [T], and
    then go on to [getItems<T>]; when the types differ they throw
    TYPE_MISMATCH with the dictionary as it was on entry: no lock was
    taken and nothing of its state was written. *)
Theorem C4_getter_type_check (T : scalar) (attribute_name : string) (ids : list Z)
    (out : list (cpp T)) (id : Z) (uninitialised : cpp T)
    (d : CacheDictionary.t) (idx : nat) (attribute : attribute_t.t) :
  CacheDictionary.attribute_index_by_name d !! attribute_name = Some idx →
  CacheDictionary.attributes d !! idx = Some attribute →
  (checked_attribute (LC_TYPE T) attribute_name d out = Ok idx
     ↔ attribute_t.type attribute = LC_TYPE T) ∧
  (attribute_t.type attribute = LC_TYPE T →
     get T attribute_name ids out d = getItems T idx ids out d ∧
     get_individual T attribute_name id uninitialised d =
       ('(d, out) ← rethrow (λ '(e, (d, _)), (e, (d, ()))) (getItems T idx [id] [uninitialised] d);
        front ← read out_index out 0;
        Ok (d, front))) ∧
  (attribute_t.type attribute ≠ LC_TYPE T →
     get T attribute_name ids out d
       = Throw (type_mismatch attribute_name (attribute_t.type attribute), (d, out)) ∧
     get_individual T attribute_name id uninitialised d
       = Throw (type_mismatch attribute_name (attribute_t.type attribute), (d, ())) ∧
     code (type_mismatch attribute_name (attribute_t.type attribute)) = TYPE_MISMATCH).
Proof.
  intros Hidx Hattribute.
  split; [| split].
  - rewrite (checked_attribute_eq _ _ _ _ _ _ Hidx Hattribute).
    case_decide; split; intros; done.
  - intros Htype. unfold get, get_individual.
    rewrite !(checked_attribute_eq _ _ _ _ _ _ Hidx Hattribute).
    rewrite !decide_False by (intros ?; done). done.
  - intros Htype. unfold get, get_individual.
    rewrite !(checked_attribute_eq _ _ _ _ _ _ Hidx Hattribute).
    rewrite !decide_True by done. done.
Qed.

(** The string getter has the same gate. *)
Lemma getString_type_check (attribute_name : string) (ids : list Z) (out : ColumnString.t)
    (d : CacheDictionary.t) (idx : nat) (attribute : attribute_t.t) :
  CacheDictionary.attribute_index_by_name d !! attribute_name = Some idx →
  CacheDictionary.attributes d !! idx = Some attribute →
  getString attribute_name ids out d =
    if decide (attribute_t.type attribute ≠ AttributeType.string)
    then Throw (type_mismatch attribute_name (attribute_t.type attribute), (d, out))
    else getItems_string idx ids out d.
Proof.
  intros Hidx Hattribute. unfold getString.
  rewrite (checked_attribute_eq _ _ _ _ _ _ Hidx Hattribute). by case_decide.
Qed.

(** A name the dictionary does not have is BAD_ARGUMENTS. *)
Lemma get_unknown_attribute (T : scalar) (attribute_name : string) (ids : list Z)
    (out : list (cpp T)) (d : CacheDictionary.t) :
  CacheDictionary.attribute_index_by_name d !! attribute_name = None →
  get T attribute_name ids out d = Throw (no_such_attribute attribute_name, (d, out)).
Proof.
  intros Hidx. unfold get, checked_attribute, getAttributeIndex. by rewrite Hidx.
Qed.
End getters.

(** The attribute [x] of the example dictionary, declared UInt32, read
    as UInt64 and as UInt32. *)
Lemma C4_witness :
  (checked_attribute (H := example_platform) (LC_TYPE UInt64) "x" (example_dictionary []) [0]
     = Ok 0%nat
     ↔ AttributeType.uint32 = LC_TYPE UInt64) ∧
  get (H := example_platform) UInt64 "x" [4] [0] (example_dictionary [])
    = Throw (type_mismatch (H := example_platform) "x" AttributeType.uint32,
             (example_dictionary [], [0])) ∧
  get (H := example_platform) UInt32 "x" [4] [0] (example_dictionary [])
    = getItems (H := example_platform) UInt32 0 [4] [0] (example_dictionary []).
Proof.
  assert (Hidx : CacheDictionary.attribute_index_by_name (H := example_platform)
                   (example_dictionary []) !! "x" = Some 0%nat) by reflexivity.
  assert (Hattribute : CacheDictionary.attributes (H := example_platform)
                         (example_dictionary []) !! 0%nat
                       = Some (createAttributeWithType (H := example_platform) 4
                                 AttributeType.uint32 "0")) by reflexivity.
  split; [| split].
  - apply (C4_getter_type_check (H := example_platform) UInt64 "x" [4] [0] 4 0 _ _ _ Hidx Hattribute).
  - apply (C4_getter_type_check (H := example_platform) UInt64 "x" [4] [0] 4 0 _ _ _ Hidx Hattribute).
    discriminate.
  - apply (C4_getter_type_check (H := example_platform) UInt32 "x" [4] [0] 4 0 _ _ _ Hidx Hattribute).
    reflexivity.
Defined.

(** ** One row of a refresh *)

Lemma no_throw_Ok {E A} (m : outcome Empty_set A) (a : A) :
  no_throw (E := E) m = Ok a ↔ m = Ok a.
Proof. destruct m as [a' | [] | u]; simpl; split; congruence. Qed.

Lemma no_throw_not_Throw {E A} (m : outcome Empty_set A) (e : E) :
  no_throw (E := E) m ≠ Throw e.
Proof. by destruct m as [a' | [] | u]. Qed.

Lemma bind_Throw {E A B} (m : outcome E A) (f : A → outcome E B) (e : E) :
  m ≫= f = Throw e → m = Throw e ∨ ∃ a, m = Ok a ∧ f a = Throw e.
Proof.
  destruct m as [a | e' | u]; intros Hm; cbv [mbind outcome_bind] in Hm;
    [right; eauto | left; congruence | done].
Qed.

Lemma bind_Undefined {E A B} (m : outcome E A) (f : A → outcome E B) u :
  m ≫= f = Undefined u → m = Undefined u ∨ ∃ a, m = Ok a ∧ f a = Undefined u.
Proof.
  destruct m as [a | e' | u']; intros Hm; cbv [mbind outcome_bind] in Hm;
    [right; eauto | done | left; congruence].
Qed.

Lemma read_not_Throw {E A} u (l : list A) (i : nat) (e : E) : read u l i ≠ Throw e.
Proof. unfold read. by destruct (l !! i). Qed.

Lemma store_not_Throw {E A} u (l : list A) (i : nat) (x : A) (e : E) : store u l i x ≠ Throw e.
Proof. unfold store. by case_decide. Qed.

Section refresh.
Context `{Platform}.

Import CacheDictionary.

Lemma arrays_get_set (T : scalar) (x : list (cpp T)) (a : arrays_t.t) :
  arrays_t.get T (arrays_t.set T x a) = x.
Proof. by destruct T. Qed.

Lemma arrays_get_set_ne (T T' : scalar) (x : list (cpp T)) (a : arrays_t.t) :
  T ≠ T' → arrays_t.get T' (arrays_t.set T x a) = arrays_t.get T' a.
Proof. by destruct T, T'. Qed.

Lemma converted_not_Throw {E} (T : scalar) (value : Field) (e : E) :
  converted T value ≠ Throw e.
Proof. by destruct T, value. Qed.

Lemma set_scalar_Ok {E} (T : scalar) attribute idx value attribute' :
  set_scalar (E := E) T attribute idx value = Ok attribute' →
  ∃ x, converted (E := E) T value = Ok x ∧
       (Z.to_nat idx < length (arrays_t.get T (attribute_t.arrays attribute)))%nat ∧
       attribute' = attribute_t.with_arrays
         (arrays_t.set T (<[Z.to_nat idx := x]> (arrays_t.get T (attribute_t.arrays attribute)))
            (attribute_t.arrays attribute)) attribute.
Proof.
  unfold set_scalar. intros Hset.
  apply bind_Ok in Hset as (x & Hx & Hset).
  apply bind_Ok in Hset as (array & Harray & Hset).
  apply store_Ok in Harray as [Hlt ->].
  exists x. by simplify_eq.
Qed.

Lemma setAttributeValue_not_Throw {E} attribute idx value (e : E) :
  setAttributeValue attribute idx value ≠ Throw e.
Proof.
  unfold setAttributeValue, set_scalar, set_string.
  intros Hthrow.
  destruct (attribute_t.type attribute);
    repeat match goal with
      | Hthrow : _ ≫= _ = Throw _ |- _ =>
          apply bind_Throw in Hthrow as [Hthrow | (? & _ & Hthrow)]
      | Hthrow : converted _ _ = Throw _ |- _ => by apply converted_not_Throw in Hthrow
      | Hthrow : store _ _ _ _ = Throw _ |- _ => by apply store_not_Throw in Hthrow
      | Hthrow : read _ _ _ = Throw _ |- _ => by apply read_not_Throw in Hthrow
      end; try done.
  - by destruct value.
  - case_decide; [| done]. by destruct (std_copy _ _ _).
Qed.

(** The assignment leaves the type and the null values of the attribute. *)
Lemma setAttributeValue_type {E} attribute idx value attribute' :
  setAttributeValue (E := E) attribute idx value = Ok attribute' →
  attribute_t.type attribute' = attribute_t.type attribute ∧
  attribute_t.null_values attribute' = attribute_t.null_values attribute.
Proof.
  unfold setAttributeValue. intros Hset.
  destruct (attribute_t.type attribute) eqn:Htype;
    try (apply set_scalar_Ok in Hset as (x & _ & _ & ->); by simpl).
  unfold set_string in Hset.
  apply bind_Ok in Hset as (string & _ & Hset).
  apply bind_Ok in Hset as (old & _ & Hset).
  apply bind_Ok in Hset as (string_ref & _ & Hset).
  apply bind_Ok in Hset as (array & _ & Hset).
  by simplify_eq.
Qed.

(** For a scalar attribute the slot then holds the converted field. *)
Lemma setAttributeValue_scalar {E} (T : scalar) attribute idx value attribute' :
  attribute_t.type attribute = LC_TYPE T →
  setAttributeValue (E := E) attribute idx value = Ok attribute' →
  ∃ x, converted (E := E) T value = Ok x ∧
       arrays_t.get T (attribute_t.arrays attribute') !! Z.to_nat idx = Some x.
Proof.
  intros Htype Hset. unfold setAttributeValue in Hset. rewrite Htype in Hset.
  destruct T; simpl in Hset;
    apply set_scalar_Ok in Hset as (x & Hx & Hlt & ->);
    exists x; (split; [done |]); simpl;
    by apply list_lookup_insert_eq.
Qed.

Lemma setAttributeValues_not_Throw {E} block i cell_idx attribute_idx attributes (e : E) :
  setAttributeValues block i cell_idx attribute_idx attributes ≠ Throw e.
Proof.
  revert attribute_idx. induction attributes as [| attribute rest IH]; intros attribute_idx; [done |].
  simpl. intros Hthrow.
  apply bind_Throw in Hthrow as [Hthrow | (? & _ & Hthrow)]; [by apply read_not_Throw in Hthrow |].
  apply bind_Throw in Hthrow as [Hthrow | (? & _ & Hthrow)]; [by apply read_not_Throw in Hthrow |].
  apply bind_Throw in Hthrow as [Hthrow | (? & _ & Hthrow)];
    [by apply setAttributeValue_not_Throw in Hthrow |].
  apply bind_Throw in Hthrow as [Hthrow | (? & _ & Hthrow)]; [by apply IH in Hthrow | done].
Qed.

(** The loop over the attributes assigns to each the field of its column. *)
Lemma setAttributeValues_lookup {E} block i cell_idx attribute_idx attributes attributes' :
  setAttributeValues (E := E) block i cell_idx attribute_idx attributes = Ok attributes' →
  length attributes' = length attributes ∧
  ∀ n attribute, attributes !! n = Some attribute →
    ∃ value attribute',
      row_field (attribute_idx + n) block i = Some value ∧
      setAttributeValue (E := E) attribute cell_idx value = Ok attribute' ∧
      attributes' !! n = Some attribute'.
Proof.
  revert attribute_idx attributes'.
  induction attributes as [| attribute rest IH]; intros attribute_idx attributes' Hset.
  { simpl in Hset. simplify_eq. split; [done |]. intros n a Hn. by rewrite lookup_nil in Hn. }
  simpl in Hset.
  apply bind_Ok in Hset as (attribute_column & Hcolumn & Hset).
  apply bind_Ok in Hset as (value & Hvalue & Hset).
  apply bind_Ok in Hset as (attribute' & Hattribute' & Hset).
  apply bind_Ok in Hset as (rest' & Hrest' & Hset).
  simplify_eq. apply IH in Hrest' as [Hlen Hrest'].
  apply read_Ok in Hcolumn, Hvalue.
  split; [simpl; lia |].
  intros [| n] a Hn; simpl in Hn; simplify_eq.
  - exists value, attribute'. rewrite Nat.add_0_r.
    split; [| done]. unfold row_field. rewrite Hcolumn. simpl. done.
  - destruct (Hrest' n a Hn) as (value' & a' & Hfield & Ha' & Hlookup).
    exists value', a'. by replace (attribute_idx + S n)%nat with (S attribute_idx + n)%nat by lia.
Qed.

(** What a row of a refresh does when it returns. *)
Lemma update_row_Ok {X} (on_cell_updated : Z → Z → t → X → outcome Empty_set X)
    block i id d x s' :
  update_row on_cell_updated block i id (d, x) = Ok s' →
  ∃ old attributes' x',
    cells d !! Z.to_nat (getCellIdx d id) = Some old ∧
    setAttributeValues (E := thrown X) block i (getCellIdx d id) 0 (attributes d) = Ok attributes' ∧
    let drawn := uniform_int_distribution
                   (DictionaryLifetime.min_sec (dict_lifetime d))
                   (DictionaryLifetime.max_sec (dict_lifetime d)) (rnd_engine d) in
    let cell := {| cell_metadata_t.id := id;
                   cell_metadata_t.expires_at :=
                     system_clock_now (clock_reads d) + seconds drawn.1 |} in
    let d' := read_clock (installed attributes'
                            (<[Z.to_nat (getCellIdx d id) := cell]> (cells d)) drawn.2 d) in
    on_cell_updated id (getCellIdx d id) d' x = Ok x' ∧ s' = (d', x').
Proof.
  unfold update_row. intros Hrow.
  apply bind_Ok in Hrow as (old & Hold & Hrow). apply read_Ok in Hold.
  apply bind_Ok in Hrow as (attributes' & Hattributes' & Hrow).
  destruct (uniform_int_distribution _ _ _) as [drawn rnd_engine'] eqn:Hdrawn.
  apply bind_Ok in Hrow as (x' & Hx' & Hrow). apply no_throw_Ok in Hx'.
  exists old, attributes', x'. simpl. by simplify_eq.
Qed.

Lemma update_row_not_Throw {X} (on_cell_updated : Z → Z → t → X → outcome Empty_set X)
    block i id s e :
  update_row on_cell_updated block i id s ≠ Throw e.
Proof.
  destruct s as [d x]. unfold update_row. intros Hthrow.
  apply bind_Throw in Hthrow as [Hthrow | (? & _ & Hthrow)]; [by apply read_not_Throw in Hthrow |].
  apply bind_Throw in Hthrow as [Hthrow | (? & _ & Hthrow)];
    [by apply setAttributeValues_not_Throw in Hthrow |].
  destruct (uniform_int_distribution _ _ _) as [drawn rnd_engine'].
  apply bind_Throw in Hthrow as [Hthrow | (? & _ & Hthrow)]; [| done].
  by apply no_throw_not_Throw in Hthrow.
Qed.

(** ** Invariants of a refresh *)

(** A property that every row keeps holds of the state a refresh ends in. *)
Lemma update_rows_ends_in {X} (on_cell_updated : Z → Z → t → X → outcome Empty_set X)
    (P : t * X → Prop) block :
  (∀ i id s s', P s → update_row on_cell_updated block i id s = Ok s' → P s') →
  ∀ ids i s, P s → ends_in P (λ _, True) (update_rows on_cell_updated block i ids s).
Proof.
  intros Hstep ids. induction ids as [| id ids IH]; intros i s HP; [done |].
  simpl. destruct (update_row on_cell_updated block i id s) as [s' | e | u] eqn:Hrow; simpl.
  - apply IH. by eapply Hstep.
  - by apply update_row_not_Throw in Hrow.
  - done.
Qed.

Lemma update_blocks_ends_in {X} (on_cell_updated : Z → Z → t → X → outcome Empty_set X)
    (P : t * X → Prop) :
  (∀ block i id s s', P s → update_row on_cell_updated block i id s = Ok s' → P s') →
  ∀ stream s, P s → ends_in P (λ _, True) (update_blocks on_cell_updated stream s).
Proof.
  intros Hstep stream. induction stream as [| block stream IH]; intros s HP; [done |].
  simpl. destruct (Block.id_column block) as [ids |]; [| done].
  pose proof (update_rows_ends_in on_cell_updated P block (Hstep block) ids 0%nat s HP) as Hrows.
  destruct (update_rows on_cell_updated block 0 ids s) as [s' | [e s'] | u]; simpl in *.
  - by apply IH.
  - done.
  - done.
Qed.
End refresh.

Lemma ends_in_mono {X S} (P Q : S → Prop) (U V : undefined_behaviour → Prop)
    (m : outcome (X * S) S) :
  (∀ s, P s → Q s) → (∀ u, U u → V u) → ends_in P U m → ends_in Q V m.
Proof. intros HPQ HUV. destruct m as [s | [e s] | u]; simpl; auto. Qed.

(** ** The expiry a refresh gives a cell *)

Section expiry.
Context `{Platform}.

Import CacheDictionary.

End expiry.



(** ** The first loop of the scalar lookup and the bounds of [out] *)

Lemma read_Undefined {E A} u (l : list A) (i : nat) u' :
  read (E := E) u l i = Undefined u' → u' = u ∧ l !! i = None.
Proof. unfold read. destruct (l !! i); [done |]. by intros [= <-]. Qed.

Lemma store_Undefined {E A} u (l : list A) (i : nat) (x : A) u' :
  store (E := E) u l i x = Undefined u' → u' = u ∧ (length l ≤ i)%nat.
Proof. unfold store. case_decide; [done |]. intros [= <-]. split; [done | lia]. Qed.

Lemma positions_insert (outdated_ids : gmap Z (list nat)) (id k : Z) (l : list nat) :
  positions (<[id := l]> outdated_ids) k
  = if decide (k = id) then l else positions outdated_ids k.
Proof.
  unfold positions. case_decide as Hk.
  - subst. by rewrite lookup_insert_eq.
  - by rewrite lookup_insert_ne.
Qed.

Lemma positions_push_back (outdated_ids : gmap Z (list nat)) (id k : Z) (i : nat) :
  positions (push_back_outdated id i outdated_ids) k
  = if decide (k = id) then positions outdated_ids id ++ [i] else positions outdated_ids k.
Proof. apply positions_insert. Qed.

Lemma positions_empty (k : Z) : positions ∅ k = [].
Proof. unfold positions. by rewrite lookup_empty. Qed.

(** Reading [outdated_ids[id]] adds at most an empty entry. *)
Lemma positions_touch (outdated_ids : gmap Z (list nat)) (id k : Z) :
  positions (<[id := positions outdated_ids id]> outdated_ids) k = positions outdated_ids k.
Proof. rewrite positions_insert. case_decide; by subst. Qed.

Lemma set_missing_Ok {E A} (out out' : list A) (out_idxs : list nat) (x : A) :
  set_missing (E := E) out out_idxs x = Ok out' →
  length out' = length out ∧
  (∀ j, j ∈ out_idxs → (j < length out)%nat) ∧
  ∀ j, out' !! j = if decide (j ∈ out_idxs) then Some x else out !! j.
Proof.
  revert out. induction out_idxs as [| out_idx rest IH]; intros out Hset; simpl in Hset.
  { simplify_eq. split; [done |]. split; [by intros j ?%elem_of_nil |].
    intros j. rewrite decide_False; [done | by intros ?%elem_of_nil]. }
  apply bind_Ok in Hset as (out1 & Hstore & Hset).
  apply store_Ok in Hstore as [Hlt ->].
  apply IH in Hset as (Hlen & Hin & Hlookup). rewrite length_insert in Hlen, Hin.
  split; [done |]. split.
  - intros j [-> | Hj]%elem_of_cons; [done | by apply Hin].
  - intros j. rewrite Hlookup.
    destruct (decide (j ∈ rest)) as [Hj | Hj].
    + rewrite decide_True; [done | by right].
    + destruct (decide (j = out_idx)) as [-> | Hne].
      * rewrite decide_True by left. by apply list_lookup_insert_eq.
      * rewrite decide_False by (intros [? | ?]%elem_of_cons; done).
        by apply list_lookup_insert_ne.
Qed.

Lemma set_missing_in_bounds {E A} (out : list A) (out_idxs : list nat) (x : A) :
  (∀ j, j ∈ out_idxs → (j < length out)%nat) →
  ∃ out', set_missing (E := E) out out_idxs x = Ok out'.
Proof.
  revert out. induction out_idxs as [| out_idx rest IH]; intros out Hin; simpl; [eauto |].
  rewrite store_lt by (apply Hin; left). simpl.
  apply IH. intros j Hj. rewrite length_insert. apply Hin. by right.
Qed.

Section scalar_bounds.
Context `{Platform}.

Import CacheDictionary.

Lemma noted_inside_insert {A} (out : list A) (i : nat) (x : A) outdated_ids :
  noted_inside out outdated_ids → noted_inside (<[i:=x]> out) outdated_ids.
Proof. intros Hnoted k j Hj. rewrite length_insert. by eapply Hnoted. Qed.

Lemma cell_outdated_reads cell id d outdated d' :
  cell_outdated cell id d = (outdated, d') →
  cells d' = cells d ∧ attributes d' = attributes d ∧ size d' = size d ∧
  source_ptr d' = source_ptr d ∧ dict_lifetime d' = dict_lifetime d ∧
  (clock_reads d ≤ clock_reads d' ≤ S (clock_reads d))%nat.
Proof.
  unfold cell_outdated, hasTimeExpired. case_decide; intros [= <- <-]; simpl; repeat split; lia.
Qed.

(** One position of the first loop, when [out] reaches it. *)
Lemma fetch_row_inside {E} (T : scalar) attribute i id d out outdated_ids :
  (i < length out)%nat → noted_inside out outdated_ids →
  match fetch_row (E := E) T attribute i id (d, out, outdated_ids) with
  | Ok (d', out', outdated_ids') =>
      length out' = length out ∧ noted_inside out' outdated_ids'
  | Throw _ => False
  | Undefined u => u ≠ out_index
  end.
Proof.
  intros Hi Hnoted. unfold fetch_row.
  case_decide.
  { rewrite store_lt by done. simpl. rewrite length_insert.
    split; [done | by apply noted_inside_insert]. }
  destruct (read cell_index (cells d) _) as [cell | e | u] eqn:Hcell; simpl.
  - destruct (cell_outdated cell id d) as [[] d'].
    + rewrite store_lt by done. simpl. rewrite length_insert. split; [done |].
      intros k j. rewrite length_insert, positions_push_back.
      case_decide; [| by apply Hnoted].
      intros [Hj | ->%list_elem_of_singleton]%elem_of_app; [by eapply Hnoted | done].
    + destruct (read array_index _ _) as [x | e | u] eqn:Hx; simpl.
      * rewrite store_lt by done. simpl. rewrite length_insert.
        split; [done | by apply noted_inside_insert].
      * by apply read_not_Throw in Hx.
      * by apply read_Undefined in Hx as [-> _].
  - by apply read_not_Throw in Hcell.
  - by apply read_Undefined in Hcell as [-> _].
Qed.

(** One position of the first loop, past the end of [out]. *)
Lemma fetch_row_outside {E} (T : scalar) attribute i id d out outdated_ids :
  (length out ≤ i)%nat →
  ∃ u, fetch_row (E := E) T attribute i id (d, out, outdated_ids) = Undefined u.
Proof.
  intros Hi. unfold fetch_row, store.
  case_decide.
  { rewrite decide_False by lia. simpl. eauto. }
  destruct (read cell_index (cells d) _) as [cell | e | u] eqn:Hcell; simpl; [| | eauto].
  - destruct (cell_outdated cell id d) as [[] d'].
    + rewrite decide_False by lia. simpl. eauto.
    + destruct (read array_index _ _) as [x | e | u] eqn:Hx; simpl; [| | eauto].
      * rewrite decide_False by lia. simpl. eauto.
      * by apply read_not_Throw in Hx.
  - by apply read_not_Throw in Hcell.
Qed.

Lemma fetch_rows_inside {E} (T : scalar) attribute ids i d out outdated_ids :
  (i + length ids ≤ length out)%nat → noted_inside out outdated_ids →
  match fetch_rows (E := E) T attribute i ids (d, out, outdated_ids) with
  | Ok (d', out', outdated_ids') =>
      length out' = length out ∧ noted_inside out' outdated_ids'
  | Throw _ => False
  | Undefined u => u ≠ out_index
  end.
Proof.
  revert i d out outdated_ids.
  induction ids as [| id ids IH]; intros i d out outdated_ids Hi Hnoted; simpl in *; [done |].
  pose proof (fetch_row_inside (E := E) T attribute i id d out outdated_ids
                ltac:(lia) Hnoted) as Hrow.
  destruct (fetch_row T attribute i id (d, out, outdated_ids))
    as [[[d1 out1] outdated1] | e | u]; simpl in *; [| done | done].
  destruct Hrow as [Hlen Hnoted1].
  specialize (IH (S i) d1 out1 outdated1 ltac:(lia) Hnoted1).
  destruct (fetch_rows T attribute (S i) ids (d1, out1, outdated1))
    as [[[d2 out2] outdated2] | e | u]; simpl in *; [| done | done].
  destruct IH as [Hlen2 Hnoted2]. split; [congruence | done].
Qed.

Lemma fetch_rows_outside {E} (T : scalar) attribute ids i d out outdated_ids :
  (i ≤ length out < i + length ids)%nat → noted_inside out outdated_ids →
  ∃ u, fetch_rows (E := E) T attribute i ids (d, out, outdated_ids) = Undefined u.
Proof.
  revert i d out outdated_ids.
  induction ids as [| id ids IH]; intros i d out outdated_ids Hi Hnoted; simpl in *; [lia |].
  destruct (decide (i < length out)%nat) as [Hlt | Hge].
  - pose proof (fetch_row_inside (E := E) T attribute i id d out outdated_ids Hlt Hnoted) as Hrow.
    destruct (fetch_row T attribute i id (d, out, outdated_ids))
      as [[[d1 out1] outdated1] | e | u]; simpl in *; [| done | eauto].
    destruct Hrow as [Hlen Hnoted1]. apply IH; [lia | done].
  - destruct (fetch_row_outside (E := E) T attribute i id d out outdated_ids) as [u ->]; [lia |].
    simpl. eauto.
Qed.
End scalar_bounds.

(** ** The refresh of the scalar lookup and the bounds of [out] *)

Section refresh_bounds.
Context `{Platform}.

Import CacheDictionary.

Lemma update_rows_ends_in_U {X} (on_cell_updated : Z → Z → t → X → outcome Empty_set X)
    (P : t * X → Prop) (U : undefined_behaviour → Prop) block :
  (∀ i id s, P s → ends_in P U (update_row on_cell_updated block i id s)) →
  ∀ ids i s, P s → ends_in P U (update_rows on_cell_updated block i ids s).
Proof.
  intros Hstep ids. induction ids as [| id ids IH]; intros i s HP; [done |].
  simpl. specialize (Hstep i id s HP).
  destruct (update_row on_cell_updated block i id s) as [s' | [e s'] | u] eqn:Hrow; simpl in *.
  - by apply IH.
  - done.
  - done.
Qed.

Lemma update_blocks_ends_in_U {X} (on_cell_updated : Z → Z → t → X → outcome Empty_set X)
    (P : t * X → Prop) (U : undefined_behaviour → Prop) :
  (∀ block i id s, P s → ends_in P U (update_row on_cell_updated block i id s)) →
  ∀ stream s, P s → ends_in P U (update_blocks on_cell_updated stream s).
Proof.
  intros Hstep stream. induction stream as [| block stream IH]; intros s HP; [done |].
  simpl. destruct (Block.id_column block) as [ids |]; [| done].
  pose proof (update_rows_ends_in_U on_cell_updated P U block (Hstep block) ids 0%nat s HP) as Hrows.
  destruct (update_rows on_cell_updated block 0 ids s) as [s' | [e s'] | u]; simpl in *.
  - by apply IH.
  - done.
  - done.
Qed.

Lemma converted_Undefined {E} (T : scalar) (value : Field) u :
  converted (E := E) T value = Undefined u → u = field_type.
Proof. destruct T, value; simpl; congruence. Qed.

Lemma setAttributeValue_Undefined {E} attribute idx value u :
  setAttributeValue (E := E) attribute idx value = Undefined u → u ≠ out_index.
Proof.
  unfold setAttributeValue, set_scalar, set_string.
  intros Hu.
  destruct (attribute_t.type attribute);
    repeat match goal with
      | Hu : _ ≫= _ = Undefined _ |- _ =>
          apply bind_Undefined in Hu as [Hu | (? & _ & Hu)]
      | Hu : converted _ _ = Undefined _ |- _ => by apply converted_Undefined in Hu as ->
      | Hu : store _ _ _ _ = Undefined _ |- _ => by apply store_Undefined in Hu as [-> _]
      | Hu : read _ _ _ = Undefined _ |- _ => by apply read_Undefined in Hu as [-> _]
      end; try done.
  - destruct value; simpl in Hu; by simplify_eq.
  - case_decide; [| done]. destruct (std_copy _ _ _); by simplify_eq.
Qed.

Lemma setAttributeValues_Undefined {E} block i cell_idx attribute_idx attributes u :
  setAttributeValues (E := E) block i cell_idx attribute_idx attributes = Undefined u →
  u ≠ out_index.
Proof.
  revert attribute_idx. induction attributes as [| attribute rest IH]; intros attribute_idx; [done |].
  simpl. intros Hu.
  apply bind_Undefined in Hu as [Hu | (? & _ & Hu)]; [by apply read_Undefined in Hu as [-> _] |].
  apply bind_Undefined in Hu as [Hu | (? & _ & Hu)]; [by apply read_Undefined in Hu as [-> _] |].
  apply bind_Undefined in Hu as [Hu | (? & _ & Hu)];
    [by apply setAttributeValue_Undefined in Hu |].
  apply bind_Undefined in Hu as [Hu | (? & _ & Hu)]; [by apply IH in Hu | done].
Qed.

(** Where a row of a refresh can run into undefined behaviour. *)
Lemma update_row_Undefined {X} (on_cell_updated : Z → Z → t → X → outcome Empty_set X)
    block i id d x u :
  update_row on_cell_updated block i id (d, x) = Undefined u →
  u ≠ out_index ∨ ∃ d', on_cell_updated id (getCellIdx d id) d' x = Undefined u.
Proof.
  unfold update_row. intros Hu.
  apply bind_Undefined in Hu as [Hu | (? & _ & Hu)];
    [left; by apply read_Undefined in Hu as [-> _] |].
  apply bind_Undefined in Hu as [Hu | (? & _ & Hu)];
    [left; by apply setAttributeValues_Undefined in Hu |].
  destruct (uniform_int_distribution _ _ _) as [drawn rnd_engine'].
  apply bind_Undefined in Hu as [Hu | (? & _ & Hu)]; [| done].
  right.
  match type of Hu with
  | context [on_cell_updated _ _ ?d' _] =>
      exists d'; destruct (on_cell_updated id (getCellIdx d id) d' x) as [? | [] | u'] eqn:Hcb
  end; simpl in Hu; [done | congruence].
Qed.

Lemma on_scalar_updated_Ok (T : scalar) attribute_idx id cell_idx d out outdated_ids x' :
  on_scalar_updated T attribute_idx id cell_idx d (out, outdated_ids) = Ok x' →
  ∃ attribute attribute_value out',
    attributes d !! attribute_idx = Some attribute ∧
    arrays_t.get T (attribute_t.arrays attribute) !! Z.to_nat cell_idx = Some attribute_value ∧
    set_missing (E := Empty_set) out (positions outdated_ids id) attribute_value = Ok out' ∧
    x' = (out', <[id := positions outdated_ids id]> outdated_ids).
Proof.
  unfold on_scalar_updated. intros Hcb.
  apply bind_Ok in Hcb as (attribute & Hattribute & Hcb). apply read_Ok in Hattribute.
  apply bind_Ok in Hcb as (attribute_value & Hvalue & Hcb). apply read_Ok in Hvalue.
  apply bind_Ok in Hcb as (out' & Hout' & Hcb).
  exists attribute, attribute_value, out'. by simplify_eq.
Qed.

Lemma on_scalar_updated_Undefined (T : scalar) attribute_idx id cell_idx d out outdated_ids u :
  noted_inside out outdated_ids →
  on_scalar_updated T attribute_idx id cell_idx d (out, outdated_ids) = Undefined u →
  u ≠ out_index.
Proof.
  unfold on_scalar_updated. intros Hnoted Hu.
  apply bind_Undefined in Hu as [Hu | (? & _ & Hu)]; [by apply read_Undefined in Hu as [-> _] |].
  apply bind_Undefined in Hu as [Hu | (v & _ & Hu)]; [by apply read_Undefined in Hu as [-> _] |].
  destruct (set_missing_in_bounds (E := Empty_set) out (positions outdated_ids id) v) as [out' Hout'].
  { intros j Hj. by eapply Hnoted. }
  rewrite Hout' in Hu. done.
Qed.

(** The refresh of the scalar lookup keeps the length of [out] and writes
    inside it. *)
Lemma update_scalar_inside (T : scalar) attribute_idx required_ids d out outdated_ids :
  noted_inside out outdated_ids →
  ends_in (λ '(_, (out', outdated_ids')),
             length out' = length out ∧ noted_inside out' outdated_ids')
    (λ u, u ≠ out_index)
    (update required_ids (on_scalar_updated T attribute_idx) (d, (out, outdated_ids))).
Proof.
  intros Hnoted. unfold update.
  apply (update_blocks_ends_in_U (on_scalar_updated T attribute_idx)
           (λ '(_, (out', outdated_ids')),
              length out' = length out ∧ noted_inside out' outdated_ids')); [| done].
  intros block i id [d1 [out1 outdated1]] [Hlen Hnoted1].
  destruct (update_row _ block i id _) as [[d2 [out2 outdated2]] | e | u] eqn:Hrow; simpl.
  - apply update_row_Ok in Hrow as (old & attributes' & x' & _ & _ & Hcb & Heq). simpl in Hcb.
    apply on_scalar_updated_Ok in Hcb as (attribute & v & out' & _ & _ & Hset & ->).
    simplify_eq. apply set_missing_Ok in Hset as (Hlen' & _ & _).
    split; [congruence |].
    intros k j. rewrite positions_touch, Hlen'. apply Hnoted1.
  - by apply update_row_not_Throw in Hrow.
  - apply update_row_Undefined in Hrow as [? | [d' Hcb]]; [done |].
    by eapply on_scalar_updated_Undefined.
Qed.

(** C9. [getItems<T>] writes [out] by plain indexing. When [out] has at
    least as many elements as [ids], every index it writes is inside
    [out], and in whatever state the call ends [out] has the length it
    had; when [out] is shorter than [ids], the call runs into undefined
    behaviour: it never grows [out]. *)
Theorem C9_getItems_out_in_bounds (T : scalar) (attribute_idx : nat) (ids : list Z)
    (out : list (cpp T)) (d : t) :
  ((length ids ≤ length out)%nat →
     ends_in (λ '(_, out'), length out' = length out) (λ u, u ≠ out_index)
       (getItems T attribute_idx ids out d)) ∧
  ((length out < length ids)%nat →
     ∃ u, getItems T attribute_idx ids out d = Undefined u).
Proof.
  split.
  - intros Hlen. unfold getItems.
    destruct (read attribute_index (attributes d) attribute_idx) as [attribute | e | u] eqn:Hattribute;
      simpl; [| by apply read_not_Throw in Hattribute | by apply read_Undefined in Hattribute as [-> _]].
    pose proof (fetch_rows_inside (E := thrown (list (cpp T))) T attribute ids 0
                  (lock ScopedReadRWLock d) out ∅) as Hfetch.
    destruct (fetch_rows T attribute 0 ids _) as [[[d1 out1] outdated1] | e | u]; simpl in *.
    + destruct Hfetch as [Hlen1 Hnoted1]; [lia | |].
      { intros k j. rewrite positions_empty. by intros ?%elem_of_nil. }
      case_decide; [exact Hlen1 |].
      pose proof (update_scalar_inside T attribute_idx (keys outdated1) d1 out1 outdated1 Hnoted1)
        as Hupdate.
      destruct (update _ _ _) as [[d2 [out2 outdated2]] | [e [d2 [out2 outdated2]]] | u];
        simpl in *; [| | done].
      * destruct Hupdate as [Hlen2 _]. congruence.
      * destruct Hupdate as [Hlen2 _]. congruence.
    + destruct Hfetch; [lia |]. intros k j. rewrite positions_empty. by intros ?%elem_of_nil.
    + apply Hfetch; [lia |]. intros k j. rewrite positions_empty. by intros ?%elem_of_nil.
  - intros Hlen. unfold getItems.
    destruct (read attribute_index (attributes d) attribute_idx) as [attribute | e | u] eqn:Hattribute;
      cbv [mbind outcome_bind]; [| by apply read_not_Throw in Hattribute | eauto].
    match goal with
    | |- context [@fetch_rows _ ?E T attribute 0%nat ids ?s] =>
        destruct (fetch_rows_outside (E := E) T attribute ids 0
                    (lock ScopedReadRWLock d) out ∅) as [u ->]; [lia | | eauto]
    end.
    intros k j. rewrite positions_empty. by intros ?%elem_of_nil.
Qed.
End refresh_bounds.

(** The example dictionary read at three keys into three elements, and
    into two. *)
Lemma C9_witness :
  ends_in (λ '(_, out'), length out' = 3%nat) (λ u, u ≠ out_index)
    (getItems (H := example_platform) UInt32 0 [4; 5; 4] [0; 0; 0] (example_dictionary [])) ∧
  ∃ u, getItems (H := example_platform) UInt32 0 [4; 5; 4] [0; 0] (example_dictionary [])
       = Undefined u.
Proof.
  split.
  - apply (C9_getItems_out_in_bounds (H := example_platform) UInt32 0 [4; 5; 4] [0; 0; 0]
             (example_dictionary [])).
    simpl. lia.
  - apply (C9_getItems_out_in_bounds (H := example_platform) UInt32 0 [4; 5; 4] [0; 0]
             (example_dictionary [])).
    simpl. lia.
Defined.

(** ** What a refresh does to the output of the scalar lookup *)

Section scalar_refresh.
Context `{Platform}.

Import CacheDictionary.

Lemma converted_any {E E'} (T : scalar) (value : Field) (x : cpp T) :
  converted (E := E) T value = Ok x → converted (E := E') T value = Ok x.
Proof. destruct T, value; simpl; congruence. Qed.

(** A row of the refresh, seen from the scalar lookup: the value of the
    row goes to the positions noted for its key. *)
Lemma update_row_scalar (T : scalar) attribute_idx block i id d out outdated_ids d' out' outdated_ids'
    attribute :
  attributes d !! attribute_idx = Some attribute →
  attribute_t.type attribute = LC_TYPE T →
  update_row (on_scalar_updated T attribute_idx) block i id (d, (out, outdated_ids))
    = Ok (d', (out', outdated_ids')) →
  ∃ x attribute',
    row_value T attribute_idx block i = Some x ∧
    attributes d' !! attribute_idx = Some attribute' ∧
    attribute_t.type attribute' = LC_TYPE T ∧
    (∀ k, positions outdated_ids' k = positions outdated_ids k) ∧
    length out' = length out ∧
    ∀ j, out' !! j = if decide (j ∈ positions outdated_ids id) then Some x else out !! j.
Proof.
  intros Hattribute Htype Hrow.
  apply update_row_Ok in Hrow as (old & attributes' & x' & _ & Hset & Hcb & Heq).
  simpl in Hcb.
  apply on_scalar_updated_Ok in Hcb as (attribute1 & x & out1 & Hattribute1 & Hx & Hout1 & ->).
  simplify_eq. simpl in Hattribute1.
  apply setAttributeValues_lookup in Hset as [_ Hset].
  destruct (Hset _ _ Hattribute) as (value & attribute' & Hfield & Hvalue & Hattribute').
  simpl in Hfield. simplify_eq.
  destruct (setAttributeValue_type _ _ _ _ Hvalue) as [Htype' _].
  destruct (setAttributeValue_scalar T _ _ _ _ Htype Hvalue) as (x1 & Hconverted & Hx1).
  simplify_eq.
  apply set_missing_Ok in Hout1 as (Hlen & _ & Hlookup).
  exists x, attribute1.
  split.
  { unfold row_value. rewrite Hfield. simpl.
    by rewrite (converted_any (E' := ()) _ _ _ Hconverted). }
  split; [done |]. split; [congruence |].
  split; [intros k; apply positions_touch |]. done.
Qed.

Lemma update_rows_scalar (T : scalar) attribute_idx block ids :
  ∀ i d out outdated_ids d' out' outdated_ids' attribute,
  attributes d !! attribute_idx = Some attribute →
  attribute_t.type attribute = LC_TYPE T →
  noted_once outdated_ids →
  update_rows (on_scalar_updated T attribute_idx) block i ids (d, (out, outdated_ids))
    = Ok (d', (out', outdated_ids')) →
  (∃ attribute', attributes d' !! attribute_idx = Some attribute' ∧
                 attribute_t.type attribute' = LC_TYPE T) ∧
  (∀ k, positions outdated_ids' k = positions outdated_ids k) ∧
  length out' = length out ∧
  (∀ k j, j ∈ positions outdated_ids k →
     out' !! j = match last_row_in (row_value T attribute_idx block) i ids k with
                 | Some x => Some x
                 | None => out !! j
                 end) ∧
  (∀ j, (∀ k, j ∉ positions outdated_ids k) → out' !! j = out !! j).
Proof.
  induction ids as [| id ids IH];
    intros i d out outdated_ids d' out' outdated_ids' attribute Hattribute Htype Honce Hrows.
  { simpl in Hrows. simplify_eq. eauto 10. }
  simpl in Hrows.
  apply bind_Ok in Hrows as ([d1 [out1 outdated1]] & Hrow & Hrows).
  destruct (update_row_scalar T _ _ _ _ _ _ _ _ _ _ _ Hattribute Htype Hrow)
    as (x & attribute1 & Hx & Hattribute1 & Htype1 & Hpositions1 & Hlen1 & Hout1).
  assert (Honce1 : noted_once outdated1).
  { intros k k' j. rewrite !Hpositions1. apply Honce. }
  destruct (IH _ _ _ _ _ _ _ _ Hattribute1 Htype1 Honce1 Hrows)
    as (Hattribute' & Hpositions' & Hlen' & Hnoted & Hother).
  split; [done |].
  split; [intros k; by rewrite Hpositions', Hpositions1 |].
  split; [congruence |].
  split.
  - intros k j Hj. rewrite (Hnoted k j) by (by rewrite Hpositions1).
    simpl. destruct (last_row_in _ (S i) ids k) as [y |]; [done |].
    rewrite Hout1. destruct (decide (id = k)) as [-> | Hid].
    + rewrite decide_True by done. by rewrite Hx.
    + rewrite decide_False; [done |]. intros Hj'. apply Hid. by eapply Honce.
  - intros j Hj. rewrite Hother by (intros k; rewrite Hpositions1; apply Hj).
    rewrite Hout1. by rewrite decide_False by apply Hj.
Qed.

Lemma update_blocks_scalar (T : scalar) attribute_idx stream :
  ∀ d out outdated_ids d' out' outdated_ids' attribute,
  attributes d !! attribute_idx = Some attribute →
  attribute_t.type attribute = LC_TYPE T →
  noted_once outdated_ids →
  update_blocks (on_scalar_updated T attribute_idx) stream (d, (out, outdated_ids))
    = Ok (d', (out', outdated_ids')) →
  length out' = length out ∧
  (∀ k j, j ∈ positions outdated_ids k →
     out' !! j = match last_row (row_value T attribute_idx) stream k with
                 | Some x => Some x
                 | None => out !! j
                 end) ∧
  (∀ j, (∀ k, j ∉ positions outdated_ids k) → out' !! j = out !! j).
Proof.
  induction stream as [| block stream IH];
    intros d out outdated_ids d' out' outdated_ids' attribute Hattribute Htype Honce Hblocks.
  { simpl in Hblocks. by simplify_eq. }
  simpl in Hblocks. destruct (Block.id_column block) as [ids |] eqn:Hids; [| done].
  apply bind_Ok in Hblocks as ([d1 [out1 outdated1]] & Hrows & Hblocks).
  destruct (update_rows_scalar T _ _ _ _ _ _ _ _ _ _ _ Hattribute Htype Honce Hrows)
    as ((attribute1 & Hattribute1 & Htype1) & Hpositions1 & Hlen1 & Hnoted1 & Hother1).
  assert (Honce1 : noted_once outdated1).
  { intros k k' j. rewrite !Hpositions1. apply Honce. }
  destruct (IH _ _ _ _ _ _ _ Hattribute1 Htype1 Honce1 Hblocks) as (Hlen' & Hnoted & Hother).
  split; [congruence |]. split.
  - intros k j Hj. rewrite (Hnoted k j) by (by rewrite Hpositions1).
    simpl. destruct (last_row _ stream k) as [y |]; [done |].
    rewrite Hids. by apply Hnoted1.
  - intros j Hj. rewrite Hother by (intros k; rewrite Hpositions1; apply Hj).
    by apply Hother1.
Qed.
End scalar_refresh.

(** ** The first loop of the scalar lookup *)

Section scalar_fetch.
Context `{Platform}.

Import CacheDictionary.

Lemma same_contents_refl d : same_contents d d.
Proof. by repeat split. Qed.

Lemma same_contents_trans d d' d'' :
  same_contents d d' → same_contents d' d'' → same_contents d d''.
Proof. unfold same_contents. intros (? & ? & ? & ? & ? & ?) (? & ? & ? & ? & ? & ?). repeat split; congruence. Qed.

Lemma same_contents_lock e d : same_contents d (lock e d).
Proof. by repeat split. Qed.

Lemma getCellIdx_same d d' id : same_contents d d' → getCellIdx d' id = getCellIdx d id.
Proof. intros (_ & _ & Hsize & _). unfold getCellIdx. by rewrite Hsize. Qed.

Lemma up_to_date_same d d' n id : same_contents d d' → up_to_date d' n id = up_to_date d n id.
Proof.
  intros Hsame. unfold up_to_date. rewrite (getCellIdx_same _ _ _ Hsame).
  destruct Hsame as (-> & _). done.
Qed.

(** The test of a cell is the negation of [up_to_date] at the reading it
    takes, when it takes one. *)
Lemma cell_outdated_spec cell id d :
  cells d !! Z.to_nat (getCellIdx d id) = Some cell →
  ∃ d', cell_outdated cell id d = (negb (up_to_date d (clock_reads d) id), d') ∧
        same_contents d d' ∧ (clock_reads d ≤ clock_reads d' ≤ S (clock_reads d))%nat.
Proof.
  intros Hcell. unfold cell_outdated, hasTimeExpired, up_to_date. rewrite Hcell.
  case_decide as Hid.
  - exists d. split; [| split; [apply same_contents_refl | lia]].
    f_equal. rewrite bool_decide_eq_false_2; [done |]. by intros [? _].
  - exists (read_clock d). split; [| split; [by repeat split | simpl; lia]].
    f_equal.
    destruct (decide (cell_metadata_t.expires_at cell ≤ system_clock_now (clock_reads d))).
    + rewrite bool_decide_eq_true_2 by done.
      rewrite bool_decide_eq_false_2; [done |]. intros [_ ?]. lia.
    + rewrite bool_decide_eq_false_2 by done.
      rewrite bool_decide_eq_true_2; [done |]. split; [done | lia].
Qed.

(** One position of the first loop. *)
Lemma fetch_row_Ok {E} (T : scalar) attribute i id d out outdated_ids d' out' outdated_ids' :
  fetch_row (E := E) T attribute i id (d, out, outdated_ids) = Ok (d', out', outdated_ids') →
  let null_value := null_values_t.get T (attribute_t.null_values attribute) in
  let fresh := up_to_date d (clock_reads d) id in
  same_contents d d' ∧ (clock_reads d ≤ clock_reads d' ≤ S (clock_reads d))%nat ∧
  (i < length out)%nat ∧
  (∃ x, (if decide (id = 0) then Some null_value
         else if fresh
         then arrays_t.get T (attribute_t.arrays attribute) !! Z.to_nat (getCellIdx d id)
         else Some null_value) = Some x ∧
        out' = <[i := x]> out) ∧
  outdated_ids' = (if decide (id ≠ 0 ∧ fresh = false)
                   then push_back_outdated id i outdated_ids else outdated_ids).
Proof.
  unfold fetch_row. intros Hrow. simpl.
  destruct (decide (id = 0)) as [-> | Hid].
  { apply bind_Ok in Hrow as (out1 & [Hlt ->]%store_Ok & Hrow). simplify_eq.
    split; [apply same_contents_refl |]. split; [lia |]. split; [done |].
    split; [eauto |]. rewrite decide_False; [done |]. by intros [? _]. }
  apply bind_Ok in Hrow as (cell & Hcell%read_Ok & Hrow).
  destruct (cell_outdated_spec cell id d Hcell) as (d1 & Houtdated & Hsame & Hreads).
  rewrite Houtdated in Hrow.
  destruct (up_to_date d (clock_reads d) id); simpl in Hrow.
  - apply bind_Ok in Hrow as (x & Hx%read_Ok & Hrow).
    apply bind_Ok in Hrow as (out1 & [Hlt ->]%store_Ok & Hrow). simplify_eq.
    split; [done |]. split; [done |]. split; [done |].
    split; [eauto |]. rewrite decide_False; [done |]. by intros [_ ?].
  - apply bind_Ok in Hrow as (out1 & [Hlt ->]%store_Ok & Hrow). simplify_eq.
    split; [done |]. split; [done |]. split; [done |].
    split; [eauto |]. by rewrite decide_True.
Qed.

Lemma elem_of_occurrences i ids id j :
  j ∈ occurrences i ids id ↔ (i ≤ j)%nat ∧ ids !! (j - i)%nat = Some id.
Proof.
  revert i. induction ids as [| id' ids IH]; intros i; simpl.
  { split; [by intros ?%elem_of_nil | by intros [_ ?]]. }
  rewrite elem_of_app, IH. split.
  - intros [Hj | [Hle Hj]].
    + case_decide; [| by apply elem_of_nil in Hj].
      apply list_elem_of_singleton in Hj as ->. subst.
      split; [lia |]. by rewrite Nat.sub_diag.
    + split; [lia |]. by replace (j - i)%nat with (S (j - S i)) by lia.
  - intros [Hle Hj]. destruct (decide (j = i)) as [-> | Hne].
    + left. rewrite Nat.sub_diag in Hj. simpl in Hj. simplify_eq.
      rewrite decide_True by done. by apply list_elem_of_singleton.
    + right. split; [lia |].
      by replace (j - i)%nat with (S (j - S i)) in Hj by lia.
Qed.

(** The first loop under a steady clock: [fresh] is what a lookup finds
    for a key at every reading the loop takes. *)
Lemma fetch_rows_steady {E} (T : scalar) attribute (fresh : Z → bool) ids :
  ∀ i d out outdated_ids d1 out1 outdated1,
  (∀ n id, (clock_reads d ≤ n < clock_reads d + length ids)%nat → up_to_date d n id = fresh id) →
  fetch_rows (E := E) T attribute i ids (d, out, outdated_ids) = Ok (d1, out1, outdated1) →
  let null_value := null_values_t.get T (attribute_t.null_values attribute) in
  same_contents d d1 ∧
  (clock_reads d ≤ clock_reads d1 ≤ clock_reads d + length ids)%nat ∧
  length out1 = length out ∧
  (∀ k, positions outdated1 k
        = positions outdated_ids k
          ++ (if decide (k ≠ 0 ∧ fresh k = false) then occurrences i ids k else [])) ∧
  (∀ k, is_Some (outdated1 !! k)
        ↔ is_Some (outdated_ids !! k) ∨ (k ∈ ids ∧ k ≠ 0 ∧ fresh k = false)) ∧
  (∀ j, (j < i ∨ i + length ids ≤ j)%nat → out1 !! j = out !! j) ∧
  (∀ p k, ids !! p = Some k →
     out1 !! (i + p)%nat =
       if decide (k = 0) then Some null_value
       else if fresh k
       then arrays_t.get T (attribute_t.arrays attribute) !! Z.to_nat (getCellIdx d k)
       else Some null_value).
Proof.
  induction ids as [| id ids IH]; intros i d out outdated_ids d1 out1 outdated1 Hsteady Hrows.
  { simpl in Hrows. simplify_eq. simpl.
    split; [apply same_contents_refl |]. split; [lia |]. split; [done |].
    split; [intros k; case_decide; by rewrite app_nil_r |].
    split; [intros k; split; [by left | intros [? | [?%elem_of_nil _]]; done] |].
    split; [done |]. intros p k Hp. by rewrite lookup_nil in Hp. }
  simpl in Hrows.
  apply bind_Ok in Hrows as ([[d' out'] outdated'] & Hrow & Hrows).
  apply fetch_row_Ok in Hrow as (Hsame & Hreads & Hlt & (x & Hx & ->) & ->).
  rewrite (Hsteady (clock_reads d) id) in Hx by (simpl; lia).
  rewrite (Hsteady (clock_reads d) id) in Hrows by (simpl; lia).
  apply IH in Hrows as (Hsame1 & Hreads1 & Hlen1 & Hpositions1 & Hdom1 & Hframe1 & Hout1).
  2: { intros n k Hn. rewrite (up_to_date_same _ _ _ _ Hsame). apply Hsteady. simpl. lia. }
  simpl.
  split; [by eapply same_contents_trans |].
  split; [simpl in *; lia |].
  split; [by rewrite Hlen1, length_insert |].
  split; [| split; [| split]].
  - intros k. rewrite Hpositions1.
    destruct (decide (id = k)) as [-> | Hne].
    + case_decide.
      * rewrite positions_push_back, decide_True by done. by rewrite <- app_assoc.
      * done.
    + destruct (decide (id ≠ 0 ∧ fresh id = false)).
      * rewrite positions_push_back, decide_False by done. done.
      * done.
  - intros k. rewrite Hdom1. rewrite elem_of_cons.
    destruct (decide (id ≠ 0 ∧ fresh id = false)) as [Hnoted | Hnot].
    + unfold push_back_outdated. destruct (decide (k = id)) as [-> | Hne].
      * rewrite lookup_insert_eq.
        split; [intros _; right; split; [by left | done] | intros _; unfold is_Some; eauto].
      * rewrite lookup_insert_ne by done.
        split.
        -- intros [? | (? & ? & ?)]; [by left | right; split; [by right | done]].
        -- intros [? | ([? | ?] & ? & ?)]; [by left | done | right; done].
    + split; [intros [? | (? & ? & ?)]; [by left | right; split; [by right | done]] |].
      intros [? | ([-> | ?] & ? & ?)]; [by left | by destruct Hnot | by right].
  - intros j Hj. rewrite Hframe1 by lia. apply list_lookup_insert_ne. lia.
  - intros [| p] k Hp; simpl in Hp.
    + simplify_eq. rewrite Nat.add_0_r, Hframe1 by lia.
      rewrite list_lookup_insert_eq by done. done.
    + replace (i + S p)%nat with (S i + p)%nat by lia.
      rewrite (Hout1 p k Hp). by rewrite (getCellIdx_same _ _ _ Hsame).
Qed.
End scalar_fetch.

(** ** The scalar lookup under a steady clock *)

Section scalar_lookup.
Context `{Platform}.

Import CacheDictionary.

(** A refresh calls the source once, with the keys it is given. *)
Lemma update_frame {X} (on_cell_updated : Z → Z → t → X → outcome Empty_set X) ids d x :
  ends_in (λ '(d', _), source_ptr d' = source_ptr d ∧
                       loadIds_calls d' = loadIds_calls d ++ [ids] ∧
                       size d' = size d ∧
                       rw_lock d' = rw_lock d ++ [ScopedWriteRWLock])
    (λ _, True) (update ids on_cell_updated (d, x)).
Proof.
  unfold update. apply update_blocks_ends_in; [| done].
  intros block i id [d1 x1] [d2 x2] HP Hrow.
  apply update_row_Ok in Hrow as (old & attributes' & x' & _ & _ & _ & Heq).
  by simplify_eq.
Qed.

Lemma elem_of_keys {V} (m : gmap Z V) (k : Z) : k ∈ keys m ↔ is_Some (m !! k).
Proof.
  unfold keys. rewrite list_elem_of_fmap. split.
  - intros ([k' v] & -> & Hin). apply elem_of_map_to_list in Hin. simpl. eauto.
  - intros [v Hv]. exists (k, v). split; [done |]. by apply elem_of_map_to_list.
Qed.

Lemma NoDup_keys {V} (m : gmap Z V) : NoDup (keys m).
Proof. apply NoDup_fst_map_to_list. Qed.

Lemma keys_nil {V} (m : gmap Z V) : keys m = [] → m = ∅.
Proof.
  unfold keys. intros Hkeys. apply fmap_nil_inv in Hkeys.
  by apply map_to_list_empty_iff.
Qed.

(** The scalar lookup, when no cell expires between the readings of its
    first loop and the attribute has the type of the getter: the source
    is asked once for the distinct keys that are not up to date, if there
    are any, and position [j] of [out] receives the value of [ids[j]]. *)
Lemma getItems_steady (T : scalar) attribute_idx ids out d attribute d' out' :
  attributes d !! attribute_idx = Some attribute →
  attribute_t.type attribute = LC_TYPE T →
  steady d (length ids) →
  getItems T attribute_idx ids out d = Ok (d', out') →
  ∃ required_ids,
    NoDup required_ids ∧
    (∀ k, k ∈ required_ids ↔ k ∈ ids ∧ k ≠ 0 ∧ up_to_date d (clock_reads d) k = false) ∧
    loadIds_calls d' = loadIds_calls d ++ (if decide (required_ids = []) then [] else [required_ids]) ∧
    length out' = length out ∧
    ∀ j k, ids !! j = Some k →
      out' !! j = value_for T attribute attribute_idx d
                    (IDictionarySource.loadIds (source_ptr d) required_ids) k.
Proof.
  intros Hattribute Htype Hsteady Hget. unfold getItems in Hget.
  rewrite (read_lookup _ _ _ _ Hattribute) in Hget. simpl in Hget.
  apply bind_Ok in Hget as ([[d1 out1] outdated1] & Hfetch & Hget).
  apply (fetch_rows_steady T attribute (up_to_date d (clock_reads d))) in Hfetch
    as (Hsame & Hreads & Hlen1 & Hpositions & Hdom & _ & Hout1); [| exact Hsteady].
  simpl in Hsame, Hreads, Hout1.
  assert (Hnoted : ∀ k j, j ∈ positions outdated1 k ↔
            ids !! j = Some k ∧ k ≠ 0 ∧ up_to_date d (clock_reads d) k = false).
  { intros k j. rewrite Hpositions, positions_empty, app_nil_l.
    destruct (decide (k ≠ 0 ∧ up_to_date d (clock_reads d) k = false)) as [Hk | Hk].
    - rewrite elem_of_occurrences, Nat.sub_0_r. split; [intros [_ ?]; by destruct Hk |].
      intros (? & _). split; [lia | done].
    - split; [by intros ?%elem_of_nil | intros (_ & ? & ?); by destruct Hk]. }
  assert (Hkeys : ∀ k, is_Some (outdated1 !! k) ↔
            k ∈ ids ∧ k ≠ 0 ∧ up_to_date d (clock_reads d) k = false).
  { intros k. rewrite Hdom, lookup_empty. split; [intros [[? [=]] | ?]; done | by right]. }
  assert (Hvalue : ∀ j k, ids !! j = Some k →
            (k = 0 ∨ up_to_date d (clock_reads d) k = true) →
            ∀ stream, out1 !! j = value_for T attribute attribute_idx d stream k).
  { intros j k Hj Hk stream. rewrite (Hout1 j k Hj). unfold value_for.
    destruct (decide (k = 0)) as [? | Hk0]; [done |]. destruct Hk as [? | ->]; done. }
  case_decide as Hempty.
  - simplify_eq. exists [].
    split; [constructor |].
    split.
    { intros k. rewrite <- Hkeys, lookup_empty. split; [by intros ?%elem_of_nil | by intros [? [=]]]. }
    split; [rewrite decide_True by done; destruct Hsame as (_ & _ & _ & _ & _ & ->); simpl; by rewrite app_nil_r |].
    split; [done |].
    intros j k Hj. apply (Hvalue j k Hj).
    destruct (decide (k = 0)) as [? | Hk]; [by left | right].
    destruct (up_to_date d (clock_reads d) k) eqn:Hfresh; [done |].
    assert (is_Some ((∅ : gmap Z (list nat)) !! k)) as [? Hin].
    { apply Hkeys. split; [by eapply list_elem_of_lookup_2 | done]. }
    by rewrite lookup_empty in Hin.
  - apply bind_Ok in Hget as ([d2 [out2 outdated2]] & Hupdate & Hget). simplify_eq.
    destruct (update (keys outdated1) (on_scalar_updated T attribute_idx) (d1, (out1, outdated1)))
      as [[d3 [out3 outdated3]] | [e s] | u] eqn:Hupdate'; simpl in Hupdate; [| done | done].
    simplify_eq.
    pose proof (update_frame (on_scalar_updated T attribute_idx) (keys outdated1) d1
                  (out1, outdated1)) as Hframe.
    rewrite Hupdate' in Hframe. simpl in Hframe. destruct Hframe as (_ & Hcalls & _).
    unfold update in Hupdate'.
    apply (update_blocks_scalar T) with (attribute := attribute) in Hupdate'
      as (Hlen' & Hrefreshed & Hkept).
    2: { simpl. destruct Hsame as (_ & -> & _). done. }
    2: done.
    2: { intros k k' j [Hk _]%Hnoted [Hk' _]%Hnoted. congruence. }
    exists (keys outdated1).
    split; [apply NoDup_keys |].
    split; [intros k; by rewrite elem_of_keys |].
    split.
    { rewrite decide_False.
      - rewrite Hcalls. destruct Hsame as (_ & _ & _ & _ & _ & ->). done.
      - intros Hnil. apply Hempty. apply map_eq. intros k. rewrite lookup_empty.
        apply eq_None_not_Some. rewrite <- elem_of_keys, Hnil. by intros ?%elem_of_nil. }
    split; [congruence |].
    intros j k Hj.
    destruct Hsame as (_ & _ & _ & Hsource & _). simpl in Hsource. rewrite <- Hsource.
    destruct (decide (k ≠ 0 ∧ up_to_date d (clock_reads d) k = false)) as [[Hk Hfresh] | Hnot].
    + rewrite (Hrefreshed k j) by (by apply Hnoted).
      rewrite (Hout1 j k Hj). unfold value_for.
      rewrite !decide_False by done. rewrite Hfresh.
      by destruct (last_row _ _ k).
    + rewrite Hkept.
      * apply Hvalue; [done |]. destruct (decide (k = 0)); [by left | right].
        destruct (up_to_date d (clock_reads d) k); [done |]. by destruct Hnot.
      * intros k' [Hk' [? ?]]%Hnoted. simplify_eq. by destruct Hnot.
Qed.
End scalar_lookup.

(** ** Collisions *)

Section collisions.
Context `{Platform}.

Import CacheDictionary.

(** A row of a refresh puts its key in the cell of its slot, whatever key
    the cell held. *)
Lemma update_row_installs {X} (on_cell_updated : Z → Z → t → X → outcome Empty_set X)
    block i id d x d' x' :
  update_row on_cell_updated block i id (d, x) = Ok (d', x') →
  size d' = size d ∧
  ∃ cell, cells d' !! Z.to_nat (getCellIdx d' id) = Some cell ∧ cell_metadata_t.id cell = id.
Proof.
  intros Hrow.
  apply update_row_Ok in Hrow as (old & attributes' & x'' & Hold & _ & _ & Heq).
  simplify_eq. simpl. split; [done |].
  eexists. split.
  - change (getCellIdx (read_clock (installed _ _ _ d)) id) with (getCellIdx d id).
    apply list_lookup_insert_eq. by eapply lookup_lt_Some.
  - done.
Qed.

(** A key is not up to date while the cell of its slot holds another key. *)
Lemma up_to_date_other d n id cell :
  cells d !! Z.to_nat (getCellIdx d id) = Some cell →
  cell_metadata_t.id cell ≠ id →
  up_to_date d n id = false.
Proof.
  intros Hcell Hid. unfold up_to_date. rewrite Hcell.
  apply bool_decide_eq_false_2. by intros [? _].
Qed.

Lemma steady_one d : steady d 1.
Proof. intros n id Hn. by replace n with (clock_reads d) by lia. Qed.

(** C3, as the code has it. Let [k1] be a non-zero key and [k2] another
    key of the same slot, and let the cell of that slot hold [k2], as a
    refresh that installs [k2] leaves it. A read of [k1] by a getter of
    the type of the attribute then finds [k1] not up to date at every
    reading of the clock and asks the source for [k1] alone; what it
    returns for [k1] is the value of the last row the source sends for
    [k1], and the null value only when the source sends no row for it. *)
Theorem C3_collision_read_refreshes (T : scalar) (attribute_idx : nat)
    (attribute : attribute_t.t) (k1 k2 : Z) (out : list (cpp T))
    (d : t) (cell : cell_metadata_t.t) :
  attributes d !! attribute_idx = Some attribute →
  attribute_t.type attribute = LC_TYPE T →
  k1 ≠ 0 → k1 ≠ k2 → getCellIdx d k1 = getCellIdx d k2 →
  cells d !! Z.to_nat (getCellIdx d k2) = Some cell →
  cell_metadata_t.id cell = k2 →
  (∀ n, up_to_date d n k1 = false) ∧
  match getItems T attribute_idx [k1] out d with
  | Ok (d', out') =>
      loadIds_calls d' = loadIds_calls d ++ [[k1]] ∧
      out' !! 0%nat =
        Some (default (null_values_t.get T (attribute_t.null_values attribute))
                (last_row (row_value T attribute_idx)
                   (IDictionarySource.loadIds (source_ptr d) [k1]) k1))
  | _ => True
  end.
Proof.
  intros Hattribute Htype Hk1 Hne Hslot Hcell Hid.
  assert (Hmiss : ∀ n, up_to_date d n k1 = false).
  { intros n. apply (up_to_date_other d n k1 cell); [by rewrite Hslot | congruence]. }
  split; [done |].
  destruct (getItems T attribute_idx [k1] out d) as [[d' out'] | e | u] eqn:Hget; [| done | done].
  destruct (getItems_steady T attribute_idx [k1] _ _ _ _ _ Hattribute Htype (steady_one d) Hget)
    as (required_ids & Hnodup & Hrequired & Hcalls & _ & Hout).
  assert (required_ids = [k1]) as ->.
  { assert (Hin : ∀ k, k ∈ required_ids ↔ k = k1).
    { intros k. rewrite Hrequired, list_elem_of_singleton. split; [by intros [? _] |].
      intros ->. done. }
    destruct required_ids as [| k required_ids].
    { assert (k1 ∈ @nil Z) as ?%elem_of_nil by (by apply Hin). done. }
    assert (k = k1) as -> by (apply Hin; left).
    destruct required_ids as [| k' required_ids]; [done |].
    assert (k' = k1) as -> by (apply Hin; right; left).
    apply NoDup_cons in Hnodup as [Hnot _]. destruct Hnot. left. }
  rewrite decide_False in Hcalls by done.
  split; [done |].
  rewrite (Hout 0%nat k1) by done. unfold value_for.
  rewrite decide_False by done. by rewrite Hmiss.
Qed.
End collisions.

(** The example dictionary after a lookup of key 4 and one of key 5,
    which shares the slot of 4: a lookup of 4. *)
Lemma C3_witness :
  (∀ n, up_to_date (H := example_platform) (example_after [] [[4]; [5]]) n 4 = false) ∧
  match getItems (H := example_platform) UInt32 0 [4] [0] (example_after [] [[4]; [5]]) with
  | Ok (d', out') =>
      CacheDictionary.loadIds_calls d'
        = CacheDictionary.loadIds_calls (example_after [] [[4]; [5]]) ++ [[4]] ∧
      out' !! 0%nat =
        Some (default
                (null_values_t.get (H := example_platform) UInt32
                   (attribute_t.null_values (example_after_attribute_x [] [[4]; [5]])))
                (last_row (row_value (H := example_platform) UInt32 0)
                   (IDictionarySource.loadIds
                      (CacheDictionary.source_ptr (example_after [] [[4]; [5]])) [4]) 4))
  | _ => True
  end.
Proof.
  apply (C3_collision_read_refreshes (H := example_platform) UInt32 0
           (example_after_attribute_x [] [[4]; [5]]) 4 5 [0] (example_after [] [[4]; [5]])
           {| cell_metadata_t.id := 5; cell_metadata_t.expires_at := 11000000000 |}).
  - unfold example_after_attribute_x.
    destruct (lookup_lt_is_Some_2
                (CacheDictionary.attributes (H := example_platform) (example_after [] [[4]; [5]]))
                0%nat) as [attribute ->]; [vm_compute; lia | reflexivity].
  - vm_compute. reflexivity.
  - discriminate.
  - discriminate.
  - vm_compute. reflexivity.
  - vm_compute. reflexivity.
  - reflexivity.
Defined.

(** C3, as the claim has it, fails on the example dictionary: key 4 is
    looked up and becomes resident, a lookup of key 5 installs 5 in the
    slot they share, and the next read of key 4 returns 7, the value the
    source has for it, where the null value of the attribute is 0. *)
Lemma C3_counterexample :
  getCellIdx (H := example_platform) (example_after [] [[4]]) 4
    = getCellIdx (H := example_platform) (example_after [] [[4]]) 5 ∧
  up_to_date (H := example_platform) (example_after [] [[4]]) 1 4 = true ∧
  (cell_metadata_t.id <$>
     CacheDictionary.cells (H := example_platform) (example_after [] [[4]; [5]]) !! 1%nat) = Some 5 ∧
  output (getItems (H := example_platform) UInt32 0 [4] [0] (example_after [] [[4]; [5]]))
    = Some [7] ∧
  null_values_t.get (H := example_platform) UInt32
    (attribute_t.null_values (example_after_attribute_x [] [[4]; [5]])) = 0.
Proof. vm_compute. done. Qed.

(** ** Key 0 in the scalar lookup *)

Section scalar_zero.
Context `{Platform}.

Import CacheDictionary.

(** The first loop at any clock: a position is noted under its own key,
    never under key 0, and a position of key 0 holds the null value. *)
Lemma fetch_rows_keyed {E} (T : scalar) attribute ids :
  ∀ i d out outdated_ids d1 out1 outdated1,
  fetch_rows (E := E) T attribute i ids (d, out, outdated_ids) = Ok (d1, out1, outdated1) →
  same_contents d d1 ∧
  (∀ k j, j ∈ positions outdated1 k →
     j ∈ positions outdated_ids k ∨ ((i ≤ j)%nat ∧ ids !! (j - i)%nat = Some k ∧ k ≠ 0)) ∧
  (∀ k, is_Some (outdated1 !! k) → is_Some (outdated_ids !! k) ∨ (k ∈ ids ∧ k ≠ 0)) ∧
  (∀ p, ids !! p = Some 0 →
     out1 !! (i + p)%nat = Some (null_values_t.get T (attribute_t.null_values attribute))) ∧
  (∀ j, (j < i)%nat → out1 !! j = out !! j).
Proof.
  induction ids as [| id ids IH]; intros i d out outdated_ids d1 out1 outdated1 Hrows.
  { simpl in Hrows. simplify_eq.
    split; [apply same_contents_refl |]. split; [by left |]. split; [by left |].
    split; [| done]. intros p Hp. by rewrite lookup_nil in Hp. }
  simpl in Hrows.
  apply bind_Ok in Hrows as ([[d' out'] outdated'] & Hrow & Hrows).
  apply fetch_row_Ok in Hrow as (Hsame & _ & Hlt & (x & Hx & ->) & ->).
  apply IH in Hrows as (Hsame1 & Hnoted1 & Hdom1 & Hzero1 & Hframe1).
  split; [by eapply same_contents_trans |].
  split; [| split; [| split]].
  - intros k j Hj. apply Hnoted1 in Hj as [Hj | (Hle & Hj & Hk)].
    + case_decide as Hnoted; [| by left].
      rewrite positions_push_back in Hj.
      destruct (decide (k = id)) as [-> | Hid]; [| by left].
      apply elem_of_app in Hj as [Hj | ->%list_elem_of_singleton]; [by left |].
      right. rewrite Nat.sub_diag. simpl. by destruct Hnoted.
    + right. split; [lia |]. by replace (j - i)%nat with (S (j - S i)) by lia.
  - intros k Hk. apply Hdom1 in Hk as [Hk | [Hin Hk]].
    + case_decide as Hnoted; [| by left].
      unfold push_back_outdated in Hk. destruct (decide (k = id)) as [-> | Hne].
      * right. split; [left | by destruct Hnoted].
      * rewrite lookup_insert_ne in Hk by done. by left.
    + right. split; [by right | done].
  - intros [| p] Hp; simpl in Hp.
    + simplify_eq. rewrite Nat.add_0_r, Hframe1 by lia.
      rewrite list_lookup_insert_eq by done. rewrite decide_True in Hx by done. done.
    + replace (i + S p)%nat with (S i + p)%nat by lia. by apply Hzero1.
  - intros j Hj. rewrite Hframe1 by lia. apply list_lookup_insert_ne. lia.
Qed.

(** In a scalar lookup that returns, every position of key 0 holds the
    null value of the attribute, and the source was not asked for key 0. *)
Lemma getItems_zero (T : scalar) attribute_idx ids out d attribute d' out' :
  attributes d !! attribute_idx = Some attribute →
  attribute_t.type attribute = LC_TYPE T →
  getItems T attribute_idx ids out d = Ok (d', out') →
  (∀ j, ids !! j = Some 0 →
     out' !! j = Some (null_values_t.get T (attribute_t.null_values attribute))) ∧
  (∀ required_ids, required_ids ∈ loadIds_calls d' →
     required_ids ∈ loadIds_calls d ∨ 0 ∉ required_ids).
Proof.
  intros Hattribute Htype Hget. unfold getItems in Hget.
  rewrite (read_lookup _ _ _ _ Hattribute) in Hget. simpl in Hget.
  apply bind_Ok in Hget as ([[d1 out1] outdated1] & Hfetch & Hget).
  apply fetch_rows_keyed in Hfetch as (Hsame & Hnoted & Hdom & Hzero & _).
  assert (Hkeyed : ∀ k j, j ∈ positions outdated1 k → ids !! j = Some k ∧ k ≠ 0).
  { intros k j [Hj | (_ & Hj & Hk)]%Hnoted.
    - rewrite positions_empty in Hj. by apply elem_of_nil in Hj.
    - by rewrite Nat.sub_0_r in Hj. }
  destruct (decide (outdated1 = ∅)) as [Hempty | Hempty].
  - simplify_eq. split; [apply Hzero |].
    intros required_ids Hin. left. destruct Hsame as (_ & _ & _ & _ & _ & Hcalls).
    rewrite Hcalls in Hin. exact Hin.
  - apply bind_Ok in Hget as ([d2 [out2 outdated2]] & Hupdate & Hget). simplify_eq.
    destruct (update (keys outdated1) (on_scalar_updated T attribute_idx) (d1, (out1, outdated1)))
      as [[d3 [out3 outdated3]] | [e s] | u] eqn:Hupdate'; simpl in Hupdate; [| done | done].
    simplify_eq.
    pose proof (update_frame (on_scalar_updated T attribute_idx) (keys outdated1) d1
                  (out1, outdated1)) as Hframe.
    rewrite Hupdate' in Hframe. simpl in Hframe. destruct Hframe as (_ & Hcalls & _).
    unfold update in Hupdate'.
    apply (update_blocks_scalar T) with (attribute := attribute) in Hupdate'
      as (_ & _ & Hkept).
    2: { simpl. destruct Hsame as (_ & -> & _). done. }
    2: done.
    2: { intros k k' j [Hk _]%Hkeyed [Hk' _]%Hkeyed. congruence. }
    split.
    + intros j Hj. rewrite Hkept; [by apply Hzero |].
      intros k [Hk Hk0]%Hkeyed. congruence.
    + intros required_ids. rewrite Hcalls.
      destruct Hsame as (_ & _ & _ & _ & _ & ->). simpl.
      intros [? | ->%list_elem_of_singleton]%elem_of_app; [by left | right].
      rewrite elem_of_keys. intros [Hin | [_ ?]]%Hdom; [| done].
      rewrite lookup_empty in Hin. by destruct Hin.
Qed.

(** A key other than 0 is not up to date while the cell of its slot holds
    key 0. *)
Lemma up_to_date_zero_cell d n id cell :
  id ≠ 0 →
  cells d !! Z.to_nat (getCellIdx d id) = Some cell →
  cell_metadata_t.id cell = 0 →
  up_to_date d n id = false.
Proof. intros Hid Hcell Hzero. apply (up_to_date_other d n id cell); [done | congruence]. Qed.
End scalar_zero.

(** ** The string lookup *)

Section string_lookup.
Context `{Platform}.

Import CacheDictionary.

Lemma emit_insert_all map null_value ids out :
  emit map null_value ids out
  = insert_all out ((λ id, default null_value (map !! id)) <$> ids).
Proof. revert out. induction ids as [| id ids IH]; intros out; simpl; [done |]. apply IH. Qed.

Lemma optimistic_strings_same attribute d d' (ids : list Z) :
  same_contents d d' →
  optimistic_string attribute d' <$> ids = optimistic_string attribute d <$> ids.
Proof.
  intros Hsame. apply list_fmap_ext. intros _ k _.
  unfold optimistic_string, resident_string. by rewrite (getCellIdx_same _ _ _ Hsame).
Qed.

(** The optimistic loop, when it completes: it appended, for each key in
    turn, the null value for key 0 and the string of the slot otherwise. *)
Lemma fetch_strings_completed {E} attribute ids :
  ∀ d out d1 out1,
  fetch_strings (E := E) attribute ids (d, out) = Ok (false, d1, out1) →
  same_contents d d1 ∧
  (clock_reads d ≤ clock_reads d1 ≤ clock_reads d + length ids)%nat ∧
  out1 = insert_all out (optimistic_string attribute d <$> ids).
Proof.
  induction ids as [| id ids IH]; intros d out d1 out1 Hfetch.
  { simpl in Hfetch. simplify_eq. split; [apply same_contents_refl |]. split; [lia | done]. }
  simpl in Hfetch. unfold optimistic_string at 1. simpl.
  destruct (decide (id = 0)) as [-> | Hid].
  { apply IH in Hfetch as (Hsame & Hreads & ->). split; [done |]. split; [lia | done]. }
  apply bind_Ok in Hfetch as (cell & Hcell%read_Ok & Hfetch).
  destruct (cell_outdated_spec cell id d Hcell) as (d' & Houtdated & Hsame & Hreads).
  rewrite Houtdated in Hfetch.
  destruct (up_to_date d (clock_reads d) id); simpl in Hfetch; [| done].
  apply bind_Ok in Hfetch as (string_ref & Href%read_Ok & Hfetch).
  apply IH in Hfetch as (Hsame1 & Hreads1 & ->).
  split; [by eapply same_contents_trans |]. split; [lia |].
  unfold resident_string. rewrite Href. simpl.
  by rewrite (optimistic_strings_same _ _ _ _ Hsame).
Qed.

(** The optimistic loop on keys that are all up to date completes. *)
Lemma fetch_strings_all_fresh {E} attribute ids :
  ∀ d out,
  length (arrays_t.of_StringRef (attribute_t.arrays attribute)) = length (cells d) →
  all_fresh d (length ids) ids →
  ∃ d1, fetch_strings (E := E) attribute ids (d, out)
        = Ok (false, d1, insert_all out (optimistic_string attribute d <$> ids)) ∧
        same_contents d d1 ∧
        (clock_reads d ≤ clock_reads d1 ≤ clock_reads d + length ids)%nat.
Proof.
  induction ids as [| id ids IH]; intros d out Hlen Hfresh.
  { exists d. split; [done |]. split; [apply same_contents_refl | lia]. }
  simpl. unfold optimistic_string at 1.
  destruct (decide (id = 0)) as [-> | Hid].
  { destruct (IH d (ColumnString.insertData out
                      (null_values_t.of_String (attribute_t.null_values attribute))) Hlen)
      as (d1 & -> & Hsame & Hreads).
    - intros n k Hn Hk Hk0. apply Hfresh; [simpl; lia | by right | done].
    - exists d1. split; [done |]. split; [done | lia]. }
  assert (Hup : up_to_date d (clock_reads d) id = true).
  { apply Hfresh; [simpl; lia | left | done]. }
  assert (∃ cell, cells d !! Z.to_nat (getCellIdx d id) = Some cell) as [cell Hcell].
  { unfold up_to_date in Hup. destruct (cells d !! _); [eauto | done]. }
  destruct (lookup_lt_is_Some_2 (arrays_t.of_StringRef (attribute_t.arrays attribute))
              (Z.to_nat (getCellIdx d id))) as [string_ref Href].
  { rewrite Hlen. by eapply lookup_lt_Some. }
  rewrite (read_lookup _ _ _ _ Hcell). simpl.
  destruct (cell_outdated_spec cell id d Hcell) as (d' & -> & Hsame & Hreads).
  rewrite Hup. simpl. rewrite (read_lookup _ _ _ _ Href). simpl.
  destruct (IH d' (ColumnString.insertData out (StringRef.bytes string_ref)))
    as (d1 & -> & Hsame1 & Hreads1).
  - destruct Hsame as (-> & _). done.
  - intros n k Hn Hk Hk0. rewrite (up_to_date_same _ _ _ _ Hsame).
    apply Hfresh; [simpl; lia | by right | done].
  - exists d1. split; [| split; [by eapply same_contents_trans | lia]].
    unfold resident_string. rewrite Href. simpl.
    by rewrite (optimistic_strings_same _ _ _ _ Hsame).
Qed.

(** The loop of the pessimistic pass on keys that are all up to date:
    nothing is outdated, and [map] holds the string of the slot of every
    key of [ids] other than 0. *)
Lemma collect_rows_all_fresh {E} attribute ids :
  ∀ d outdated_ids map total_length,
  length (arrays_t.of_StringRef (attribute_t.arrays attribute)) = length (cells d) →
  all_fresh d (length ids) ids →
  ∃ d1 map1 total_length1,
    collect_rows (E := E) attribute ids (d, (outdated_ids, map, total_length))
      = Ok (d1, (outdated_ids, map1, total_length1)) ∧
    same_contents d d1 ∧
    ∀ k, map1 !! k = if decide (k ∈ ids ∧ k ≠ 0) then resident_string attribute d k
                     else map !! k.
Proof.
  induction ids as [| id ids IH]; intros d outdated_ids map total_length Hlen Hfresh.
  { exists d, map, total_length. split; [done |]. split; [apply same_contents_refl |].
    intros k. rewrite decide_False; [done |]. by intros [?%elem_of_nil _]. }
  simpl. unfold collect_row at 1.
  destruct (decide (id = 0)) as [-> | Hid].
  { simpl.
    destruct (IH d outdated_ids map (total_length + 1) Hlen) as (d1 & map1 & tl1 & -> & Hsame & Hmap).
    - intros n k Hn Hk Hk0. apply Hfresh; [simpl; lia | by right | done].
    - exists d1, map1, tl1. split; [done |]. split; [done |].
      intros k. rewrite Hmap.
      destruct (decide (k ∈ ids ∧ k ≠ 0)) as [[Hk Hk0] | Hnot].
      + rewrite decide_True; [done |]. split; [by right | done].
      + rewrite decide_False; [done |].
        intros [[-> | Hk]%elem_of_cons Hk0]; [done | by apply Hnot]. }
  assert (Hup : up_to_date d (clock_reads d) id = true).
  { apply Hfresh; [simpl; lia | left | done]. }
  assert (∃ cell, cells d !! Z.to_nat (getCellIdx d id) = Some cell) as [cell Hcell].
  { unfold up_to_date in Hup. destruct (cells d !! _); [eauto | done]. }
  destruct (lookup_lt_is_Some_2 (arrays_t.of_StringRef (attribute_t.arrays attribute))
              (Z.to_nat (getCellIdx d id))) as [string_ref Href].
  { rewrite Hlen. by eapply lookup_lt_Some. }
  rewrite (read_lookup _ _ _ _ Hcell). simpl.
  destruct (cell_outdated_spec cell id d Hcell) as (d' & -> & Hsame & Hreads).
  rewrite Hup. simpl. rewrite (read_lookup _ _ _ _ Href). simpl.
  destruct (IH d' outdated_ids (<[id := StringRef.bytes string_ref]> map)
              (total_length + (StringRef.size string_ref + 1)))
    as (d1 & map1 & tl1 & -> & Hsame1 & Hmap).
  - destruct Hsame as (-> & _). done.
  - intros n k Hn Hk Hk0. rewrite (up_to_date_same _ _ _ _ Hsame).
    apply Hfresh; [simpl; lia | by right | done].
  - exists d1, map1, tl1. split; [done |]. split; [by eapply same_contents_trans |].
    intros k. rewrite Hmap. unfold resident_string.
    rewrite (getCellIdx_same _ _ _ Hsame).
    destruct (decide (k ∈ ids ∧ k ≠ 0)) as [[Hk Hk0] | Hnot].
    + rewrite decide_True; [done |]. split; [by right | done].
    + destruct (decide (k = id)) as [-> | Hne].
      * rewrite lookup_insert_eq, decide_True by (split; [left | done]).
        by rewrite Href.
      * rewrite lookup_insert_ne by done. rewrite decide_False; [done |].
        intros [[-> | Hk]%elem_of_cons Hk0]; [done | by apply Hnot].
Qed.

Lemma all_fresh_weaken d count count' ids :
  (count' ≤ count)%nat → all_fresh d count ids → all_fresh d count' ids.
Proof. intros Hle Hfresh n id Hn. apply Hfresh. lia. Qed.

Lemma all_fresh_later d d' count count' ids :
  same_contents d d' →
  (clock_reads d ≤ clock_reads d')%nat →
  (clock_reads d' + count' ≤ clock_reads d + count)%nat →
  all_fresh d count ids → all_fresh d' count' ids.
Proof.
  intros Hsame Hle Hle' Hfresh n id Hn Hid Hid0.
  rewrite (up_to_date_same _ _ _ _ Hsame). apply Hfresh; [lia | done | done].
Qed.

(** The pessimistic pass on keys that are all up to date: whatever [out]
    holds, it leaves the strings of the keys and nothing before them. *)
Lemma getItems_pessimistic_all_fresh attribute_idx ids out d attribute :
  attributes d !! attribute_idx = Some attribute →
  length (arrays_t.of_StringRef (attribute_t.arrays attribute)) = length (cells d) →
  all_fresh d (length ids) ids →
  ∃ d1, getItems_pessimistic attribute_idx ids out d
        = Ok (d1, insert_all ColumnString.empty (optimistic_string attribute d <$> ids)) ∧
        same_contents d d1.
Proof.
  intros Hattribute Hlen Hfresh. unfold getItems_pessimistic.
  rewrite (read_lookup _ _ _ _ Hattribute). simpl.
  destruct (collect_rows_all_fresh (E := thrown ColumnString.t) attribute ids
              (lock ScopedReadRWLock d) ∅ ∅ 0 Hlen)
    as (d1 & map1 & tl1 & Hcollect & Hsame & Hmap).
  { by eapply all_fresh_later; [apply same_contents_lock | | | exact Hfresh]. }
  match goal with
  | |- context [@collect_rows _ ?E attribute ids ?s] =>
      change (@collect_rows _ E attribute ids s)
        with (collect_rows (E := thrown ColumnString.t) attribute ids
                (lock ScopedReadRWLock d, (∅, ∅, 0)))
  end.
  rewrite Hcollect. simpl. rewrite decide_True by done. simpl.
  assert (Hattribute1 : attributes d1 !! attribute_idx = Some attribute).
  { destruct Hsame as (_ & -> & _). done. }
  rewrite (read_lookup _ _ _ _ Hattribute1). simpl.
  exists d1. split; [| by eapply same_contents_trans; [apply same_contents_lock |]].
  do 2 f_equal. rewrite emit_insert_all. unfold insert_all. f_equal.
  apply list_fmap_ext. intros _ k Hk%list_elem_of_lookup_2.
  rewrite Hmap, lookup_empty. unfold optimistic_string.
  destruct (decide (k = 0)) as [-> | Hk0].
  - rewrite decide_False; [done |]. by intros [_ ?].
  - rewrite decide_True by done.
    change (getCellIdx (lock ScopedReadRWLock d) k) with (getCellIdx d k).
    unfold resident_string.
    assert (up_to_date d (clock_reads d) k = true) as Hup.
    { apply Hfresh; [| done | done]. destruct ids; [by apply elem_of_nil in Hk | simpl; lia]. }
    unfold up_to_date in Hup.
    destruct (cells d !! Z.to_nat (getCellIdx d k)) as [cell |] eqn:Hcell; [| done].
    destruct (lookup_lt_is_Some_2 (arrays_t.of_StringRef (attribute_t.arrays attribute))
                (Z.to_nat (getCellIdx d k))) as [string_ref Href].
    { rewrite Hlen. by eapply lookup_lt_Some. }
    unfold resident_string.
    change (getCellIdx (lock ScopedReadRWLock d) k) with (getCellIdx d k).
    by rewrite Href.
Qed.
End string_lookup.

(** ** The two passes of the string lookup *)

Section two_phase.
Context `{Platform}.

Import CacheDictionary.

(** C1, as the code has it. Let every key of [ids] other than 0 be up to
    date at the readings the two passes take, and let [out] be empty on
    entry. The string lookup then completes its optimistic pass, and the
    pessimistic pass, run on the same dictionary or on the one the
    optimistic pass leaves, returns the same column: for each key in turn
    the null value for key 0 and the string of its slot otherwise. *)
Theorem C1_two_phase_on_empty_out (attribute_idx : nat) (ids : list Z) (d : t)
    (attribute : attribute_t.t) :
  attributes d !! attribute_idx = Some attribute →
  length (arrays_t.of_StringRef (attribute_t.arrays attribute)) = length (cells d) →
  all_fresh d (2 * length ids) ids →
  ∃ d1 d2 d3 out',
    getItems_string attribute_idx ids ColumnString.empty d = Ok (d1, out') ∧
    getItems_pessimistic attribute_idx ids ColumnString.empty d = Ok (d2, out') ∧
    getItems_pessimistic attribute_idx ids out' d1 = Ok (d3, out') ∧
    out' = insert_all ColumnString.empty (optimistic_string attribute d <$> ids).
Proof.
  intros Hattribute Hlen Hfresh.
  destruct (fetch_strings_all_fresh (E := thrown ColumnString.t) attribute ids
              (lock ScopedReadRWLock d) ColumnString.empty Hlen)
    as (d1 & Hfetch & Hsame & Hreads).
  { eapply all_fresh_later; [apply same_contents_lock | | | exact Hfresh]; simpl; lia. }
  assert (Hsame1 : same_contents d d1).
  { by eapply same_contents_trans; [apply same_contents_lock |]. }
  destruct (getItems_pessimistic_all_fresh attribute_idx ids ColumnString.empty d attribute
              Hattribute Hlen) as (d2 & Hpessimistic & _).
  { eapply all_fresh_weaken; [| exact Hfresh]. lia. }
  destruct (getItems_pessimistic_all_fresh attribute_idx ids
              (insert_all ColumnString.empty (optimistic_string attribute d <$> ids))
              d1 attribute) as (d3 & Hpessimistic1 & _).
  { destruct Hsame1 as (_ & -> & _). done. }
  { destruct Hsame1 as (-> & _). done. }
  { eapply all_fresh_later; [exact Hsame1 | | | exact Hfresh]; simpl in *; lia. }
  rewrite (optimistic_strings_same _ _ _ _ Hsame1) in Hpessimistic1.
  exists d1, d2, d3, (insert_all ColumnString.empty (optimistic_string attribute d <$> ids)).
  split; [| done].
  unfold getItems_string. rewrite (read_lookup _ _ _ _ Hattribute). simpl.
  match goal with
  | |- context [@fetch_strings _ ?E attribute ids ?s] =>
      change (@fetch_strings _ E attribute ids s)
        with (fetch_strings (E := thrown ColumnString.t) attribute ids
                (lock ScopedReadRWLock d, ColumnString.empty))
  end.
  rewrite Hfetch. simpl.
  by rewrite (optimistic_strings_same _ _ _ _ (same_contents_lock ScopedReadRWLock d)).
Qed.
End two_phase.

(** The example dictionary after a lookup of key 4, read at the keys
    4, 0, 4 into an empty column. *)
Lemma C1_witness :
  ∃ d1 d2 d3 out',
    getItems_string (H := example_platform) 1 [4; 0; 4] ColumnString.empty
      (example_after [] [[4]]) = Ok (d1, out') ∧
    getItems_pessimistic (H := example_platform) 1 [4; 0; 4] ColumnString.empty
      (example_after [] [[4]]) = Ok (d2, out') ∧
    getItems_pessimistic (H := example_platform) 1 [4; 0; 4] out' d1 = Ok (d3, out') ∧
    out' = insert_all ColumnString.empty
             (optimistic_string (H := example_platform) (example_after_attribute_s [] [[4]])
                (example_after [] [[4]]) <$> [4; 0; 4]).
Proof.
  apply (C1_two_phase_on_empty_out (H := example_platform) 1 [4; 0; 4]
           (example_after [] [[4]]) (example_after_attribute_s [] [[4]])).
  - unfold example_after_attribute_s.
    destruct (lookup_lt_is_Some_2
                (CacheDictionary.attributes (H := example_platform) (example_after [] [[4]]))
                1%nat) as [attribute ->]; [vm_compute; lia | reflexivity].
  - vm_compute. reflexivity.
  - intros n id Hn Hid Hid0.
    assert (Hreads : CacheDictionary.clock_reads (H := example_platform)
                       (example_after [] [[4]]) = 1%nat) by (vm_compute; reflexivity).
    rewrite Hreads in Hn. simpl in Hn.
    assert (id = 4) as ->.
    { apply elem_of_cons in Hid as [-> | Hid]; [done |].
      apply elem_of_cons in Hid as [-> | Hid]; [done |].
      by apply list_elem_of_singleton in Hid. }
    assert (n = 1 ∨ n = 2 ∨ n = 3 ∨ n = 4 ∨ n = 5 ∨ n = 6)%nat
      as [-> | [-> | [-> | [-> | [-> | ->]]]]] by lia;
      vm_compute; reflexivity.
Defined.

(** C1, as the claim has it, fails when [out] holds an entry on entry.
    In the example dictionary after a lookup of key 4, key 4 is up to
    date; on a column that holds the string "x" the string lookup of key
    4 completes its optimistic pass and leaves "x" and "a", and the
    pessimistic pass leaves "a" alone. *)
Lemma C1_counterexample :
  up_to_date (H := example_platform) (example_after [] [[4]]) 1 4 = true ∧
  up_to_date (H := example_platform) (example_after [] [[4]]) 2 4 = true ∧
  output (getItems_string (H := example_platform) 1 [4]
            (ColumnString.insertData ColumnString.empty ["x"%byte]) (example_after [] [[4]]))
    = Some {| ColumnString.chars := ["x"%byte; x00; "a"%byte; x00];
              ColumnString.offsets := [2; 4] |} ∧
  output (getItems_pessimistic (H := example_platform) 1 [4]
            (ColumnString.insertData ColumnString.empty ["x"%byte]) (example_after [] [[4]]))
    = Some {| ColumnString.chars := ["a"%byte; x00]; ColumnString.offsets := [2] |}.
Proof. vm_compute. done. Qed.

(** ** What a refresh does to the strings of the pessimistic pass *)

Section string_refresh.
Context `{Platform}.

Import CacheDictionary.

(** After the assignment the string slot reads as the string of the field. *)
Lemma setAttributeValue_string {E} attribute idx value attribute' :
  attribute_t.type attribute = AttributeType.string →
  setAttributeValue (E := E) attribute idx value = Ok attribute' →
  ∃ string string_ref,
    value = Field_String string ∧
    arrays_t.of_StringRef (attribute_t.arrays attribute') !! Z.to_nat idx = Some string_ref ∧
    StringRef.bytes string_ref = string.
Proof.
  intros Htype Hset. unfold setAttributeValue in Hset. rewrite Htype in Hset.
  unfold set_string in Hset.
  apply bind_Ok in Hset as (string & Hstring & Hset).
  apply bind_Ok in Hset as (old & Hold%read_Ok & Hset).
  apply bind_Ok in Hset as (string_ref & Href & Hset).
  apply bind_Ok in Hset as (array & [Hlt ->]%store_Ok & Hset).
  simplify_eq. simpl.
  exists string, string_ref.
  split; [destruct value; simpl in Hstring; by simplify_eq |].
  split; [by apply list_lookup_insert_eq |].
  case_decide as Hsize.
  - replace (Z.to_nat (String_size string + 1)) with (length (String_data string)) in Href
      by (rewrite String_data_length; unfold String_size; lia).
    rewrite std_copy_all in Href. simplify_eq.
    unfold StringRef.bytes, String_data, String_size. simpl.
    rewrite Nat2Z.id. by rewrite take_app_length.
  - simplify_eq. unfold String_size in Hsize. destruct string; [done | simpl in Hsize; lia].
Qed.

Lemma update_row_string attribute_idx block i id d map total_length d' map' total_length'
    attribute :
  attributes d !! attribute_idx = Some attribute →
  attribute_t.type attribute = AttributeType.string →
  update_row (on_string_updated attribute_idx) block i id (d, (map, total_length))
    = Ok (d', (map', total_length')) →
  ∃ string attribute',
    row_string attribute_idx block i = Some string ∧
    attributes d' !! attribute_idx = Some attribute' ∧
    attribute_t.type attribute' = AttributeType.string ∧
    map' = <[id := string]> map.
Proof.
  intros Hattribute Htype Hrow.
  apply update_row_Ok in Hrow as (old & attributes' & x' & _ & Hset & Hcb & Heq).
  simpl in Hcb. unfold on_string_updated in Hcb.
  apply bind_Ok in Hcb as (attribute1 & Hattribute1%read_Ok & Hcb).
  apply bind_Ok in Hcb as (string_ref & Href%read_Ok & Hcb).
  simplify_eq. simpl in Hattribute1.
  apply setAttributeValues_lookup in Hset as [_ Hset].
  destruct (Hset _ _ Hattribute) as (value & attribute' & Hfield & Hvalue & Hattribute').
  simpl in Hfield. simplify_eq.
  destruct (setAttributeValue_type _ _ _ _ Hvalue) as [Htype' _].
  destruct (setAttributeValue_string _ _ _ _ Htype Hvalue) as (string & string_ref' & -> & Href' & Hbytes).
  simplify_eq.
  exists (StringRef.bytes string_ref), attribute1.
  split; [unfold row_string; by rewrite Hfield |].
  split; [done |]. split; [congruence | done].
Qed.

Lemma update_rows_string attribute_idx block ids :
  ∀ i d map total_length d' map' total_length' attribute,
  attributes d !! attribute_idx = Some attribute →
  attribute_t.type attribute = AttributeType.string →
  update_rows (on_string_updated attribute_idx) block i ids (d, (map, total_length))
    = Ok (d', (map', total_length')) →
  (∃ attribute', attributes d' !! attribute_idx = Some attribute' ∧
                 attribute_t.type attribute' = AttributeType.string) ∧
  ∀ k, map' !! k = match last_row_in (row_string attribute_idx block) i ids k with
                   | Some string => Some string
                   | None => map !! k
                   end.
Proof.
  induction ids as [| id ids IH];
    intros i d map total_length d' map' total_length' attribute Hattribute Htype Hrows.
  { simpl in Hrows. simplify_eq. eauto. }
  simpl in Hrows.
  apply bind_Ok in Hrows as ([d1 [map1 total_length1]] & Hrow & Hrows).
  destruct (update_row_string _ _ _ _ _ _ _ _ _ _ _ Hattribute Htype Hrow)
    as (string & attribute1 & Hstring & Hattribute1 & Htype1 & ->).
  destruct (IH _ _ _ _ _ _ _ _ Hattribute1 Htype1 Hrows) as (Hattribute' & Hmap).
  split; [done |].
  intros k. rewrite Hmap. simpl.
  destruct (last_row_in _ (S i) ids k) as [y |]; [done |].
  destruct (decide (id = k)) as [-> | Hne].
  - by rewrite lookup_insert_eq, Hstring.
  - by rewrite lookup_insert_ne.
Qed.

(** After a refresh [map] holds, for every key, the string of the last
    row sent for it, and what it held before for a key without a row. *)
Lemma update_blocks_string attribute_idx stream :
  ∀ d map total_length d' map' total_length' attribute,
  attributes d !! attribute_idx = Some attribute →
  attribute_t.type attribute = AttributeType.string →
  update_blocks (on_string_updated attribute_idx) stream (d, (map, total_length))
    = Ok (d', (map', total_length')) →
  (∃ attribute', attributes d' !! attribute_idx = Some attribute' ∧
                 attribute_t.null_values attribute' = attribute_t.null_values attribute) ∧
  ∀ k, map' !! k = match last_row (row_string attribute_idx) stream k with
                   | Some string => Some string
                   | None => map !! k
                   end.
Proof.
  assert (Hnull : ∀ stream d x,
            ends_in (λ '(d', _), ∀ attribute,
                       attributes d !! attribute_idx = Some attribute →
                       ∃ attribute', attributes d' !! attribute_idx = Some attribute' ∧
                         attribute_t.null_values attribute' = attribute_t.null_values attribute)
              (λ _, True)
              (update_blocks (on_string_updated attribute_idx) stream (d, x))).
  { intros stream' d x.
    apply update_blocks_ends_in; [| by eauto].
    intros block i id [d1 x1] [d2 x2] HP Hrow attribute Hattribute.
    destruct (HP attribute Hattribute) as (attribute1 & Hattribute1 & Hnull1).
    apply update_row_Ok in Hrow as (old & attributes' & x' & _ & Hset & _ & Heq).
    simplify_eq. simpl.
    apply setAttributeValues_lookup in Hset as [_ Hset].
    destruct (Hset _ _ Hattribute1) as (value & attribute' & _ & Hvalue & Hattribute').
    destruct (setAttributeValue_type _ _ _ _ Hvalue) as [_ Hnull'].
    exists attribute'. split; [done | congruence]. }
  induction stream as [| block stream IH];
    intros d map total_length d' map' total_length' attribute Hattribute Htype Hblocks.
  { simpl in Hblocks. simplify_eq. eauto. }
  pose proof (Hnull (block :: stream) d (map, total_length)) as Hnull'.
  rewrite Hblocks in Hnull'. simpl in Hnull'. split; [by apply Hnull' |].
  simpl in Hblocks. destruct (Block.id_column block) as [ids |] eqn:Hids; [| done].
  apply bind_Ok in Hblocks as ([d1 [map1 total_length1]] & Hrows & Hblocks).
  destruct (update_rows_string _ _ _ _ _ _ _ _ _ _ _ Hattribute Htype Hrows)
    as ((attribute1 & Hattribute1 & Htype1) & Hmap1).
  destruct (IH _ _ _ _ _ _ _ Hattribute1 Htype1 Hblocks) as (_ & Hmap).
  intros k. rewrite Hmap. simpl.
  destruct (last_row _ stream k) as [y |]; [done |].
  rewrite Hids. apply Hmap1.
Qed.

(** The loop of the pessimistic pass puts in [map] only strings of slots. *)
Lemma collect_rows_resident {E} attribute ids :
  ∀ d outdated_ids map total_length d1 outdated1 map1 total_length1,
  collect_rows (E := E) attribute ids (d, (outdated_ids, map, total_length))
    = Ok (d1, (outdated1, map1, total_length1)) →
  same_contents d d1 ∧
  map1 !! 0 = map !! 0 ∧
  ∀ k string, map1 !! k = Some string →
    map !! k = Some string ∨ (k ∈ ids ∧ resident_string attribute d k = Some string).
Proof.
  induction ids as [| id ids IH];
    intros d outdated_ids map total_length d1 outdated1 map1 total_length1 Hrows.
  { simpl in Hrows. simplify_eq. split; [apply same_contents_refl |]. split; [done | by left]. }
  simpl in Hrows.
  apply bind_Ok in Hrows as ([d' [[outdated' map'] total_length']] & Hrow & Hrows).
  apply IH in Hrows as (Hsame1 & Hzero1 & Hmap1).
  unfold collect_row in Hrow.
  destruct (decide (id = 0)) as [-> | Hid].
  { simplify_eq. split; [done |]. split; [done |]. intros k string Hk.
    destruct (Hmap1 k string Hk) as [? | [? ?]]; [by left | right].
    split; [by right | done]. }
  apply bind_Ok in Hrow as (cell & Hcell%read_Ok & Hrow).
  destruct (cell_outdated_spec cell id d Hcell) as (d'' & Houtdated & Hsame & Hreads).
  rewrite Houtdated in Hrow.
  destruct (up_to_date d (clock_reads d) id); simpl in Hrow.
  - apply bind_Ok in Hrow as (string_ref & Href%read_Ok & Hrow). simplify_eq.
    split; [by eapply same_contents_trans |].
    split; [by rewrite Hzero1, lookup_insert_ne |].
    intros k string Hk. destruct (Hmap1 k string Hk) as [Hin | [Hin Hresident]].
    + destruct (decide (k = id)) as [-> | Hne].
      * rewrite lookup_insert_eq in Hin. simplify_eq. right. split; [left |].
        unfold resident_string. by rewrite Href.
      * rewrite lookup_insert_ne in Hin by done. by left.
    + right. split; [by right |].
      unfold resident_string in *. by rewrite <- (getCellIdx_same _ _ _ Hsame).
  - simplify_eq. split; [by eapply same_contents_trans |]. split; [done |].
    intros k string Hk. destruct (Hmap1 k string Hk) as [? | [Hin Hresident]]; [by left | right].
    split; [by right |].
    unfold resident_string in *. by rewrite <- (getCellIdx_same _ _ _ Hsame).
Qed.

(** Every key of a completed optimistic loop other than 0 had a string
    in its slot. *)
Lemma fetch_strings_resident {E} attribute ids :
  ∀ d out d1 out1,
  fetch_strings (E := E) attribute ids (d, out) = Ok (false, d1, out1) →
  ∀ id, id ∈ ids → id ≠ 0 → is_Some (resident_string attribute d id).
Proof.
  induction ids as [| id ids IH]; intros d out d1 out1 Hfetch k Hk Hk0.
  { by apply elem_of_nil in Hk. }
  simpl in Hfetch.
  destruct (decide (id = 0)) as [-> | Hid].
  { apply elem_of_cons in Hk as [-> | Hk]; [done |]. by eapply IH. }
  apply bind_Ok in Hfetch as (cell & Hcell%read_Ok & Hfetch).
  destruct (cell_outdated_spec cell id d Hcell) as (d' & Houtdated & Hsame & Hreads).
  rewrite Houtdated in Hfetch.
  destruct (up_to_date d (clock_reads d) id); simpl in Hfetch; [| done].
  apply bind_Ok in Hfetch as (string_ref & Href%read_Ok & Hfetch).
  apply elem_of_cons in Hk as [-> | Hk].
  - unfold resident_string. rewrite Href. simpl. eauto.
  - unfold resident_string. rewrite <- (getCellIdx_same _ _ _ Hsame).
    by eapply IH.
Qed.

(** The optimistic loop changes nothing of the dictionary but the count
    of clock readings, whether it completes or not. *)
Lemma fetch_strings_same {E} attribute ids :
  ∀ d out flag d1 out1,
  fetch_strings (E := E) attribute ids (d, out) = Ok (flag, d1, out1) →
  same_contents d d1.
Proof.
  induction ids as [| id ids IH]; intros d out flag d1 out1 Hfetch.
  { simpl in Hfetch. simplify_eq. apply same_contents_refl. }
  simpl in Hfetch.
  destruct (decide (id = 0)) as [-> | Hid]; [by eapply IH |].
  apply bind_Ok in Hfetch as (cell & Hcell%read_Ok & Hfetch).
  destruct (cell_outdated_spec cell id d Hcell) as (d' & Houtdated & Hsame & Hreads).
  rewrite Houtdated in Hfetch.
  destruct (up_to_date d (clock_reads d) id); simpl in Hfetch; [| by simplify_eq].
  apply bind_Ok in Hfetch as (string_ref & Href%read_Ok & Hfetch).
  eapply same_contents_trans; [exact Hsame | by eapply IH].
Qed.

Lemma resident_string_same attribute d d' id :
  same_contents d d' → resident_string attribute d' id = resident_string attribute d id.
Proof. intros Hsame. unfold resident_string. by rewrite (getCellIdx_same _ _ _ Hsame). Qed.

(** The readings of the optimistic loop: it takes at most one for each
    key, and when it completes, every key other than 0 was up to date at
    one of them. *)
Lemma fetch_strings_readings {E} attribute ids :
  ∀ d out flag d1 out1,
  fetch_strings (E := E) attribute ids (d, out) = Ok (flag, d1, out1) →
  (clock_reads d ≤ clock_reads d1 ≤ clock_reads d + length ids)%nat ∧
  (flag = false → ∀ k, k ∈ ids → k ≠ 0 →
     ∃ n, (clock_reads d ≤ n < clock_reads d + length ids)%nat ∧ up_to_date d n k = true).
Proof.
  induction ids as [| id ids IH]; intros d out flag d1 out1 Hfetch.
  { simpl in Hfetch. simplify_eq. split; [lia |]. by intros _ k ?%elem_of_nil. }
  simpl in Hfetch.
  destruct (decide (id = 0)) as [-> | Hid].
  { apply IH in Hfetch as (Hreads & Hfresh). split; [simpl; lia |].
    intros Hflag k [-> | Hk]%elem_of_cons Hk0; [done |].
    destruct (Hfresh Hflag k Hk Hk0) as (n & Hn & Hup). exists n. split; [simpl; lia | done]. }
  apply bind_Ok in Hfetch as (cell & Hcell%read_Ok & Hfetch).
  destruct (cell_outdated_spec cell id d Hcell) as (d' & Houtdated & Hsame & Hreads).
  rewrite Houtdated in Hfetch.
  destruct (up_to_date d (clock_reads d) id) eqn:Hup; simpl in Hfetch.
  - apply bind_Ok in Hfetch as (string_ref & Href%read_Ok & Hfetch).
    apply IH in Hfetch as (Hreads1 & Hfresh). split; [simpl; lia |].
    intros Hflag k [-> | Hk]%elem_of_cons Hk0.
    + exists (clock_reads d). split; [simpl; lia | done].
    + destruct (Hfresh Hflag k Hk Hk0) as (n & Hn & Hup').
      exists n. split; [simpl; lia |]. by rewrite <- (up_to_date_same _ _ _ _ Hsame).
  - simplify_eq. split; [simpl; lia | done].
Qed.

(** The readings of the loop of the pessimistic pass: a key enters
    [outdated_ids] when a reading finds it outdated, it enters [map] when
    a reading finds it up to date, and every key other than 0 enters one
    of them. *)
Lemma collect_rows_readings {E} attribute ids :
  ∀ d outdated_ids map total_length d1 outdated1 map1 total_length1,
  collect_rows (E := E) attribute ids (d, (outdated_ids, map, total_length))
    = Ok (d1, (outdated1, map1, total_length1)) →
  (∀ k, is_Some (outdated1 !! k) →
     is_Some (outdated_ids !! k) ∨
     (k ∈ ids ∧ k ≠ 0 ∧
      ∃ n, (clock_reads d ≤ n < clock_reads d + length ids)%nat ∧ up_to_date d n k = false)) ∧
  (∀ k, is_Some (map1 !! k) →
     is_Some (map !! k) ∨
     (k ∈ ids ∧ k ≠ 0 ∧
      ∃ n, (clock_reads d ≤ n < clock_reads d + length ids)%nat ∧ up_to_date d n k = true)) ∧
  (∀ k, is_Some (outdated_ids !! k) → is_Some (outdated1 !! k)) ∧
  (∀ k, is_Some (map !! k) → is_Some (map1 !! k)) ∧
  (∀ k, k ∈ ids → k ≠ 0 → is_Some (map1 !! k) ∨ is_Some (outdated1 !! k)).
Proof.
  induction ids as [| id ids IH];
    intros d outdated_ids map total_length d1 outdated1 map1 total_length1 Hrows.
  { simpl in Hrows. simplify_eq. split_and!; [by left | by left | done | done |].
    by intros k ?%elem_of_nil. }
  simpl in Hrows.
  apply bind_Ok in Hrows as ([d' [[outdated' map'] total_length']] & Hrow & Hrows).
  apply IH in Hrows as (Houtdated1 & Hmap1 & Hkeep1 & Hkeep2 & Hall).
  unfold collect_row in Hrow.
  destruct (decide (id = 0)) as [-> | Hid].
  { simplify_eq. split_and!.
    - intros k Hk. destruct (Houtdated1 k Hk) as [? | (Hin & Hk0 & n & Hn & Hup)]; [by left |].
      right. split; [by right |]. split; [done |]. exists n. split; [simpl; lia | done].
    - intros k Hk. destruct (Hmap1 k Hk) as [? | (Hin & Hk0 & n & Hn & Hup)]; [by left |].
      right. split; [by right |]. split; [done |]. exists n. split; [simpl; lia | done].
    - done.
    - done.
    - intros k [-> | Hk]%elem_of_cons Hk0; [done | by apply Hall]. }
  apply bind_Ok in Hrow as (cell & Hcell%read_Ok & Hrow).
  destruct (cell_outdated_spec cell id d Hcell) as (d'' & Houtdated & Hsame & Hreads).
  rewrite Houtdated in Hrow.
  assert (Hlater : ∀ k (b : bool),
            (k ∈ ids ∧ k ≠ 0 ∧
             ∃ n, (clock_reads d'' ≤ n < clock_reads d'' + length ids)%nat ∧
                  up_to_date d'' n k = b) →
            k ∈ id :: ids ∧ k ≠ 0 ∧
            ∃ n, (clock_reads d ≤ n < clock_reads d + length (id :: ids))%nat ∧
                 up_to_date d n k = b).
  { intros k b (Hin & Hk0 & n & Hn & Hup). split; [by right |]. split; [done |].
    exists n. split; [simpl; lia |]. by rewrite <- (up_to_date_same _ _ _ _ Hsame). }
  assert (Hnow : ∀ b : bool, up_to_date d (clock_reads d) id = b →
            id ∈ id :: ids ∧ id ≠ 0 ∧
            ∃ n, (clock_reads d ≤ n < clock_reads d + length (id :: ids))%nat ∧
                 up_to_date d n id = b).
  { intros b Hb. split; [left |]. split; [done |].
    exists (clock_reads d). split; [simpl; lia | done]. }
  destruct (up_to_date d (clock_reads d) id) eqn:Hup; simpl in Hrow.
  - apply bind_Ok in Hrow as (string_ref & Href%read_Ok & Hrow). simplify_eq. split_and!.
    + intros k Hk. destruct (Houtdated1 k Hk) as [? | Hfound]; [by left |].
      right. by apply Hlater.
    + intros k Hk. destruct (Hmap1 k Hk) as [Hin | Hfound]; [| right; by apply Hlater].
      destruct (decide (k = id)) as [-> | Hne]; [right; by apply Hnow |].
      left. by rewrite lookup_insert_ne in Hin.
    + done.
    + intros k Hk. apply Hkeep2.
      destruct (decide (k = id)) as [-> | Hne]; [by rewrite lookup_insert_eq |].
      by rewrite lookup_insert_ne.
    + intros k [-> | Hk]%elem_of_cons Hk0; [| by apply Hall].
      left. apply Hkeep2. by rewrite lookup_insert_eq.
  - simplify_eq. split_and!.
    + intros k Hk. destruct (Houtdated1 k Hk) as [Hin | Hfound]; [| right; by apply Hlater].
      destruct (decide (k = id)) as [-> | Hne]; [right; by apply Hnow |].
      left. by rewrite lookup_insert_ne in Hin.
    + intros k Hk. destruct (Hmap1 k Hk) as [? | Hfound]; [by left |].
      right. by apply Hlater.
    + intros k Hk. apply Hkeep1.
      destruct (decide (k = id)) as [-> | Hne]; [by rewrite lookup_insert_eq |].
      by rewrite lookup_insert_ne.
    + done.
    + intros k [-> | Hk]%elem_of_cons Hk0; [| by apply Hall].
      right. apply Hkeep1. by rewrite lookup_insert_eq.
Qed.

(** The pessimistic pass, when it returns. It asked the source at most
    once, for the distinct keys that a reading of its loop found outdated;
    the column holds one string per key of [ids], in their order, and the
    string is a function of the key: the string of the last row the source
    sent for the key, if it sent one; else the null value for key 0 and for
    a requested key that no reading found up to date, and the string of
    the slot for a key that a reading found up to date. *)
Lemma getItems_pessimistic_keyed attribute_idx ids out d attribute d' out' :
  attributes d !! attribute_idx = Some attribute →
  attribute_t.type attribute = AttributeType.string →
  getItems_pessimistic attribute_idx ids out d = Ok (d', out') →
  ∃ required_ids (f : Z → String),
    out' = insert_all ColumnString.empty (f <$> ids) ∧
    NoDup required_ids ∧
    (∀ k, k ∈ required_ids →
       k ∈ ids ∧ k ≠ 0 ∧
       ∃ n, (clock_reads d ≤ n < clock_reads d + length ids)%nat ∧ up_to_date d n k = false) ∧
    (∀ k, k ∈ ids → k ≠ 0 →
       (∀ n, (clock_reads d ≤ n < clock_reads d + length ids)%nat → up_to_date d n k = false) →
       k ∈ required_ids) ∧
    loadIds_calls d'
      = loadIds_calls d ++ (if decide (required_ids = []) then [] else [required_ids]) ∧
    ∀ id, id ∈ ids →
      match last_row (row_string attribute_idx) (answer d required_ids) id with
      | Some string => f id = string
      | None =>
          if decide (id = 0)
          then f id = null_values_t.of_String (attribute_t.null_values attribute)
          else
            (f id = null_values_t.of_String (attribute_t.null_values attribute) ∧
             id ∈ required_ids) ∨
            (resident_string attribute d id = Some (f id) ∧
             ∃ n, (clock_reads d ≤ n < clock_reads d + length ids)%nat ∧
                  up_to_date d n id = true)
      end.
Proof.
  intros Hattribute Htype Hget. unfold getItems_pessimistic in Hget.
  rewrite (read_lookup _ _ _ _ Hattribute) in Hget. simpl in Hget.
  apply bind_Ok in Hget as ([d2 [[outdated2 map2] total_length2]] & Hcollect & Hget).
  pose proof (collect_rows_readings _ _ _ _ _ _ _ _ _ _ Hcollect)
    as (Houtdated2 & Hfresh2 & _ & _ & Hall2).
  apply collect_rows_resident in Hcollect as (Hsame2 & Hzero2 & Hmap2).
  simpl in Houtdated2, Hfresh2.
  apply bind_Ok in Hget as ([d3 [map3 total_length3]] & Hupdate & Hget).
  apply bind_Ok in Hget as (attribute3 & Hattribute3%read_Ok & Hget).
  simplify_eq.
  assert (Hattribute2 : attributes d2 !! attribute_idx = Some attribute).
  { destruct Hsame2 as (_ & -> & _). done. }
  assert (Hsource2 : source_ptr d2 = source_ptr d) by (by destruct Hsame2 as (_ & _ & _ & -> & _)).
  assert (Hcalls2 : loadIds_calls d2 = loadIds_calls d).
  { by destruct Hsame2 as (_ & _ & _ & _ & _ & ->). }
  assert (Hrequest : keys outdated2 = [] ↔ outdated2 = ∅).
  { split; [apply keys_nil | by intros ->]. }
  assert (attribute_t.null_values attribute3 = attribute_t.null_values attribute ∧
          loadIds_calls d'
            = loadIds_calls d ++ (if decide (keys outdated2 = []) then [] else [keys outdated2]) ∧
          ∀ k, map3 !! k
               = match last_row (row_string attribute_idx) (answer d (keys outdated2)) k with
                 | Some string => Some string
                 | None => map2 !! k
                 end) as (Hnull & Hcalls3 & Hmap3).
  { unfold answer. destruct (decide (outdated2 = ∅)) as [Hempty | Hempty].
    - simplify_eq. rewrite !decide_True by done. rewrite app_nil_r.
      split; [congruence |]. done.
    - rewrite !decide_False by (by rewrite Hrequest).
      pose proof (update_frame (on_string_updated attribute_idx) (keys outdated2) d2
                    (map2, total_length2)) as Hframe.
      destruct (update (keys outdated2) (on_string_updated attribute_idx)
                  (d2, (map2, total_length2)))
        as [[d4 [map4 total_length4]] | [e s] | u] eqn:Hupdate'; simpl in Hupdate; [| done | done].
      simplify_eq. simpl in Hframe. destruct Hframe as (_ & Hcalls4 & _).
      unfold update in Hupdate'.
      apply update_blocks_string with (attribute := attribute) in Hupdate'
        as ((attribute4 & Hattribute4 & Hnull4) & Hmap4); [| done | done].
      split; [congruence |]. split; [by rewrite Hcalls4, Hcalls2 |].
      by rewrite <- Hsource2. }
  exists (keys outdated2),
    (λ id, default (null_values_t.of_String (attribute_t.null_values attribute)) (map3 !! id)).
  split; [by rewrite emit_insert_all, Hnull |].
  split; [apply NoDup_keys |].
  split.
  { intros k Hk%elem_of_keys. destruct (Houtdated2 k Hk) as [Hin | ?]; [| done].
    rewrite lookup_empty in Hin. by destruct Hin. }
  split.
  { intros k Hk Hk0 Hnever. apply elem_of_keys.
    destruct (Hall2 k Hk Hk0) as [Hin | ?]; [| done].
    destruct (Hfresh2 k Hin) as [Hin' | (_ & _ & n & Hn & Hup)].
    - rewrite lookup_empty in Hin'. by destruct Hin'.
    - change (up_to_date (lock ScopedReadRWLock d) n k) with (up_to_date d n k) in Hup.
      by rewrite (Hnever n Hn) in Hup. }
  split; [done |].
  intros id Hid. rewrite Hmap3.
  destruct (last_row (row_string attribute_idx) (answer d (keys outdated2)) id)
    as [string |]; [done |].
  destruct (decide (id = 0)) as [-> | Hid0].
  { by rewrite Hzero2, lookup_empty. }
  destruct (map2 !! id) as [string |] eqn:Hin; simpl.
  - right. split.
    + destruct (Hmap2 id string Hin) as [Hempty | [_ Hresident]]; [| done].
      by rewrite lookup_empty in Hempty.
    + destruct (Hfresh2 id) as [Hin' | (_ & _ & Hfound)]; [by rewrite Hin | | done].
      rewrite lookup_empty in Hin'. by destruct Hin'.
  - left. split; [done |]. apply elem_of_keys.
    destruct (Hall2 id Hid Hid0) as [Hin' | ?]; [| done].
    rewrite Hin in Hin'. by destruct Hin'.
Qed.

(** The string lookup, when it returns. It asked the source at most
    once, for the distinct keys that a reading of the pessimistic loop
    found outdated. The column is [base], which is [out] when the
    optimistic pass completed and empty otherwise, followed by one string
    per key of [ids], in their order; the string is a function of the key:
    the string of the last row the source sent for the key, if it sent
    one; else the null value for key 0 and for a requested key that no
    reading found up to date, and the string of the slot for a key that a
    reading found up to date. *)
Lemma getItems_string_keyed attribute_idx ids out d attribute d' out' :
  attributes d !! attribute_idx = Some attribute →
  attribute_t.type attribute = AttributeType.string →
  getItems_string attribute_idx ids out d = Ok (d', out') →
  ∃ base required_ids (f : Z → String),
    out' = insert_all base (f <$> ids) ∧
    (base = out ∧ required_ids = [] ∨ base = ColumnString.empty) ∧
    NoDup required_ids ∧
    (∀ k, k ∈ required_ids →
       k ∈ ids ∧ k ≠ 0 ∧
       ∃ n, (clock_reads d ≤ n < clock_reads d + 2 * length ids)%nat ∧
            up_to_date d n k = false) ∧
    (∀ k, k ∈ ids → k ≠ 0 →
       (∀ n, (clock_reads d ≤ n < clock_reads d + 2 * length ids)%nat →
          up_to_date d n k = false) →
       k ∈ required_ids) ∧
    loadIds_calls d'
      = loadIds_calls d ++ (if decide (required_ids = []) then [] else [required_ids]) ∧
    ∀ id, id ∈ ids →
      match last_row (row_string attribute_idx) (answer d required_ids) id with
      | Some string => f id = string
      | None =>
          if decide (id = 0)
          then f id = null_values_t.of_String (attribute_t.null_values attribute)
          else
            (f id = null_values_t.of_String (attribute_t.null_values attribute) ∧
             id ∈ required_ids) ∨
            (resident_string attribute d id = Some (f id) ∧
             ∃ n, (clock_reads d ≤ n < clock_reads d + 2 * length ids)%nat ∧
                  up_to_date d n id = true)
      end.
Proof.
  intros Hattribute Htype Hget. unfold getItems_string in Hget.
  rewrite (read_lookup _ _ _ _ Hattribute) in Hget. simpl in Hget.
  apply bind_Ok in Hget as ([[flag d1] out1] & Hfetch & Hget).
  pose proof (fetch_strings_same _ _ _ _ _ _ _ Hfetch) as Hsame.
  pose proof (fetch_strings_readings _ _ _ _ _ _ _ Hfetch) as (Hreads & Hfound).
  simpl in Hreads, Hfound.
  assert (Hsame1 : same_contents d d1).
  { eapply same_contents_trans; [apply same_contents_lock | exact Hsame]. }
  destruct flag; simpl in Hget.
  - apply getItems_pessimistic_keyed with (attribute := attribute) in Hget
      as (required_ids & f & -> & Hnodup & Hrequired & Hnever & Hcalls & Hf);
      [| by destruct Hsame1 as (_ & -> & _) | done].
    exists ColumnString.empty, required_ids, f.
    split; [done |]. split; [by right |]. split; [done |].
    split.
    { intros k Hk. destruct (Hrequired k Hk) as (Hin & Hk0 & n & Hn & Hup).
      split; [done |]. split; [done |]. exists n. split; [lia |].
      by rewrite <- (up_to_date_same _ _ _ _ Hsame1). }
    split.
    { intros k Hk Hk0 Hnever'. apply Hnever; [done | done |].
      intros n Hn. rewrite (up_to_date_same _ _ _ _ Hsame1). apply Hnever'. lia. }
    split; [by destruct Hsame1 as (_ & _ & _ & _ & _ & <-) |].
    intros id Hid. specialize (Hf id Hid).
    assert (Hanswer : answer d1 required_ids = answer d required_ids).
    { unfold answer. by destruct Hsame1 as (_ & _ & _ & -> & _). }
    rewrite Hanswer in Hf.
    destruct (last_row (row_string attribute_idx) (answer d required_ids) id); [done |].
    destruct (decide (id = 0)) as [Hid0 | Hid0]; [done |].
    destruct Hf as [? | (Hresident & n & Hn & Hup)]; [by left | right].
    split; [by rewrite <- (resident_string_same _ _ _ _ Hsame1) |].
    exists n. split; [lia |]. by rewrite <- (up_to_date_same _ _ _ _ Hsame1).
  - simplify_eq.
    pose proof (fetch_strings_resident _ _ _ _ _ _ Hfetch) as Hresident.
    apply fetch_strings_completed in Hfetch as (_ & _ & ->).
    exists out, [], (optimistic_string attribute d).
    split.
    { by rewrite (optimistic_strings_same _ _ _ _ (same_contents_lock ScopedReadRWLock d)). }
    split; [by left |]. split; [apply NoDup_nil_2 |].
    split; [by intros k ?%elem_of_nil |].
    split.
    { intros k Hk Hk0 Hnever. destruct (Hfound eq_refl k Hk Hk0) as (n & Hn & Hup).
      change (up_to_date (lock ScopedReadRWLock d) n k) with (up_to_date d n k) in Hup.
      rewrite Hnever in Hup by lia. done. }
    split.
    { destruct Hsame1 as (_ & _ & _ & _ & _ & ->). by rewrite app_nil_r. }
    intros id Hid. simpl. unfold optimistic_string.
    destruct (decide (id = 0)) as [-> | Hid0]; [done |].
    right. destruct (Hresident id Hid Hid0) as [string Hstring].
    change (resident_string attribute (lock ScopedReadRWLock d) id)
      with (resident_string attribute d id) in Hstring.
    split; [by rewrite Hstring |].
    destruct (Hfound eq_refl id Hid Hid0) as (n & Hn & Hup).
    exists n. split; [lia | done].
Qed.
End string_refresh.

(** ** Order of the output and duplicated keys *)

Section order.
Context `{Platform}.

Import CacheDictionary.

(** C8, as the code has it. The scalar getter of the type of the
    attribute, when no cell expires between the clock readings of its
    first loop: it asks the source at most once, for the distinct keys
    other than 0 that are not up to date, and position [j] of the output
    holds the value of [ids[j]], a function of the key alone (the null
    value for key 0, the value of its slot for a key that is up to date,
    else the value of the last row for the key in the answer of the source
    to that request, and the null value when the answer has none), so all
    positions of a duplicated key hold the same value. The string getter,
    at any clock: it asks the source at most once, for distinct keys of
    [ids] other than 0 that a reading found outdated, among them every
    such key that no reading found up to date; the column holds one string
    per key of [ids], in their order, after what it held on entry when the
    optimistic pass completes and alone otherwise; and the string is a
    function of the key: the string of the last row for the key in the
    answer of the source to that request, if it has one; else the null
    value for key 0 and for a requested key, or the string of its slot for
    a key that a reading found up to date. So all positions of a
    duplicated key hold the same string. *)
Theorem C8_order_and_duplicates (T : scalar) (attribute_idx string_idx : nat)
    (ids : list Z) (out : list (cpp T)) (out_s : ColumnString.t) (d : t)
    (attribute string_attribute : attribute_t.t) :
  (attributes d !! attribute_idx = Some attribute →
   attribute_t.type attribute = LC_TYPE T →
   steady d (length ids) →
   match getItems T attribute_idx ids out d with
   | Ok (d', out') =>
       ∃ required_ids,
         NoDup required_ids ∧
         (∀ k, k ∈ required_ids ↔ k ∈ ids ∧ k ≠ 0 ∧ up_to_date d (clock_reads d) k = false) ∧
         loadIds_calls d'
           = loadIds_calls d ++ (if decide (required_ids = []) then [] else [required_ids]) ∧
         (∀ j k, ids !! j = Some k →
            out' !! j = value_for T attribute attribute_idx d
                          (IDictionarySource.loadIds (source_ptr d) required_ids) k) ∧
         (∀ j j' k, ids !! j = Some k → ids !! j' = Some k → out' !! j = out' !! j')
   | _ => True
   end) ∧
  (attributes d !! string_idx = Some string_attribute →
   attribute_t.type string_attribute = AttributeType.string →
   match getItems_string string_idx ids out_s d with
   | Ok (d', out') =>
       ∃ base required_ids (f : Z → String),
         out' = insert_all base (f <$> ids) ∧
         (base = out_s ∧ required_ids = [] ∨ base = ColumnString.empty) ∧
         NoDup required_ids ∧
         (∀ k, k ∈ required_ids →
            k ∈ ids ∧ k ≠ 0 ∧
            ∃ n, (clock_reads d ≤ n < clock_reads d + 2 * length ids)%nat ∧
                 up_to_date d n k = false) ∧
         (∀ k, k ∈ ids → k ≠ 0 →
            (∀ n, (clock_reads d ≤ n < clock_reads d + 2 * length ids)%nat →
               up_to_date d n k = false) →
            k ∈ required_ids) ∧
         loadIds_calls d'
           = loadIds_calls d ++ (if decide (required_ids = []) then [] else [required_ids]) ∧
         ∀ id, id ∈ ids →
           match last_row (row_string string_idx) (answer d required_ids) id with
           | Some string => f id = string
           | None =>
               if decide (id = 0)
               then f id = null_values_t.of_String (attribute_t.null_values string_attribute)
               else
                 (f id = null_values_t.of_String (attribute_t.null_values string_attribute) ∧
                  id ∈ required_ids) ∨
                 (resident_string string_attribute d id = Some (f id) ∧
                  ∃ n, (clock_reads d ≤ n < clock_reads d + 2 * length ids)%nat ∧
                       up_to_date d n id = true)
           end
   | _ => True
   end).
Proof.
  split.
  - intros Hattribute Htype Hsteady.
    destruct (getItems T attribute_idx ids out d) as [[d' out'] | e | u] eqn:Hget; [| done | done].
    destruct (getItems_steady T _ _ _ _ _ _ _ Hattribute Htype Hsteady Hget)
      as (required_ids & Hnodup & Hrequired & Hcalls & _ & Hout).
    exists required_ids. split_and!; [done | done | done | done |].
    intros j j' k Hj Hj'. by rewrite (Hout j k Hj), (Hout j' k Hj').
  - intros Hattribute Htype.
    destruct (getItems_string string_idx ids out_s d) as [[d' out'] | e | u] eqn:Hget;
      [| done | done].
    exact (getItems_string_keyed _ _ _ _ _ _ _ Hattribute Htype Hget).
Qed.
End order.

(** No cell of the example dictionary, as constructed, is up to date at
    any reading of the clock. *)
Lemma example_dictionary_steady unasked count :
  steady (H := example_platform) (example_dictionary unasked) count.
Proof.
  assert (Hnever : ∀ n id,
            up_to_date (H := example_platform) (example_dictionary unasked) n id = false).
  { intros n id. unfold up_to_date.
    change (CacheDictionary.cells (H := example_platform) (example_dictionary unasked))
      with (replicate 4 {| cell_metadata_t.id := 0; cell_metadata_t.expires_at := 0 |}).
    destruct (replicate 4 _ !! _) as [cell |] eqn:Hcell; [| done].
    apply lookup_replicate in Hcell as [-> _].
    apply bool_decide_eq_false_2. simpl. unfold seconds. lia. }
  intros n id _. by rewrite !Hnever.
Qed.

(** No cell expires between readings at which every cell compares with
    its [expires_at] as at the current one. *)
Lemma steady_cells `{Platform} (d : CacheDictionary.t) (count : nat) :
  (∀ cell n, cell ∈ CacheDictionary.cells d →
     (CacheDictionary.clock_reads d ≤ n < CacheDictionary.clock_reads d + count)%nat →
     system_clock_now n < cell_metadata_t.expires_at cell
     ↔ system_clock_now (CacheDictionary.clock_reads d) < cell_metadata_t.expires_at cell) →
  steady d count.
Proof.
  intros Hcells n id Hn. unfold up_to_date.
  destruct (CacheDictionary.cells d !! Z.to_nat (getCellIdx d id)) as [cell |] eqn:Hcell; [| done].
  apply list_elem_of_lookup_2 in Hcell.
  apply bool_decide_ext. by rewrite (Hcells cell n Hcell Hn).
Qed.

(** In the example dictionary after a lookup of key 4, whose cell expires
    at 10 seconds, no cell expires between the readings 1, ..., 5. *)
Lemma example_after_4_steady :
  steady (H := example_platform) (example_after [] [[4]]) 5.
Proof.
  apply steady_cells.
  assert (Hcells : CacheDictionary.cells (H := example_platform) (example_after [] [[4]])
                   = [ {| cell_metadata_t.id := 0; cell_metadata_t.expires_at := 0 |};
                       {| cell_metadata_t.id := 4; cell_metadata_t.expires_at := 10000000000 |};
                       {| cell_metadata_t.id := 0; cell_metadata_t.expires_at := 0 |};
                       {| cell_metadata_t.id := 0; cell_metadata_t.expires_at := 0 |} ])
    by (vm_compute; reflexivity).
  assert (Hreads : CacheDictionary.clock_reads (H := example_platform) (example_after [] [[4]])
                   = 1%nat) by (vm_compute; reflexivity).
  rewrite Hcells, Hreads. intros cell n Hcell Hn. simpl. unfold seconds.
  repeat (apply elem_of_cons in Hcell as [-> | Hcell]; [simpl; lia |]).
  by apply elem_of_nil in Hcell.
Qed.

(** The example dictionary after a lookup of key 4, read at the keys
    4, 1, 0, 1, 4: key 4 is up to date, key 1 is not and is asked of the
    source. *)
Lemma C8_witness :
  match getItems (H := example_platform) UInt32 0 [4; 1; 0; 1; 4] [0; 0; 0; 0; 0]
          (example_after [] [[4]]) with
  | Ok (d', out') =>
      ∃ required_ids,
        NoDup required_ids ∧
        (∀ k, k ∈ required_ids ↔
           k ∈ [4; 1; 0; 1; 4] ∧ k ≠ 0 ∧
           up_to_date (H := example_platform) (example_after [] [[4]])
             (CacheDictionary.clock_reads (example_after [] [[4]])) k = false) ∧
        CacheDictionary.loadIds_calls d'
          = CacheDictionary.loadIds_calls (H := example_platform) (example_after [] [[4]])
            ++ (if decide (required_ids = []) then [] else [required_ids]) ∧
        (∀ j k, [4; 1; 0; 1; 4] !! j = Some k →
           out' !! j = value_for (H := example_platform) UInt32
                         (example_after_attribute_x [] [[4]]) 0 (example_after [] [[4]])
                         (IDictionarySource.loadIds
                            (CacheDictionary.source_ptr (example_after [] [[4]])) required_ids)
                         k) ∧
        (∀ j j' k, [4; 1; 0; 1; 4] !! j = Some k → [4; 1; 0; 1; 4] !! j' = Some k →
           out' !! j = out' !! j')
  | _ => True
  end ∧
  match getItems_string (H := example_platform) 1 [4; 1; 0; 1; 4] ColumnString.empty
          (example_after [] [[4]]) with
  | Ok (d', out') =>
      ∃ base required_ids (f : Z → String),
        out' = insert_all base (f <$> [4; 1; 0; 1; 4]) ∧
        (base = ColumnString.empty ∧ required_ids = [] ∨ base = ColumnString.empty) ∧
        NoDup required_ids ∧
        (∀ k, k ∈ required_ids →
           k ∈ [4; 1; 0; 1; 4] ∧ k ≠ 0 ∧
           ∃ n, (CacheDictionary.clock_reads (H := example_platform) (example_after [] [[4%Z]])
                 ≤ n < CacheDictionary.clock_reads (H := example_platform)
                         (example_after [] [[4%Z]]) + 2 * 5)%nat ∧
                up_to_date (H := example_platform) (example_after [] [[4]]) n k = false) ∧
        (∀ k, k ∈ [4; 1; 0; 1; 4] → k ≠ 0 →
           (∀ n, (CacheDictionary.clock_reads (H := example_platform) (example_after [] [[4%Z]])
                  ≤ n < CacheDictionary.clock_reads (H := example_platform)
                          (example_after [] [[4%Z]]) + 2 * 5)%nat →
              up_to_date (H := example_platform) (example_after [] [[4]]) n k = false) →
           k ∈ required_ids) ∧
        CacheDictionary.loadIds_calls d'
          = CacheDictionary.loadIds_calls (H := example_platform) (example_after [] [[4]])
            ++ (if decide (required_ids = []) then [] else [required_ids]) ∧
        ∀ id, id ∈ [4; 1; 0; 1; 4] →
          match last_row (row_string (H := example_platform) 1)
                  (answer (example_after [] [[4]]) required_ids) id with
          | Some string => f id = string
          | None =>
              if decide (id = 0)
              then f id = null_values_t.of_String (H := example_platform)
                            (attribute_t.null_values (example_after_attribute_s [] [[4]]))
              else
                (f id = null_values_t.of_String (H := example_platform)
                          (attribute_t.null_values (example_after_attribute_s [] [[4]])) ∧
                 id ∈ required_ids) ∨
                (resident_string (H := example_platform) (example_after_attribute_s [] [[4]])
                   (example_after [] [[4]]) id = Some (f id) ∧
                 ∃ n, (CacheDictionary.clock_reads (H := example_platform)
                         (example_after [] [[4%Z]])
                       ≤ n < CacheDictionary.clock_reads (H := example_platform)
                               (example_after [] [[4%Z]]) + 2 * 5)%nat ∧
                      up_to_date (H := example_platform) (example_after [] [[4]]) n id = true)
          end
  | _ => True
  end.
Proof.
  destruct (C8_order_and_duplicates (H := example_platform) UInt32 0 1 [4; 1; 0; 1; 4]
              [0; 0; 0; 0; 0] ColumnString.empty (example_after [] [[4]])
              (example_after_attribute_x [] [[4]]) (example_after_attribute_s [] [[4]]))
    as [Hscalar Hstring].
  split.
  - apply Hscalar.
    + unfold example_after_attribute_x.
      destruct (lookup_lt_is_Some_2
                  (CacheDictionary.attributes (H := example_platform) (example_after [] [[4]]))
                  0%nat) as [attribute ->]; [vm_compute; lia | reflexivity].
    + vm_compute. reflexivity.
    + apply example_after_4_steady.
  - apply Hstring.
    + unfold example_after_attribute_s.
      destruct (lookup_lt_is_Some_2
                  (CacheDictionary.attributes (H := example_platform) (example_after [] [[4]]))
                  1%nat) as [attribute ->]; [vm_compute; lia | reflexivity].
    + vm_compute. reflexivity.
Defined.

(** What the two lookups of the witness return: 7 and "a" for key 4, from
    the slot; 6 and "k" for key 1, from the source. *)
Lemma example_lookup_4_1_0_1_4 :
  output (getItems (H := example_platform) UInt32 0 [4; 1; 0; 1; 4] [0; 0; 0; 0; 0]
            (example_after [] [[4]]))
    = Some [7; 6; 0; 6; 7] ∧
  output (getItems_string (H := example_platform) 1 [4; 1; 0; 1; 4] ColumnString.empty
            (example_after [] [[4]]))
    = Some (insert_all ColumnString.empty [["a"%byte]; ["k"%byte]; []; ["k"%byte]; ["a"%byte]]).
Proof. vm_compute. done. Qed.

(** C8, as the claim has it, fails when a cell expires between two
    readings of the clock. The source of this example sends with every
    answer a row that gives key 2 the value 1, and has the value 3 for key
    2 when asked for it. After a lookup of key 4 the cell of key 2 expires
    at 10 seconds and two readings were taken. A lookup of ten times key 2
    reads the clock at 2, ..., 11 seconds: eight positions find the value
    1 up to date, the last two find the cell expired and receive 3 from
    the refresh. *)
Lemma C8_counterexample :
  ∃ out',
    output (getItems (H := example_platform) UInt32 0 (replicate 10 2) (replicate 10 0)
              (example_after [(2, 1, [])] [[4]])) = Some out' ∧
    replicate 10 2 !! 7%nat = Some 2 ∧
    replicate 10 2 !! 8%nat = Some 2 ∧
    out' !! 7%nat = Some 1 ∧
    out' !! 8%nat = Some 3.
Proof. exists [1; 1; 1; 1; 1; 1; 1; 1; 3; 3]. vm_compute. done. Qed.

(** ** Key 0 in the string lookup *)

(** C5. The source of this example sends with every answer a row for key
    0 whose string is "z"; the null value of the attribute [s] is the
    empty string. A string lookup of the keys 4 and 0 on the dictionary as
    constructed misses key 4, refreshes, and returns "a" for key 4 and "z"
    for key 0, where the claim has the null value; the scalar getter
    returns the null value 0 at that position, and so does the string
    getter with a source that sends no row for key 0. *)
Theorem C5_string_getter_key_zero :
  output (getString (H := example_platform) "s" [4; 0] ColumnString.empty
            (example_dictionary [(0, 1, ["z"%byte])]))
    = Some (insert_all ColumnString.empty [["a"%byte]; ["z"%byte]]) ∧
  null_values_t.of_String (H := example_platform)
    (attribute_t.null_values example_string_attribute) = [] ∧
  output (getString (H := example_platform) "s" [4; 0] ColumnString.empty (example_dictionary []))
    = Some (insert_all ColumnString.empty [["a"%byte]; []]) ∧
  output (get (H := example_platform) UInt32 "x" [4; 0] [0; 0]
            (example_dictionary [(0, 1, ["z"%byte])]))
    = Some [7; 0].
Proof. vm_compute. done. Qed.

(** C10. With the same source: a lookup of key 1 leaves key 1 in slot 0,
    the slot of key 0; a lookup of key 4 then installs the row of key 0
    there, which evicts key 1 and stores "z". A later string lookup of the
    keys 5 and 0 refreshes key 5 and returns "z", the string stored for
    key 0, at the position of key 0, where the claim has the stored value
    out of reach; the scalar getter returns the null value there. *)
Theorem C10_stored_zero_row_returned :
  cell_metadata_t.id <$>
    CacheDictionary.cells (H := example_platform) (example_after [(0, 1, ["z"%byte])] [[1]])
    = [1; 0; 0; 0] ∧
  cell_metadata_t.id <$>
    CacheDictionary.cells (H := example_platform) (example_after [(0, 1, ["z"%byte])] [[1]; [4]])
    = [0; 4; 0; 0] ∧
  resident_string (H := example_platform)
    (example_after_attribute_s [(0, 1, ["z"%byte])] [[1]; [4]])
    (example_after [(0, 1, ["z"%byte])] [[1]; [4]]) 0 = Some ["z"%byte] ∧
  output (getString (H := example_platform) "s" [5; 0] ColumnString.empty
            (example_after [(0, 1, ["z"%byte])] [[1]; [4]]))
    = Some (insert_all ColumnString.empty [["b"%byte]; ["z"%byte]]) ∧
  output (get (H := example_platform) UInt32 "x" [5; 0; 1] [0; 0; 0]
            (example_after [(0, 1, ["z"%byte])] [[1]; [4]]))
    = Some [9; 0; 6].
Proof. vm_compute. done. Qed.

(** * Further properties *)

(** ** The capacity *)

(** What the decrement, the shifts and the increment compute from a
    request whose decrement is not 0. *)
Lemma round_up_to_power_of_two_eq n :
  0 < (n - 1) mod 2 ^ 64 →
  round_up_to_power_of_two n = 2 ^ (Z.log2 ((n - 1) mod 2 ^ 64) + 1) mod 2 ^ 64.
Proof.
  intros Hm. unfold round_up_to_power_of_two, wrap_unsigned.
  set (m := (n - 1) mod 2 ^ 64) in *.
  assert (Hlt : m < 2 ^ 64) by (apply Z.mod_pos_bound; lia).
  pose proof (smeared_start m) as H1.
  apply (smeared_step m 1) in H1; [| lia].
  apply (smeared_step m 2) in H1; [| lia].
  apply (smeared_step m 4) in H1; [| lia].
  apply (smeared_step m 8) in H1; [| lia].
  apply (smeared_step m 16) in H1; [| lia].
  apply (smeared_step m 32) in H1; [| lia].
  change (2 * 1) with 2 in H1. change (2 * 2) with 4 in H1.
  change (2 * 4) with 8 in H1. change (2 * 8) with 16 in H1.
  change (2 * 16) with 32 in H1. change (2 * 32) with 64 in H1.
  apply smeared_64 in H1; [| lia]. rewrite H1.
  rewrite Z.ones_equiv. f_equal. lia.
Qed.

Lemma round_up_to_power_of_two_one n :
  (n - 1) mod 2 ^ 64 = 0 → round_up_to_power_of_two n = 1.
Proof.
  intros Hm. unfold round_up_to_power_of_two, wrap_unsigned. rewrite Hm. reflexivity.
Qed.

(** X1. For a request between 1 and 2^63 the capacity is a power of two,
    it is not below the request, and it is below twice the request: the
    least power of two that holds the request. *)
Theorem round_up_to_power_of_two_in_range n :
  1 ≤ n ≤ 2 ^ 63 →
  ∃ k, 0 ≤ k ≤ 63 ∧ round_up_to_power_of_two n = 2 ^ k ∧
       n ≤ round_up_to_power_of_two n < 2 * n.
Proof.
  intros Hn. exists (Z.log2_up n).
  rewrite round_up_to_power_of_two_log2_up by done.
  assert (Hk : 0 ≤ Z.log2_up n) by apply Z.log2_up_nonneg.
  destruct (decide (n = 1)) as [-> | Hn1]; [change (Z.log2_up 1) with 0 in *; lia |].
  pose proof (Z.log2_up_spec n ltac:(lia)) as [Hlow Hhigh].
  split; [| split; [done |]].
  - split; [done |].
    apply Z.log2_up_le_pow2; lia.
  - split; [done |].
    replace (2 ^ Z.log2_up n) with (2 * 2 ^ Z.pred (Z.log2_up n)).
    + lia.
    + rewrite <- Z.pow_succ_r.
      * f_equal. lia.
      * assert (0 < Z.log2_up n) by (apply Z.log2_up_pos; lia). lia.
Qed.

Lemma round_up_to_power_of_two_in_range_witness :
  ∃ k, 0 ≤ k ≤ 63 ∧ round_up_to_power_of_two 1000 = 2 ^ k ∧
       1000 ≤ round_up_to_power_of_two 1000 < 2 * 1000.
Proof. apply (round_up_to_power_of_two_in_range 1000). lia. Defined.

(** X2. A request above 2^63 has no power of two of [std::size_t] above
    it: the increment wraps and the capacity is 0. *)
Theorem round_up_to_power_of_two_overflow n :
  2 ^ 63 < n ≤ 2 ^ 64 → round_up_to_power_of_two n = 0.
Proof.
  intros Hn.
  assert (Hm : (n - 1) mod 2 ^ 64 = n - 1) by (apply Z.mod_small; lia).
  rewrite round_up_to_power_of_two_eq by lia. rewrite Hm.
  assert (HL : Z.log2 (n - 1) = 63).
  { apply Z.log2_unique; [lia |]. change (Z.succ 63) with 64. lia. }
  rewrite HL. reflexivity.
Qed.

Lemma round_up_to_power_of_two_overflow_witness :
  round_up_to_power_of_two (2 ^ 63 + 1) = 0.
Proof. apply (round_up_to_power_of_two_overflow (2 ^ 63 + 1)). lia. Defined.

(** Every capacity is 0 or a power of two of [std::size_t]. *)
Lemma round_up_to_power_of_two_cases n :
  round_up_to_power_of_two n = 0 ∨
  ∃ k, 0 ≤ k ≤ 63 ∧ round_up_to_power_of_two n = 2 ^ k.
Proof.
  destruct (decide ((n - 1) mod 2 ^ 64 = 0)) as [Hm | Hm].
  { right. exists 0. split; [lia |]. by rewrite (round_up_to_power_of_two_one n Hm). }
  assert (Hrange : 0 < (n - 1) mod 2 ^ 64 < 2 ^ 64).
  { pose proof (Z.mod_pos_bound (n - 1) (2 ^ 64) ltac:(lia)). lia. }
  rewrite (round_up_to_power_of_two_eq n) by lia.
  set (m := (n - 1) mod 2 ^ 64) in *.
  assert (HL : 0 ≤ Z.log2 m < 64).
  { split; [apply Z.log2_nonneg |]. apply Z.log2_lt_pow2; lia. }
  destruct (decide (Z.log2 m = 63)) as [-> | Hlog]; [by left | right].
  exists (Z.log2 m + 1). split; [lia |].
  assert (Hp : 2 ^ (Z.log2 m + 1) ≤ 2 ^ 63) by (apply Z.pow_le_mono_r; lia).
  assert (Hp1 : 1 ≤ 2 ^ (Z.log2 m + 1)).
  { pose proof (Z.pow_pos_nonneg 2 (Z.log2 m + 1)). lia. }
  apply Z.mod_small. lia.
Qed.

(** Such a capacity is rounded to itself. *)
Lemma round_up_to_power_of_two_fixed p :
  p = 0 ∨ (∃ k, 0 ≤ k ≤ 63 ∧ p = 2 ^ k) → round_up_to_power_of_two p = p.
Proof.
  intros [-> | (k & Hk & ->)]; [reflexivity |].
  assert (Hp : 2 ^ k ≤ 2 ^ 63) by (apply Z.pow_le_mono_r; lia).
  assert (Hp1 : 1 ≤ 2 ^ k).
  { pose proof (Z.pow_pos_nonneg 2 k). lia. }
  rewrite round_up_to_power_of_two_log2_up by lia.
  by rewrite Z.log2_up_pow2 by lia.
Qed.

(** X3. Rounding a capacity that was rounded changes nothing, whatever
    the request was: the copy constructor, which passes [other.size]
    through the rounding once more, keeps the capacity. *)
Theorem round_up_to_power_of_two_idempotent n :
  round_up_to_power_of_two (round_up_to_power_of_two n) = round_up_to_power_of_two n.
Proof.
  pose proof (round_up_to_power_of_two_cases n) as Hcases.
  destruct Hcases as [Hzero | (k & Hk & Hpower)].
  - rewrite Hzero. apply round_up_to_power_of_two_fixed. by left.
  - rewrite Hpower. apply round_up_to_power_of_two_fixed. right. by exists k.
Qed.

Section construction.
Context `{Platform}.

Import CacheDictionary.

(** ** The slot of a key *)

Lemma getCellIdx_land_ones d id k :
  0 ≤ k ≤ 63 → size d = 2 ^ k → getCellIdx d id = intHash64 id mod 2 ^ k.
Proof.
  intros Hk Hsize. unfold getCellIdx, wrap_unsigned. rewrite Hsize.
  assert (0 < 2 ^ k) by (apply Z.pow_pos_nonneg; lia).
  assert (2 ^ k ≤ 2 ^ 63) by (apply Z.pow_le_mono_r; lia).
  rewrite Z.mod_small by lia.
  replace (2 ^ k - 1) with (Z.ones k) by (rewrite Z.ones_equiv; lia).
  apply Z.land_ones. lia.
Qed.

(** X4. With a capacity that is a power of two of [std::size_t], the
    slot of a key is its hash modulo the capacity, and so an index into
    the cells. *)
Theorem getCellIdx_in_range d id k :
  0 ≤ k ≤ 63 → size d = 2 ^ k →
  getCellIdx d id = intHash64 id mod size d ∧ 0 ≤ getCellIdx d id < size d.
Proof.
  intros Hk Hsize. rewrite (getCellIdx_land_ones d id k Hk Hsize), Hsize.
  split; [done |]. apply Z.mod_pos_bound. apply Z.pow_pos_nonneg; lia.
Qed.

Lemma getCellIdx_well_formed d id :
  well_formed d →
  0 ≤ getCellIdx d id ∧ (Z.to_nat (getCellIdx d id) < Z.to_nat (size d))%nat.
Proof.
  intros ((k & Hk & Hsize) & _).
  rewrite (getCellIdx_land_ones d id k Hk Hsize), Hsize.
  assert (0 < 2 ^ k) by (apply Z.pow_pos_nonneg; lia).
  pose proof (Z.mod_pos_bound (intHash64 id) (2 ^ k) ltac:(lia)). lia.
Qed.

(** ** The attributes as constructed *)

Lemma slots_scalar (T : scalar) attribute :
  attribute_t.type attribute = LC_TYPE T →
  slots attribute = length (arrays_t.get T (attribute_t.arrays attribute)).
Proof. intros Htype. unfold slots. rewrite Htype. by destruct T. Qed.

Lemma slots_string attribute :
  attribute_t.type attribute = AttributeType.string →
  slots attribute = length (arrays_t.of_StringRef (attribute_t.arrays attribute)).
Proof. intros Htype. unfold slots. by rewrite Htype. Qed.

Lemma createAttributeWithType_type size type null_value :
  attribute_t.type (createAttributeWithType size type null_value) = type.
Proof. by destruct type. Qed.

Lemma createAttributeWithType_slots size type null_value :
  slots (createAttributeWithType size type null_value) = Z.to_nat size.
Proof. destruct type; unfold slots; simpl; apply length_replicate. Qed.

Lemma createAttributes_spec size dict_struct :
  ∀ index attributes hierarchical,
  let result := createAttributes size dict_struct (index, attributes, hierarchical) in
  result.1.2 = attributes ++ (created size <$> dict_struct) ∧
  ∀ attribute_name,
    result.1.1 !! attribute_name =
      match index !! attribute_name with
      | Some idx => Some idx
      | None =>
          (λ found, (length attributes + found.1)%nat) <$>
            list_find (λ attribute, DictionaryAttribute.name attribute = attribute_name) dict_struct
      end.
Proof.
  induction dict_struct as [| attribute rest IH]; intros index attributes hierarchical.
  { simpl. split; [by rewrite app_nil_r |]. intros attribute_name.
    by destruct (index !! attribute_name). }
  simpl.
  match goal with
  | |- context [createAttributes size rest (?index1, ?attributes1, ?hierarchical1)] =>
      destruct (IH index1 attributes1 hierarchical1) as [Hattributes Hindex]
  end.
  split.
  { rewrite Hattributes. by rewrite <- app_assoc. }
  intros attribute_name. rewrite Hindex. clear Hattributes Hindex IH.
  rewrite length_app. simpl.
  destruct (index !! attribute_name) as [idx |] eqn:Hname.
  - destruct (index !! DictionaryAttribute.name attribute) eqn:Hother.
    + by rewrite Hname.
    + rewrite lookup_insert_ne; [by rewrite Hname |].
      intros Heq. rewrite Heq in Hother. congruence.
  - destruct (decide (DictionaryAttribute.name attribute = attribute_name)) as [Heq | Hne].
    + rewrite Heq, Hname. rewrite lookup_insert_eq. simpl. f_equal. lia.
    + assert (Hnone : (match index !! DictionaryAttribute.name attribute with
                       | Some _ => index
                       | None => <[DictionaryAttribute.name attribute := length attributes]> index
                       end) !! attribute_name = None).
      { destruct (index !! DictionaryAttribute.name attribute); [done |].
        by rewrite lookup_insert_ne. }
      rewrite Hnone.
      destruct (list_find _ rest) as [[position found] |]; simpl; [f_equal; lia | done].
Qed.

Lemma construct_Ok name dict_struct source_ptr dict_lifetime size rnd_engine :
  IDictionarySource.supportsSelectiveLoad source_ptr = true →
  ∃ d, construct name dict_struct source_ptr dict_lifetime size rnd_engine = Ok d ∧
       CacheDictionary.name d = name ∧
       CacheDictionary.source_ptr d = source_ptr ∧
       CacheDictionary.dict_lifetime d = dict_lifetime ∧
       CacheDictionary.size d = round_up_to_power_of_two size ∧
       cells d = replicate (Z.to_nat (round_up_to_power_of_two size)) empty_cell ∧
       attributes d = created (round_up_to_power_of_two size) <$> dict_struct ∧
       (∀ attribute_name,
          attribute_index_by_name d !! attribute_name =
            fst <$> list_find (λ attribute, DictionaryAttribute.name attribute = attribute_name)
                      dict_struct) ∧
       rw_lock d = [] ∧ loadIds_calls d = [] ∧ clock_reads d = 0%nat ∧
       CacheDictionary.rnd_engine d = rnd_engine.
Proof.
  intros Hsource. unfold construct. rewrite Hsource. simpl.
  pose proof (createAttributes_spec (round_up_to_power_of_two size) dict_struct ∅ [] None)
    as [Hattributes Hindex].
  destruct (createAttributes (round_up_to_power_of_two size) dict_struct (∅, [], None))
    as [[index attributes'] hierarchical].
  simpl in Hattributes, Hindex.
  eexists. split; [reflexivity |]. simpl.
  split_and!; try done.
Qed.

Lemma construct_Ok_well_formed name dict_struct source_ptr dict_lifetime size rnd_engine :
  1 ≤ size ≤ 2 ^ 63 →
  IDictionarySource.supportsSelectiveLoad source_ptr = true →
  ∃ d, construct name dict_struct source_ptr dict_lifetime size rnd_engine = Ok d ∧
       well_formed d.
Proof.
  intros Hsize Hsource.
  destruct (construct_Ok name dict_struct source_ptr dict_lifetime size rnd_engine Hsource)
    as (d & Hd & _ & _ & _ & Hd_size & Hcells & Hattributes & Hindex & _).
  exists d. split; [done |].
  rewrite round_up_to_power_of_two_log2_up in Hd_size, Hcells, Hattributes by done.
  assert (Hk : 0 ≤ Z.log2_up size ≤ 63).
  { split; [apply Z.log2_up_nonneg |].
    destruct (decide (size = 1)) as [-> | ?]; [change (Z.log2_up 1) with 0; lia |].
    apply Z.log2_up_le_pow2; lia. }
  split; [by exists (Z.log2_up size) |]. split; [| split].
  - by rewrite Hcells, length_replicate, Hd_size.
  - intros attribute Hin. rewrite Hattributes in Hin.
    apply list_elem_of_fmap in Hin as (declared & -> & _).
    unfold created. by rewrite createAttributeWithType_slots, Hd_size.
  - intros attribute_name idx Hidx. rewrite Hindex in Hidx.
    destruct (list_find _ dict_struct) as [[position found] |] eqn:Hfind; [| done].
    simpl in Hidx. injection Hidx as <-.
    apply list_find_Some in Hfind as (Hfound & _).
    apply lookup_lt_Some in Hfound. by rewrite Hattributes, length_fmap.
Qed.

(** X5. The constructor, for a request between 1 and 2^63 and a source
    with selective load, returns a well-formed dictionary: its capacity is
    the rounded request, it has one cell per slot and, for every declared
    attribute in the declared order, one attribute of the declared type
    with one array element per slot; and the cache is empty: no key other
    than 0 is up to date at any reading of the clock. *)
Theorem construct_well_formed name dict_struct source_ptr dict_lifetime size rnd_engine :
  1 ≤ size ≤ 2 ^ 63 →
  IDictionarySource.supportsSelectiveLoad source_ptr = true →
  ∃ d, construct name dict_struct source_ptr dict_lifetime size rnd_engine = Ok d ∧
       well_formed d ∧
       CacheDictionary.size d = 2 ^ Z.log2_up size ∧
       length (cells d) = Z.to_nat (CacheDictionary.size d) ∧
       attribute_t.type <$> attributes d = DictionaryAttribute.type <$> dict_struct ∧
       (∀ attribute, attribute ∈ attributes d →
          slots attribute = Z.to_nat (CacheDictionary.size d)) ∧
       (∀ n id, id ≠ 0 → up_to_date d n id = false).
Proof.
  intros Hsize Hsource.
  destruct (construct_Ok name dict_struct source_ptr dict_lifetime size rnd_engine Hsource)
    as (d & Hd & _ & _ & _ & Hd_size & Hcells & Hattributes & _).
  destruct (construct_Ok_well_formed name dict_struct source_ptr dict_lifetime size rnd_engine
              Hsize Hsource) as (d' & Hd' & Hwf).
  rewrite Hd in Hd'. injection Hd' as <-.
  exists d. split; [done |]. split; [done |].
  rewrite round_up_to_power_of_two_log2_up in Hd_size, Hcells, Hattributes by done.
  pose proof Hwf as (_ & Hlength & Hslots & _).
  split; [done |]. split; [done |]. split; [| split; [done |]].
  - rewrite Hattributes, <- list_fmap_compose. apply list_fmap_ext.
    intros i declared _. simpl. unfold created. apply createAttributeWithType_type.
  - intros n id Hid. unfold up_to_date.
    destruct (cells d !! Z.to_nat (getCellIdx d id)) as [cell |] eqn:Hcell; [| done].
    rewrite Hcells in Hcell. apply lookup_replicate in Hcell as [-> _].
    apply bool_decide_eq_false. simpl. intros [? _]. congruence.
Qed.

(** X6. On a constructed dictionary a name resolves to the position of
    the first declared attribute of that name: a later attribute of the
    same name is never reached, and a name that no declared attribute has
    is BAD_ARGUMENTS, with the dictionary untouched. *)
Theorem getAttributeIndex_constructed {O} name dict_struct source_ptr dict_lifetime size
    rnd_engine attribute_name :
  IDictionarySource.supportsSelectiveLoad source_ptr = true →
  ∃ d, construct name dict_struct source_ptr dict_lifetime size rnd_engine = Ok d ∧
       ∀ out : O,
         getAttributeIndex attribute_name d out =
           match list_find (λ attribute, DictionaryAttribute.name attribute = attribute_name)
                   dict_struct with
           | Some (idx, _) => Ok idx
           | None => Throw (no_such_attribute attribute_name, (d, out))
           end.
Proof.
  intros Hsource.
  destruct (construct_Ok name dict_struct source_ptr dict_lifetime size rnd_engine Hsource)
    as (d & Hd & _ & _ & _ & _ & _ & _ & Hindex & _).
  exists d. split; [done |]. intros out.
  unfold getAttributeIndex. rewrite Hindex.
  by destruct (list_find _ dict_struct) as [[position found] |].
Qed.

(** X7. The copy constructor, for a source whose clone has selective
    load, returns a dictionary of the capacity, the name and the lifetime
    of the original over the cloned source, with the attributes as a
    construction makes them and every cell empty: nothing the original has
    cached is carried over. *)
Theorem copy_construct_fresh other dict_struct cloned rnd_engine requested :
  size other = round_up_to_power_of_two requested →
  IDictionarySource.supportsSelectiveLoad cloned = true →
  ∃ d, copy_construct other dict_struct cloned rnd_engine = Ok d ∧
       size d = size other ∧
       name d = name other ∧
       dict_lifetime d = dict_lifetime other ∧
       source_ptr d = cloned ∧
       cells d = replicate (Z.to_nat (size other)) empty_cell ∧
       attributes d = created (size other) <$> dict_struct ∧
       loadIds_calls d = [] ∧
       (∀ n id, id ≠ 0 → up_to_date d n id = false).
Proof.
  intros Hsize Hsource. unfold copy_construct.
  destruct (construct_Ok (name other) dict_struct cloned (dict_lifetime other) (size other)
              rnd_engine Hsource)
    as (d & Hd & Hname & Hsource_ptr & Hlifetime & Hd_size & Hcells & Hattributes & _ & _ & Hcalls & _).
  assert (Hround : round_up_to_power_of_two (size other) = size other).
  { rewrite Hsize. apply round_up_to_power_of_two_fixed, round_up_to_power_of_two_cases. }
  rewrite Hround in Hd_size, Hcells, Hattributes.
  exists d. split_and!; try done.
  intros n id Hid. unfold up_to_date.
  destruct (cells d !! Z.to_nat (getCellIdx d id)) as [cell |] eqn:Hcell; [| done].
  rewrite Hcells in Hcell. apply lookup_replicate in Hcell as [-> _].
  apply bool_decide_eq_false. simpl. intros [? _]. congruence.
Qed.

(** X8. A dictionary constructed for a request that rounds to 0 has no
    cell, and every lookup that reaches a key other than 0 indexes past the
    cells: the scalar lookup when the output has room for the keys, the
    string lookup always. *)
Theorem construct_without_cells name dict_struct source_ptr dict_lifetime requested rnd_engine
    (T : scalar) attribute_idx string_idx (ids : list Z) (out : list (cpp T))
    (out_s : ColumnString.t) (j : nat) (id : Z) :
  round_up_to_power_of_two requested = 0 →
  IDictionarySource.supportsSelectiveLoad source_ptr = true →
  (attribute_idx < length dict_struct)%nat →
  (string_idx < length dict_struct)%nat →
  ids !! j = Some id → id ≠ 0 →
  (length ids ≤ length out)%nat →
  ∃ d, construct name dict_struct source_ptr dict_lifetime requested rnd_engine = Ok d ∧
       cells d = [] ∧
       getItems T attribute_idx ids out d = Undefined cell_index ∧
       getItems_string string_idx ids out_s d = Undefined cell_index.
Proof.
  intros Hround Hsource Hidx Hidx_s Hj Hid Hout.
  destruct (construct_Ok name dict_struct source_ptr dict_lifetime requested rnd_engine Hsource)
    as (d & Hd & _ & _ & _ & _ & Hcells & Hattributes & _).
  exists d. split; [done |].
  rewrite Hround in Hcells. simpl in Hcells.
  split; [done |].
  assert (Hkey : ∃ id, id ∈ ids ∧ id ≠ 0).
  { exists id. split; [| done]. by eapply list_elem_of_lookup_2. }
  clear j id Hj Hid.
  assert (Hattribute : ∃ attribute, attributes d !! attribute_idx = Some attribute).
  { apply lookup_lt_is_Some_2. by rewrite Hattributes, length_fmap. }
  destruct Hattribute as [attribute Hattribute].
  assert (Hattribute_s : ∃ attribute, attributes d !! string_idx = Some attribute).
  { apply lookup_lt_is_Some_2. by rewrite Hattributes, length_fmap. }
  destruct Hattribute_s as [attribute_s Hattribute_s].
  split.
  - unfold getItems. rewrite (read_lookup _ _ _ _ Hattribute). simpl.
    assert (Hrows : ∀ ids i (d0 : t) out0 outdated_ids,
              cells d0 = [] → (∃ id, id ∈ ids ∧ id ≠ 0) → (i + length ids ≤ length out0)%nat →
              fetch_rows (E := thrown (list (cpp T))) T attribute i ids (d0, out0, outdated_ids)
              = Undefined cell_index).
    { clear. induction ids as [| id ids IH]; intros i d0 out0 outdated_ids Hcells Hkey Hout.
      { destruct Hkey as (id & Hin & _). by apply elem_of_nil in Hin. }
      simpl. unfold fetch_row. simpl in Hout.
      destruct (decide (id = 0)) as [-> | Hid].
      - rewrite store_lt by lia. simpl. apply IH; [done | | rewrite length_insert; lia].
        destruct Hkey as (id & Hin & Hid). exists id. split; [| done].
        apply elem_of_cons in Hin as [-> | Hin]; [done | done].
      - unfold read. by rewrite Hcells. }
    rewrite Hrows; [done | done | done | simpl; lia].
  - unfold getItems_string. rewrite (read_lookup _ _ _ _ Hattribute_s). simpl.
    assert (Hrows : ∀ ids (d0 : t) out0,
              cells d0 = [] → (∃ id, id ∈ ids ∧ id ≠ 0) →
              fetch_strings (E := thrown ColumnString.t) attribute_s ids (d0, out0)
              = Undefined cell_index).
    { clear. induction ids as [| id ids IH]; intros d0 out0 Hcells Hkey.
      { destruct Hkey as (id & Hin & _). by apply elem_of_nil in Hin. }
      simpl. destruct (decide (id = 0)) as [-> | Hid].
      - apply IH; [done |].
        destruct Hkey as (id & Hin & Hid). exists id. split; [| done].
        apply elem_of_cons in Hin as [-> | Hin]; [done | done].
      - unfold read. by rewrite Hcells. }
    rewrite Hrows; [done | done | done].
Qed.

End construction.

(** The example dictionary: capacity 4, so [k] is 2. *)
Lemma getCellIdx_in_range_witness :
  getCellIdx (H := example_platform) (example_dictionary []) 5
    = murmur_finalizer 5 mod CacheDictionary.size (H := example_platform) (example_dictionary []) ∧
  0 ≤ getCellIdx (H := example_platform) (example_dictionary []) 5
    < CacheDictionary.size (H := example_platform) (example_dictionary []).
Proof.
  apply (getCellIdx_in_range (H := example_platform) (example_dictionary []) 5 2);
    [lia | reflexivity].
Defined.

(** The example schema over the example source, with a request of 3. *)
Lemma construct_well_formed_witness :
  ∃ d, construct (H := example_platform) "example" example_schema
         (example_source [] example_table) example_lifetime 3 0 = Ok d ∧
       well_formed d ∧
       CacheDictionary.size d = 2 ^ Z.log2_up 3 ∧
       length (CacheDictionary.cells d) = Z.to_nat (CacheDictionary.size d) ∧
       attribute_t.type <$> CacheDictionary.attributes d
         = DictionaryAttribute.type <$> example_schema ∧
       (∀ attribute, attribute ∈ CacheDictionary.attributes d →
          slots attribute = Z.to_nat (CacheDictionary.size d)) ∧
       (∀ n id, id ≠ 0 → up_to_date d n id = false).
Proof.
  apply (construct_well_formed (H := example_platform) "example" example_schema
           (example_source [] example_table) example_lifetime 3 0);
    [lia | reflexivity].
Defined.

(** The name [s] in the example schema. *)
Lemma getAttributeIndex_constructed_witness :
  ∃ d, construct (H := example_platform) "example" example_schema
         (example_source [] example_table) example_lifetime 4 0 = Ok d ∧
       ∀ out : (),
         getAttributeIndex "s" d out =
           match list_find (λ attribute, DictionaryAttribute.name attribute = "s")
                   example_schema with
           | Some (idx, _) => Ok idx
           | None => Throw (no_such_attribute "s", (d, out))
           end.
Proof.
  apply (getAttributeIndex_constructed (H := example_platform) (O := ()) "example" example_schema
           (example_source [] example_table) example_lifetime 4 0 "s").
  reflexivity.
Defined.

(** A copy of the example dictionary after it has cached key 4. *)
Lemma copy_construct_fresh_witness :
  ∃ d, copy_construct (H := example_platform) (example_after [] [[4]]) example_schema
         (example_source [] example_table) 0 = Ok d ∧
       CacheDictionary.size d = CacheDictionary.size (example_after [] [[4]]) ∧
       CacheDictionary.name d = CacheDictionary.name (example_after [] [[4]]) ∧
       CacheDictionary.dict_lifetime d = CacheDictionary.dict_lifetime (example_after [] [[4]]) ∧
       CacheDictionary.source_ptr d = example_source [] example_table ∧
       CacheDictionary.cells d
         = replicate (Z.to_nat (CacheDictionary.size (example_after [] [[4]]))) empty_cell ∧
       CacheDictionary.attributes d
         = created (CacheDictionary.size (example_after [] [[4]])) <$> example_schema ∧
       CacheDictionary.loadIds_calls d = [] ∧
       (∀ n id, id ≠ 0 → up_to_date d n id = false).
Proof.
  apply (copy_construct_fresh (H := example_platform) (example_after [] [[4]]) example_schema
           (example_source [] example_table) 0 4);
    [vm_compute; reflexivity | reflexivity].
Defined.

(** The example schema with a request of 0, and the keys 0 and 7. *)
Lemma construct_without_cells_witness :
  ∃ d, construct (H := example_platform) "example" example_schema
         (example_source [] example_table) example_lifetime 0 0 = Ok d ∧
       CacheDictionary.cells d = [] ∧
       getItems UInt32 0 [0; 7] [0; 0] d = Undefined cell_index ∧
       getItems_string 1 [0; 7] ColumnString.empty d = Undefined cell_index.
Proof.
  refine (construct_without_cells (H := example_platform) "example" example_schema
            (example_source [] example_table) example_lifetime 0 0
            UInt32 0 1 [0; 7] [0; 0] ColumnString.empty 1 7 _ _ _ _ _ _ _);
    [reflexivity | reflexivity | simpl; lia | simpl; lia | reflexivity | lia | simpl; lia].
Defined.

Lemma example_dictionary_well_formed unasked :
  well_formed (H := example_platform) (example_dictionary unasked).
Proof.
  destruct (construct_Ok_well_formed (H := example_platform) "example" example_schema
              (example_source unasked example_table) example_lifetime 4 0)
    as (d & Hd & Hwf); [lia | reflexivity |].
  rewrite construct_example in Hd. by injection Hd as <-.
Qed.

(** ** Lookups without undefined behaviour *)

Section safety.
Context `{Platform}.

Import CacheDictionary.

Lemma same_schema_refl d : same_schema d d.
Proof.
  unfold same_schema. split_and!; try done.
  induction (attributes d); constructor; done.
Qed.

Lemma same_schema_trans d d' d'' :
  same_schema d d' → same_schema d' d'' → same_schema d d''.
Proof.
  intros (Hsize & Hindex & Hsource & Hlifetime & Hcells & Hattributes)
         (Hsize' & Hindex' & Hsource' & Hlifetime' & Hcells' & Hattributes').
  unfold same_schema. split_and!; try congruence.
  eapply Forall2_trans; [| exact Hattributes | exact Hattributes'].
  intros a a' a'' (? & ? & ?) (? & ? & ?). split_and!; congruence.
Qed.

Lemma same_schema_fields d d' :
  size d' = size d → attribute_index_by_name d' = attribute_index_by_name d →
  source_ptr d' = source_ptr d → dict_lifetime d' = dict_lifetime d →
  cells d' = cells d → attributes d' = attributes d →
  same_schema d d'.
Proof.
  intros Hsize Hindex Hsource Hlifetime Hcells Hattributes.
  unfold same_schema. rewrite Hsize, Hindex, Hsource, Hlifetime, Hcells, Hattributes.
  apply same_schema_refl.
Qed.

Lemma same_schema_lock e d : same_schema d (lock e d).
Proof. by apply same_schema_fields. Qed.

Lemma same_schema_read_clock d : same_schema d (read_clock d).
Proof. by apply same_schema_fields. Qed.

Lemma same_schema_called_loadIds ids d : same_schema d (called_loadIds ids d).
Proof. by apply same_schema_fields. Qed.

Lemma same_schema_types d d' :
  same_schema d d' → attribute_t.type <$> attributes d' = attribute_t.type <$> attributes d.
Proof.
  intros (_ & _ & _ & _ & _ & Hattributes).
  induction Hattributes as [| a a' l l' (Htype & _) _ IH]; [done |].
  rewrite !fmap_cons. by rewrite Htype, IH.
Qed.

Lemma same_schema_lookup d d' idx attribute :
  same_schema d d' → attributes d !! idx = Some attribute →
  ∃ attribute', attributes d' !! idx = Some attribute' ∧
                attribute_t.type attribute' = attribute_t.type attribute ∧
                attribute_t.null_values attribute' = attribute_t.null_values attribute ∧
                slots attribute' = slots attribute.
Proof.
  intros (_ & _ & _ & _ & _ & Hattributes) Hattribute.
  by eapply Forall2_lookup_l in Hattributes.
Qed.

Lemma well_formed_same_schema d d' : well_formed d → same_schema d d' → well_formed d'.
Proof.
  intros (Hpower & Hcells & Hslots & Hindex)
         (Hsize' & Hindex' & _ & _ & Hcells' & Hattributes').
  unfold well_formed. rewrite Hsize', Hindex', Hcells'.
  split_and!; [done | done | |].
  - intros attribute' Hin. apply list_elem_of_lookup_1 in Hin as [i Hi].
    destruct (Forall2_lookup_r _ _ _ _ _ Hattributes' Hi) as (attribute & Hattribute & _ & _ & ->).
    apply Hslots. by eapply list_elem_of_lookup_2.
  - intros attribute_name idx Hidx. rewrite <- (Forall2_length _ _ _ Hattributes'). eauto.
Qed.

Lemma well_behaved_same_schema d d' : well_behaved d → same_schema d d' → well_behaved d'.
Proof.
  intros Hsource Hsame ids. unfold well_behaved in Hsource.
  rewrite (same_schema_types _ _ Hsame).
  destruct Hsame as (_ & _ & -> & _). apply Hsource.
Qed.

Lemma well_formed_slots d idx attribute :
  well_formed d → attributes d !! idx = Some attribute →
  slots attribute = Z.to_nat (size d).
Proof.
  intros (_ & _ & Hslots & _) Hattribute. apply Hslots. by eapply list_elem_of_lookup_2.
Qed.

Lemma cell_outdated_cases cell id d outdated d' :
  cell_outdated cell id d = (outdated, d') → d' = d ∨ d' = read_clock d.
Proof.
  unfold cell_outdated, hasTimeExpired. case_decide; intros [= _ <-]; [by left | by right].
Qed.

Lemma cell_outdated_same_schema cell id d outdated d' :
  cell_outdated cell id d = (outdated, d') → same_schema d d'.
Proof.
  intros [-> | ->]%cell_outdated_cases; [apply same_schema_refl | apply same_schema_read_clock].
Qed.

(** *** The refresh *)

Lemma set_string_safe {E} attribute idx string :
  attribute_t.type attribute = AttributeType.string →
  (Z.to_nat idx < length (arrays_t.of_StringRef (attribute_t.arrays attribute)))%nat →
  ∃ string_ref,
    set_string (E := E) attribute idx (Field_String string)
      = Ok (attribute_t.with_arrays
              (arrays_t.set_StringRef
                 (<[Z.to_nat idx := string_ref]> (arrays_t.of_StringRef (attribute_t.arrays attribute)))
                 (attribute_t.arrays attribute)) attribute) ∧
    StringRef.bytes string_ref = string ∧
    (string = [] → string_ref = StringRef.null) ∧
    (string ≠ [] → StringRef.data string_ref = Some (string ++ [x00]) ∧
                   StringRef.size string_ref = String_size string).
Proof.
  intros Htype Hidx.
  destruct (lookup_lt_is_Some_2 _ _ Hidx) as [old Hold].
  unfold set_string. simpl. rewrite (read_lookup _ _ _ _ Hold). simpl.
  destruct (decide (String_size string > 0)) as [Hsize | Hsize].
  - assert (Hcopy : std_copy (String_data string) 0 (Z.to_nat (String_size string + 1))
                    = Some (string ++ [x00])).
    { replace (Z.to_nat (String_size string + 1)) with (length (String_data string)).
      - apply std_copy_all.
      - rewrite String_data_length. unfold String_size. lia. }
    rewrite Hcopy. simpl. rewrite store_lt by done. simpl.
    eexists. split; [reflexivity |].
    split; [| split].
    + unfold StringRef.bytes, String_size. simpl.
      rewrite Nat2Z.id. by rewrite take_app_length.
    + intros ->. unfold String_size in Hsize. simpl in Hsize. lia.
    + done.
  - simpl. rewrite store_lt by done. simpl.
    eexists. split; [reflexivity |].
    assert (string = []) as ->.
    { destruct string; [done |]. unfold String_size in Hsize. simpl in Hsize. lia. }
    split; [done |]. split; [done | done].
Qed.

Lemma setAttributeValue_safe {E} attribute idx value :
  readable (attribute_t.type attribute) value = true →
  (Z.to_nat idx < slots attribute)%nat →
  ∃ attribute',
    setAttributeValue (E := E) attribute idx value = Ok attribute' ∧
    attribute_t.type attribute' = attribute_t.type attribute ∧
    attribute_t.null_values attribute' = attribute_t.null_values attribute ∧
    slots attribute' = slots attribute.
Proof.
  intros Hreadable Hidx.
  destruct (attribute_t.type attribute) eqn:Htype.
  11: {
    destruct value; try discriminate.
    rewrite slots_string in Hidx by done.
    destruct (set_string_safe (E := E) attribute idx x Htype Hidx) as (string_ref & Hset & _).
    unfold setAttributeValue. rewrite Htype, Hset.
    eexists. split; [reflexivity |].
    unfold slots. simpl. rewrite Htype. simpl.
    split; [done |]. split; [done |]. by rewrite length_insert. }
  all: destruct value; try discriminate.
  all: unfold setAttributeValue; rewrite Htype; unfold set_scalar; simpl.
  all: unfold slots in Hidx; rewrite Htype in Hidx.
  all: rewrite store_lt by done; simpl.
  all: eexists; (split; [reflexivity |]).
  all: unfold slots; simpl; rewrite Htype; simpl.
  all: split; [done |]; split; [done |]; by rewrite length_insert.
Qed.

(** Row [i] of a block holds a readable field for every attribute. *)
Lemma setAttributeValues_safe {E} block i cell_idx attributes :
  ∀ attribute_idx,
  (∀ n attribute, attributes !! n = Some attribute →
     (Z.to_nat cell_idx < slots attribute)%nat ∧
     ∃ attribute_column value,
       Block.columns block !! (attribute_idx + n)%nat = Some attribute_column ∧
       attribute_column !! i = Some value ∧
       readable (attribute_t.type attribute) value = true) →
  ∃ attributes',
    setAttributeValues (E := E) block i cell_idx attribute_idx attributes = Ok attributes' ∧
    Forall2 (λ attribute attribute',
               attribute_t.type attribute' = attribute_t.type attribute ∧
               attribute_t.null_values attribute' = attribute_t.null_values attribute ∧
               slots attribute' = slots attribute)
      attributes attributes'.
Proof.
  induction attributes as [| attribute rest IH]; intros attribute_idx Hrows.
  { exists []. split; [done | constructor]. }
  destruct (Hrows 0%nat attribute eq_refl) as (Hslot & attribute_column & value & Hcolumn & Hvalue & Hreadable).
  rewrite Nat.add_0_r in Hcolumn.
  destruct (setAttributeValue_safe (E := E) attribute cell_idx value Hreadable Hslot)
    as (attribute' & Hset & Hkept).
  destruct (IH (S attribute_idx)) as (rest' & Hrest & Hall).
  { intros n attribute0 Hn. destruct (Hrows (S n) attribute0 Hn) as (? & column & v & Hc & ?).
    split; [done |]. exists column, v. split; [| done].
    by replace (S attribute_idx + n)%nat with (attribute_idx + S n)%nat by lia. }
  exists (attribute' :: rest'). split; [| by constructor].
  simpl. rewrite (read_lookup _ _ _ _ Hcolumn). simpl.
  rewrite (read_lookup _ _ _ _ Hvalue). simpl.
  rewrite Hset. simpl. rewrite Hrest. done.
Qed.

Section callback.
Context {X : Type} (on_cell_updated : Z → Z → t → X → outcome Empty_set X).
Context (d0 : t) (I : X → Prop).
Hypothesis callback_safe :
  ∀ id cell_idx d x,
    well_formed d → same_schema d0 d →
    (Z.to_nat cell_idx < Z.to_nat (size d))%nat → I x →
    ∃ x', on_cell_updated id cell_idx d x = Ok x' ∧ I x'.

Lemma update_row_safe block i id d x :
  well_formed d → same_schema d0 d → I x →
  row_readable (attribute_t.type <$> attributes d0) block i →
  ∃ d' x', update_row on_cell_updated block i id (d, x) = Ok (d', x') ∧
           well_formed d' ∧ same_schema d0 d' ∧ I x'.
Proof.
  intros Hwf Hsame HI Hrow.
  destruct (getCellIdx_well_formed d id Hwf) as [Hlow Hhigh].
  pose proof Hwf as (_ & Hcells & _ & _).
  unfold update_row.
  assert (Hcell : is_Some (cells d !! Z.to_nat (getCellIdx d id))).
  { apply lookup_lt_is_Some_2. by rewrite Hcells. }
  destruct Hcell as [cell Hcell]. rewrite (read_lookup _ _ _ _ Hcell). simpl.
  destruct (setAttributeValues_safe (E := thrown X) block i (getCellIdx d id) (attributes d) 0%nat)
    as (attributes' & Hset & Hall).
  { intros n attribute Hn. split.
    - by rewrite (well_formed_slots d n attribute Hwf Hn).
    - assert (Htype : (attribute_t.type <$> attributes d0) !! n = Some (attribute_t.type attribute)).
      { rewrite <- (same_schema_types _ _ Hsame), list_lookup_fmap, Hn. done. }
      destruct (Hrow n _ Htype) as (column & value & ? & ? & ?).
      exists column, value. done. }
  rewrite Hset. simpl.
  destruct (uniform_int_distribution _ _ _) as [drawn rnd_engine'].
  match goal with
  | |- context [no_throw (on_cell_updated id (getCellIdx d id) ?d1 x)] => set (d' := d1)
  end.
  assert (Hstep : same_schema d d').
  { unfold same_schema, d'. simpl. split_and!; try done. by rewrite length_insert. }
  assert (Hwf' : well_formed d') by (by eapply well_formed_same_schema).
  assert (Hsame' : same_schema d0 d') by (by eapply same_schema_trans).
  destruct (callback_safe id (getCellIdx d id) d' x Hwf' Hsame') as (x' & Hcallback & HI'); [| done |].
  { destruct Hstep as (-> & _). done. }
  rewrite Hcallback. simpl. exists d', x'. done.
Qed.

Lemma update_rows_safe block ids :
  ∀ i d x,
  well_formed d → same_schema d0 d → I x →
  (∀ j, (i ≤ j < i + length ids)%nat →
     row_readable (attribute_t.type <$> attributes d0) block j) →
  ∃ d' x', update_rows on_cell_updated block i ids (d, x) = Ok (d', x') ∧
           well_formed d' ∧ same_schema d0 d' ∧ I x'.
Proof.
  induction ids as [| id ids IH]; intros i d x Hwf Hsame HI Hrows.
  { exists d, x. done. }
  simpl in *.
  destruct (update_row_safe block i id d x Hwf Hsame HI) as (d1 & x1 & Hrow & Hwf1 & Hsame1 & HI1).
  { apply Hrows. lia. }
  rewrite Hrow. simpl.
  apply IH; [done | done | done |]. intros j Hj. apply Hrows. lia.
Qed.

Lemma update_blocks_safe stream :
  ∀ d x,
  well_formed d → same_schema d0 d → I x →
  Forall (well_shaped (attribute_t.type <$> attributes d0)) stream →
  ends_in (λ '(d', x'), well_formed d' ∧ same_schema d0 d' ∧ I x') (λ _, False)
    (update_blocks on_cell_updated stream (d, x)).
Proof.
  induction stream as [| block stream IH]; intros d x Hwf Hsame HI Hstream.
  { simpl. done. }
  apply Forall_cons in Hstream as [Hblock Hstream].
  simpl. unfold well_shaped in Hblock.
  destruct (Block.id_column block) as [ids |]; [| simpl; done].
  destruct (update_rows_safe block ids 0 d x Hwf Hsame HI) as (d1 & x1 & Hrows & Hwf1 & Hsame1 & HI1).
  { intros j Hj n type Hn. destruct (Hblock n type Hn) as (column & Hcolumn & Hfields).
    destruct (Hfields j ltac:(lia)) as (value & Hvalue & Hreadable).
    exists column, value. done. }
  rewrite Hrows. simpl. by apply IH.
Qed.

Lemma update_safe ids d x :
  well_formed d → same_schema d0 d → I x → well_behaved d0 →
  ends_in (λ '(d', x'), well_formed d' ∧ same_schema d0 d' ∧ I x') (λ _, False)
    (update ids on_cell_updated (d, x)).
Proof.
  intros Hwf Hsame HI Hsource. unfold update.
  apply update_blocks_safe; [| | done |].
  - eapply well_formed_same_schema; [exact Hwf |]. by apply same_schema_fields.
  - eapply same_schema_trans; [exact Hsame |]. by apply same_schema_fields.
  - simpl. destruct Hsame as (_ & _ & -> & _). apply Hsource.
Qed.

End callback.


(** *** The scalar lookup *)

Lemma on_scalar_updated_safe (T : scalar) attribute_idx d0 attribute0 (n : nat) :
  attributes d0 !! attribute_idx = Some attribute0 →
  attribute_t.type attribute0 = LC_TYPE T →
  ∀ id cell_idx d (x : list (cpp T) * gmap Z (list nat)),
    well_formed d → same_schema d0 d →
    (Z.to_nat cell_idx < Z.to_nat (size d))%nat →
    length x.1 = n ∧ noted_inside x.1 x.2 →
    ∃ x', on_scalar_updated T attribute_idx id cell_idx d x = Ok x' ∧
          length x'.1 = n ∧ noted_inside x'.1 x'.2.
Proof.
  intros Hattribute0 Htype0 id cell_idx d [out outdated_ids] Hwf Hsame Hidx [Hlength Hnoted].
  simpl in *.
  destruct (same_schema_lookup _ _ _ _ Hsame Hattribute0) as (attribute & Hattribute & Htype & _).
  rewrite Htype0 in Htype.
  pose proof (well_formed_slots d _ _ Hwf Hattribute) as Hslots.
  rewrite (slots_scalar T) in Hslots by done.
  assert (Hvalue : is_Some (arrays_t.get T (attribute_t.arrays attribute) !! Z.to_nat cell_idx)).
  { apply lookup_lt_is_Some_2. by rewrite Hslots. }
  destruct Hvalue as [attribute_value Hvalue].
  destruct (set_missing_in_bounds (E := Empty_set) out (positions outdated_ids id) attribute_value)
    as [out' Hset]; [by apply Hnoted |].
  unfold on_scalar_updated.
  rewrite (read_lookup _ _ _ _ Hattribute). simpl.
  rewrite (read_lookup _ _ _ _ Hvalue). simpl.
  rewrite Hset. simpl. eexists. split; [reflexivity |]. simpl.
  apply set_missing_Ok in Hset as (Hlength' & _).
  split; [congruence |].
  intros k j Hj. rewrite positions_touch in Hj. rewrite Hlength'. by eapply Hnoted.
Qed.

Lemma fetch_row_safe {E} (T : scalar) attribute i id d out outdated_ids :
  well_formed d →
  attribute_t.type attribute = LC_TYPE T →
  slots attribute = Z.to_nat (size d) →
  (i < length out)%nat →
  ∃ d' out' outdated_ids',
    fetch_row (E := E) T attribute i id (d, out, outdated_ids) = Ok (d', out', outdated_ids') ∧
    same_schema d d'.
Proof.
  intros Hwf Htype Hslots Hi.
  rewrite (slots_scalar T) in Hslots by done.
  destruct (getCellIdx_well_formed d id Hwf) as [_ Hhigh].
  pose proof Hwf as (_ & Hcells & _ & _).
  unfold fetch_row.
  destruct (decide (id = 0)) as [-> | Hid].
  { rewrite store_lt by done. simpl. eexists _, _, _. split; [reflexivity |].
    apply same_schema_refl. }
  assert (Hcell : is_Some (cells d !! Z.to_nat (getCellIdx d id))).
  { apply lookup_lt_is_Some_2. by rewrite Hcells. }
  destruct Hcell as [cell Hcell]. rewrite (read_lookup _ _ _ _ Hcell). simpl.
  destruct (cell_outdated cell id d) as [outdated d'] eqn:Houtdated.
  pose proof (cell_outdated_same_schema _ _ _ _ _ Houtdated) as Hsame.
  destruct outdated.
  - rewrite store_lt by done. simpl. eexists _, _, _. split; [reflexivity | done].
  - assert (Hvalue : is_Some (arrays_t.get T (attribute_t.arrays attribute)
                                !! Z.to_nat (getCellIdx d id))).
    { apply lookup_lt_is_Some_2. by rewrite Hslots. }
    destruct Hvalue as [x Hvalue]. rewrite (read_lookup _ _ _ _ Hvalue). simpl.
    rewrite store_lt by done. simpl. eexists _, _, _. split; [reflexivity | done].
Qed.

Lemma fetch_rows_safe {E} (T : scalar) attribute ids :
  ∀ i d out outdated_ids,
  well_formed d →
  attribute_t.type attribute = LC_TYPE T →
  slots attribute = Z.to_nat (size d) →
  (i + length ids ≤ length out)%nat →
  ∃ d' out' outdated_ids',
    fetch_rows (E := E) T attribute i ids (d, out, outdated_ids) = Ok (d', out', outdated_ids') ∧
    same_schema d d'.
Proof.
  induction ids as [| id ids IH]; intros i d out outdated_ids Hwf Htype Hslots Hout.
  { eexists _, _, _. split; [reflexivity | apply same_schema_refl]. }
  simpl in *.
  destruct (fetch_row_safe (E := E) T attribute i id d out outdated_ids Hwf Htype Hslots)
    as (d1 & out1 & outdated1 & Hrow & Hsame1); [lia |].
  rewrite Hrow. simpl.
  apply fetch_row_Ok in Hrow as (_ & _ & _ & (x & _ & ->) & _).
  destruct (IH (S i) d1 (<[i:=x]> out) outdated1) as (d2 & out2 & outdated2 & Hrows & Hsame2).
  - by eapply well_formed_same_schema.
  - done.
  - destruct Hsame1 as (-> & _). done.
  - rewrite length_insert. lia.
  - eexists _, _, _. split; [exact Hrows |]. by eapply same_schema_trans.
Qed.

Lemma getItems_safe (T : scalar) attribute_idx ids out d attribute :
  well_formed d → well_behaved d →
  attributes d !! attribute_idx = Some attribute →
  attribute_t.type attribute = LC_TYPE T →
  (length ids ≤ length out)%nat →
  ends_in (λ '(d', out'), well_formed d' ∧ same_schema d d' ∧ length out' = length out)
    (λ _, False) (getItems T attribute_idx ids out d).
Proof.
  intros Hwf Hsource Hattribute Htype Hout.
  unfold getItems. rewrite (read_lookup _ _ _ _ Hattribute). simpl.
  pose proof (well_formed_slots d _ _ Hwf Hattribute) as Hslots.
  assert (Hwf1 : well_formed (lock ScopedReadRWLock d)).
  { eapply well_formed_same_schema; [exact Hwf | apply same_schema_lock]. }
  match goal with
  | |- context [@fetch_rows _ ?E T attribute 0%nat ids ?s] =>
      destruct (fetch_rows_safe (E := E) T attribute ids 0
                  (lock ScopedReadRWLock d) out ∅ Hwf1 Htype Hslots)
        as (d2 & out2 & outdated2 & Hrows & Hsame2); [simpl; lia |];
      pose proof (fetch_rows_inside (E := E) T attribute ids 0
                    (lock ScopedReadRWLock d) out ∅) as Hinside;
      change (@fetch_rows _ E T attribute 0%nat ids s)
        with (fetch_rows (E := E) T attribute 0 ids (lock ScopedReadRWLock d, out, ∅))
  end.
  rewrite Hrows in Hinside. destruct Hinside as [Hlength2 Hnoted2]; [simpl; lia | |].
  { intros k j Hj. rewrite positions_empty in Hj. by apply elem_of_nil in Hj. }
  rewrite Hrows. simpl.
  assert (Hsame : same_schema d d2).
  { eapply same_schema_trans; [apply same_schema_lock | exact Hsame2]. }
  assert (Hwf2 : well_formed d2) by (by eapply well_formed_same_schema).
  destruct (decide (outdated2 = ∅)) as [Hempty | Hsome]; [simpl; done |].
  pose proof (update_safe (on_scalar_updated T attribute_idx) d
                (λ x, length x.1 = length out ∧ noted_inside x.1 x.2)
                (on_scalar_updated_safe T attribute_idx d attribute (length out) Hattribute Htype)
                (keys outdated2) d2 (out2, outdated2) Hwf2 Hsame (conj Hlength2 Hnoted2) Hsource)
    as Hupdate.
  destruct (update (keys outdated2) (on_scalar_updated T attribute_idx) (d2, (out2, outdated2)))
    as [[d3 [out3 outdated3]] | [e [d3 [out3 outdated3]]] | u]; simpl in *.
  - destruct Hupdate as (? & ? & ? & _). done.
  - destruct Hupdate as (? & ? & ? & _). done.
  - done.
Qed.

Lemma checked_attribute_safe {O} (type : AttributeType.t) attribute_name d (out : O) :
  well_formed d →
  match checked_attribute type attribute_name d out with
  | Ok idx => ∃ attribute, attributes d !! idx = Some attribute ∧
                           attribute_t.type attribute = type
  | Throw (_, s) => s = (d, out)
  | Undefined _ => False
  end.
Proof.
  intros Hwf. unfold checked_attribute, getAttributeIndex.
  destruct (attribute_index_by_name d !! attribute_name) as [idx |] eqn:Hidx; [| simpl; done].
  simpl.
  destruct Hwf as (_ & _ & _ & Hindex). apply Hindex in Hidx.
  destruct (lookup_lt_is_Some_2 _ _ Hidx) as [attribute Hattribute].
  rewrite (read_lookup _ _ _ _ Hattribute). simpl.
  destruct (decide (attribute_t.type attribute ≠ type)) as [Hne | Heq]; [done |].
  exists attribute. split; [done |]. by apply dec_stable.
Qed.

(** X9. No scalar getter runs into undefined behaviour on a well-formed
    dictionary whose source answers with well-shaped blocks, when the
    output has room for the keys: the batched getter and the getter of one
    key return or throw, and the dictionary they leave, returned or
    thrown, is again well-formed over a well-behaved source, with an
    output of the length it had. *)
Theorem scalar_getters_safe (T : scalar) (attribute_name : string) (ids : list Z)
    (out : list (cpp T)) (id : Z) (uninitialised : cpp T) (d : t) :
  well_formed d → well_behaved d → (length ids ≤ length out)%nat →
  ends_in (λ '(d', out'), well_formed d' ∧ well_behaved d' ∧ length out' = length out)
    (λ _, False) (get T attribute_name ids out d) ∧
  match get_individual T attribute_name id uninitialised d with
  | Ok (d', _) => well_formed d' ∧ well_behaved d'
  | Throw (_, (d', _)) => well_formed d' ∧ well_behaved d'
  | Undefined _ => False
  end.
Proof.
  intros Hwf Hsource Hout. split.
  - unfold get.
    pose proof (checked_attribute_safe (LC_TYPE T) attribute_name d out Hwf) as Hchecked.
    destruct (checked_attribute (LC_TYPE T) attribute_name d out) as [idx | [e s] | u];
      simpl; [| by subst s | done].
    destruct Hchecked as (attribute & Hattribute & Htype).
    pose proof (getItems_safe T idx ids out d attribute Hwf Hsource Hattribute Htype Hout) as Hget.
    destruct (getItems T idx ids out d) as [[d' out'] | [e [d' out']] | u]; simpl in *;
      [| | done].
    + destruct Hget as (? & ? & ?). split; [done |]. split; [| done].
      by eapply well_behaved_same_schema.
    + destruct Hget as (? & ? & ?). split; [done |]. split; [| done].
      by eapply well_behaved_same_schema.
  - unfold get_individual.
    pose proof (checked_attribute_safe (LC_TYPE T) attribute_name d () Hwf) as Hchecked.
    destruct (checked_attribute (LC_TYPE T) attribute_name d ()) as [idx | [e s] | u];
      simpl; [| by subst s | done].
    destruct Hchecked as (attribute & Hattribute & Htype).
    pose proof (getItems_safe T idx [id] [uninitialised] d attribute Hwf Hsource Hattribute Htype
                  ltac:(simpl; lia)) as Hget.
    destruct (getItems T idx [id] [uninitialised] d) as [[d' out'] | [e [d' out']] | u];
      simpl in *; [| | done].
    + destruct Hget as (? & ? & Hlength).
      destruct out' as [| front out']; [done |]. simpl.
      split; [done |]. by eapply well_behaved_same_schema.
    + destruct Hget as (? & ? & ?). split; [done |]. by eapply well_behaved_same_schema.
Qed.

(** *** The string lookup *)

Lemma fetch_strings_safe {E} attribute ids :
  ∀ d out,
  well_formed d →
  attribute_t.type attribute = AttributeType.string →
  slots attribute = Z.to_nat (size d) →
  ∃ found_outdated_values d' out',
    fetch_strings (E := E) attribute ids (d, out) = Ok (found_outdated_values, d', out') ∧
    same_schema d d'.
Proof.
  induction ids as [| id ids IH]; intros d out Hwf Htype Hslots.
  { eexists _, _, _. split; [reflexivity | apply same_schema_refl]. }
  simpl.
  destruct (decide (id = 0)) as [-> | Hid]; [by apply IH |].
  destruct (getCellIdx_well_formed d id Hwf) as [_ Hhigh].
  pose proof Hwf as (_ & Hcells & _ & _).
  assert (Hcell : is_Some (cells d !! Z.to_nat (getCellIdx d id))).
  { apply lookup_lt_is_Some_2. by rewrite Hcells. }
  destruct Hcell as [cell Hcell]. rewrite (read_lookup _ _ _ _ Hcell). simpl.
  destruct (cell_outdated cell id d) as [outdated d'] eqn:Houtdated.
  pose proof (cell_outdated_same_schema _ _ _ _ _ Houtdated) as Hsame.
  destruct outdated.
  { eexists _, _, _. split; [reflexivity | done]. }
  pose proof Hslots as Hlength. rewrite slots_string in Hlength by done.
  assert (Hvalue : is_Some (arrays_t.of_StringRef (attribute_t.arrays attribute)
                              !! Z.to_nat (getCellIdx d id))).
  { apply lookup_lt_is_Some_2. by rewrite Hlength. }
  destruct Hvalue as [string_ref Hvalue]. rewrite (read_lookup _ _ _ _ Hvalue). simpl.
  destruct (IH d' (ColumnString.insertData out (StringRef.bytes string_ref)))
    as (flag & d2 & out2 & Hrows & Hsame2).
  - by eapply well_formed_same_schema.
  - done.
  - destruct Hsame as (-> & _). done.
  - eexists _, _, _. split; [exact Hrows |]. by eapply same_schema_trans.
Qed.

Lemma collect_rows_safe {E} attribute ids :
  ∀ d locals,
  well_formed d →
  attribute_t.type attribute = AttributeType.string →
  slots attribute = Z.to_nat (size d) →
  ∃ d' locals',
    collect_rows (E := E) attribute ids (d, locals) = Ok (d', locals') ∧
    same_schema d d'.
Proof.
  induction ids as [| id ids IH]; intros d [[outdated_ids map] total_length] Hwf Htype Hslots.
  { eexists _, _. split; [reflexivity | apply same_schema_refl]. }
  simpl. unfold collect_row.
  destruct (decide (id = 0)) as [-> | Hid]; [simpl; by apply IH |].
  destruct (getCellIdx_well_formed d id Hwf) as [_ Hhigh].
  pose proof Hwf as (_ & Hcells & _ & _).
  assert (Hcell : is_Some (cells d !! Z.to_nat (getCellIdx d id))).
  { apply lookup_lt_is_Some_2. by rewrite Hcells. }
  destruct Hcell as [cell Hcell]. rewrite (read_lookup _ _ _ _ Hcell). simpl.
  destruct (cell_outdated cell id d) as [outdated d'] eqn:Houtdated.
  pose proof (cell_outdated_same_schema _ _ _ _ _ Houtdated) as Hsame.
  assert (Hwf' : well_formed d') by (by eapply well_formed_same_schema).
  assert (Hslots' : slots attribute = Z.to_nat (size d')).
  { destruct Hsame as (-> & _). done. }
  destruct outdated; simpl.
  { destruct (IH d' (<[id := default 0 (outdated_ids !! id) + 1]> outdated_ids, map, total_length)
                Hwf' Htype Hslots') as (d2 & locals2 & Hrows & Hsame2).
    eexists _, _. split; [exact Hrows |]. by eapply same_schema_trans. }
  pose proof Hslots as Hlength. rewrite slots_string in Hlength by done.
  assert (Hvalue : is_Some (arrays_t.of_StringRef (attribute_t.arrays attribute)
                              !! Z.to_nat (getCellIdx d id))).
  { apply lookup_lt_is_Some_2. by rewrite Hlength. }
  destruct Hvalue as [string_ref Hvalue]. rewrite (read_lookup _ _ _ _ Hvalue). simpl.
  destruct (IH d' (outdated_ids, <[id := StringRef.bytes string_ref]> map,
                   total_length + (StringRef.size string_ref + 1))
              Hwf' Htype Hslots') as (d2 & locals2 & Hrows & Hsame2).
  eexists _, _. split; [exact Hrows |]. by eapply same_schema_trans.
Qed.

Lemma on_string_updated_safe attribute_idx d0 attribute0 :
  attributes d0 !! attribute_idx = Some attribute0 →
  attribute_t.type attribute0 = AttributeType.string →
  ∀ id cell_idx d (x : gmap Z String * Z),
    well_formed d → same_schema d0 d →
    (Z.to_nat cell_idx < Z.to_nat (size d))%nat → True →
    ∃ x', on_string_updated attribute_idx id cell_idx d x = Ok x' ∧ True.
Proof.
  intros Hattribute0 Htype0 id cell_idx d [map total_length] Hwf Hsame Hidx _.
  destruct (same_schema_lookup _ _ _ _ Hsame Hattribute0) as (attribute & Hattribute & Htype & _).
  rewrite Htype0 in Htype.
  pose proof (well_formed_slots d _ _ Hwf Hattribute) as Hslots.
  rewrite slots_string in Hslots by done.
  assert (Hvalue : is_Some (arrays_t.of_StringRef (attribute_t.arrays attribute)
                              !! Z.to_nat cell_idx)).
  { apply lookup_lt_is_Some_2. by rewrite Hslots. }
  destruct Hvalue as [attribute_value Hvalue].
  unfold on_string_updated.
  rewrite (read_lookup _ _ _ _ Hattribute). simpl.
  rewrite (read_lookup _ _ _ _ Hvalue). simpl. eexists. done.
Qed.

Lemma getItems_pessimistic_safe attribute_idx ids out d attribute :
  well_formed d → well_behaved d →
  attributes d !! attribute_idx = Some attribute →
  attribute_t.type attribute = AttributeType.string →
  ends_in (λ '(d', _), well_formed d' ∧ same_schema d d') (λ _, False)
    (getItems_pessimistic attribute_idx ids out d).
Proof.
  intros Hwf Hsource Hattribute Htype.
  unfold getItems_pessimistic. rewrite (read_lookup _ _ _ _ Hattribute). simpl.
  pose proof (well_formed_slots d _ _ Hwf Hattribute) as Hslots.
  assert (Hwf1 : well_formed (lock ScopedReadRWLock d)).
  { eapply well_formed_same_schema; [exact Hwf | apply same_schema_lock]. }
  match goal with
  | |- context [@collect_rows _ ?E attribute ids ?s] =>
      destruct (collect_rows_safe (E := E) attribute ids
                  (lock ScopedReadRWLock d) (∅, ∅, 0) Hwf1 Htype Hslots)
        as (d2 & [[outdated2 map2] total_length2] & Hrows & Hsame2);
      change (@collect_rows _ E attribute ids s)
        with (collect_rows (E := E) attribute ids (lock ScopedReadRWLock d, (∅, ∅, 0)))
  end.
  rewrite Hrows. simpl.
  assert (Hsame : same_schema d d2).
  { eapply same_schema_trans; [apply same_schema_lock | exact Hsame2]. }
  assert (Hwf2 : well_formed d2) by (by eapply well_formed_same_schema).
  destruct (decide (outdated2 = ∅)) as [Hempty | Hsome]; simpl.
  { destruct (same_schema_lookup _ _ _ _ Hsame Hattribute) as (attribute2 & Hattribute2 & _).
    rewrite (read_lookup _ _ _ _ Hattribute2). simpl. done. }
  pose proof (update_safe (on_string_updated attribute_idx) d (λ _, True)
                (on_string_updated_safe attribute_idx d attribute Hattribute Htype)
                (keys outdated2) d2 (map2, total_length2) Hwf2 Hsame I Hsource)
    as Hupdate.
  destruct (update (keys outdated2) (on_string_updated attribute_idx) (d2, (map2, total_length2)))
    as [[d3 [map3 total_length3]] | [e [d3 [map3 total_length3]]] | u]; simpl in *.
  - destruct Hupdate as (Hwf3 & Hsame3 & _).
    destruct (same_schema_lookup _ _ _ _ Hsame3 Hattribute) as (attribute3 & Hattribute3 & _).
    rewrite (read_lookup _ _ _ _ Hattribute3). simpl. done.
  - destruct Hupdate as (? & ? & _). done.
  - done.
Qed.

Lemma getItems_string_safe attribute_idx ids out d attribute :
  well_formed d → well_behaved d →
  attributes d !! attribute_idx = Some attribute →
  attribute_t.type attribute = AttributeType.string →
  ends_in (λ '(d', _), well_formed d' ∧ same_schema d d') (λ _, False)
    (getItems_string attribute_idx ids out d).
Proof.
  intros Hwf Hsource Hattribute Htype.
  unfold getItems_string. rewrite (read_lookup _ _ _ _ Hattribute). simpl.
  pose proof (well_formed_slots d _ _ Hwf Hattribute) as Hslots.
  assert (Hwf1 : well_formed (lock ScopedReadRWLock d)).
  { eapply well_formed_same_schema; [exact Hwf | apply same_schema_lock]. }
  match goal with
  | |- context [@fetch_strings _ ?E attribute ids ?s] =>
      destruct (fetch_strings_safe (E := E) attribute ids
                  (lock ScopedReadRWLock d) out Hwf1 Htype Hslots)
        as (flag & d2 & out2 & Hrows & Hsame2);
      change (@fetch_strings _ E attribute ids s)
        with (fetch_strings (E := E) attribute ids (lock ScopedReadRWLock d, out))
  end.
  rewrite Hrows. simpl.
  assert (Hsame : same_schema d d2).
  { eapply same_schema_trans; [apply same_schema_lock | exact Hsame2]. }
  assert (Hwf2 : well_formed d2) by (by eapply well_formed_same_schema).
  destruct flag; simpl; [| done].
  destruct (same_schema_lookup _ _ _ _ Hsame Hattribute) as (attribute2 & Hattribute2 & Htype2 & _).
  pose proof (getItems_pessimistic_safe attribute_idx ids out2 d2 attribute2 Hwf2
                (well_behaved_same_schema _ _ Hsource Hsame) Hattribute2
                ltac:(congruence)) as Hpessimistic.
  eapply ends_in_mono; [| | exact Hpessimistic].
  - intros [d3 out3] [? ?]. split; [done |]. by eapply same_schema_trans.
  - done.
Qed.

(** X10. No string getter runs into undefined behaviour on a well-formed
    dictionary whose source answers with well-shaped blocks: the batched
    getter and the getter of one key return or throw, and the dictionary
    they leave, returned or thrown, is again well-formed over a
    well-behaved source. *)
Theorem string_getters_safe (attribute_name : string) (ids : list Z)
    (out : ColumnString.t) (id : Z) (d : t) :
  well_formed d → well_behaved d →
  ends_in (λ '(d', _), well_formed d' ∧ well_behaved d') (λ _, False)
    (getString attribute_name ids out d) ∧
  match getString_individual attribute_name id d with
  | Ok (d', _) => well_formed d' ∧ well_behaved d'
  | Throw (_, (d', _)) => well_formed d' ∧ well_behaved d'
  | Undefined _ => False
  end.
Proof.
  intros Hwf Hsource. split.
  - unfold getString.
    pose proof (checked_attribute_safe AttributeType.string attribute_name d out Hwf) as Hchecked.
    destruct (checked_attribute AttributeType.string attribute_name d out) as [idx | [e s] | u];
      simpl; [| by subst s | done].
    destruct Hchecked as (attribute & Hattribute & Htype).
    pose proof (getItems_string_safe idx ids out d attribute Hwf Hsource Hattribute Htype) as Hget.
    eapply ends_in_mono; [| | exact Hget].
    + intros [d' out'] [? ?]. split; [done |]. by eapply well_behaved_same_schema.
    + done.
  - unfold getString_individual.
    pose proof (checked_attribute_safe AttributeType.string attribute_name d () Hwf) as Hchecked.
    destruct (checked_attribute AttributeType.string attribute_name d ()) as [idx | [e s] | u];
      simpl; [| by subst s | done].
    destruct Hchecked as (attribute & Hattribute & Htype).
    pose proof (getItems_string_safe idx [id] ColumnString.empty d attribute Hwf Hsource
                  Hattribute Htype) as Hget.
    destruct (getItems_string idx [id] ColumnString.empty d)
      as [[d' out'] | [e [d' out']] | u]; simpl in *; [| | done].
    + destruct Hget as (? & ?). split; [done |]. by eapply well_behaved_same_schema.
    + destruct Hget as (? & ?). split; [done |]. by eapply well_behaved_same_schema.
Qed.

End safety.

(** The blocks of the example source have the two columns of the example
    schema, a [UInt64] and a [String] in every row. *)
Lemma example_block_well_shaped rows :
  well_shaped (H := example_platform) [AttributeType.uint32; AttributeType.string]
    (example_block rows).
Proof.
  unfold well_shaped. simpl. intros n type Hn.
  destruct n as [| [| n]]; simpl in Hn; [| | done]; injection Hn as <-.
  - eexists. split; [reflexivity |]. intros i Hi.
    rewrite !length_fmap in Hi. destruct (lookup_lt_is_Some_2 rows i Hi) as [row Hrow].
    exists (Field_UInt64 row.1.2). split; [| done].
    by rewrite !list_lookup_fmap, Hrow.
  - eexists. split; [reflexivity |]. intros i Hi.
    rewrite !length_fmap in Hi. destruct (lookup_lt_is_Some_2 rows i Hi) as [row Hrow].
    exists (Field_String row.2). split; [| done].
    by rewrite !list_lookup_fmap, Hrow.
Qed.

Lemma example_dictionary_well_behaved unasked :
  well_behaved (H := example_platform) (example_dictionary unasked).
Proof.
  intros ids.
  change (attribute_t.type <$> CacheDictionary.attributes (example_dictionary unasked))
    with [AttributeType.uint32; AttributeType.string].
  apply Forall_cons. split; [apply example_block_well_shaped | constructor].
Qed.

(** The attribute [x] of the example dictionary, for the keys 4, 5, 4 and
    for the key 4 alone. *)
Lemma scalar_getters_safe_witness :
  ends_in (λ '(d', out'), well_formed d' ∧ well_behaved d' ∧ length out' = length [0; 0; 0])
    (λ _, False)
    (get (H := example_platform) UInt32 "x" [4; 5; 4] [0; 0; 0] (example_dictionary [])) ∧
  match get_individual (H := example_platform) UInt32 "x" 4 0 (example_dictionary []) with
  | Ok (d', _) => well_formed d' ∧ well_behaved d'
  | Throw (_, (d', _)) => well_formed d' ∧ well_behaved d'
  | Undefined _ => False
  end.
Proof.
  apply (scalar_getters_safe (H := example_platform) UInt32 "x" [4; 5; 4] [0; 0; 0] 4 0
           (example_dictionary []));
    [apply example_dictionary_well_formed | apply example_dictionary_well_behaved | simpl; lia].
Defined.

(** The attribute [s] of the example dictionary. *)
Lemma string_getters_safe_witness :
  ends_in (λ '(d', _), well_formed d' ∧ well_behaved d') (λ _, False)
    (getString (H := example_platform) "s" [4; 5; 4] ColumnString.empty (example_dictionary [])) ∧
  match getString_individual (H := example_platform) "s" 4 (example_dictionary []) with
  | Ok (d', _) => well_formed d' ∧ well_behaved d'
  | Throw (_, (d', _)) => well_formed d' ∧ well_behaved d'
  | Undefined _ => False
  end.
Proof.
  apply (string_getters_safe (H := example_platform) "s" [4; 5; 4] ColumnString.empty 4
           (example_dictionary []));
    [apply example_dictionary_well_formed | apply example_dictionary_well_behaved].
Defined.

(** The example dictionary stays well-formed through its lookups. *)
Lemma example_after_well_formed unasked lookups :
  well_formed (H := example_platform) (example_after unasked lookups) ∧
  same_schema (H := example_platform) (example_dictionary unasked) (example_after unasked lookups).
Proof.
  induction lookups as [| ids lookups IH] using rev_ind.
  { split; [apply example_dictionary_well_formed | apply same_schema_refl]. }
  destruct IH as [Hwf Hsame].
  unfold example_after in *. rewrite foldl_app. simpl.
  set (d := foldl _ (example_dictionary unasked) lookups) in *.
  assert (Hattribute : CacheDictionary.attributes (H := example_platform)
                         (example_dictionary unasked) !! 0%nat
                       = Some (createAttributeWithType (H := example_platform) 4
                                 AttributeType.uint32 "0")) by reflexivity.
  destruct (same_schema_lookup _ _ _ _ Hsame Hattribute) as (attribute & Hattribute' & Htype & _).
  pose proof (getItems_safe (H := example_platform) UInt32 0 ids (replicate (length ids) 0) d
                attribute Hwf
                (well_behaved_same_schema _ _ (example_dictionary_well_behaved unasked) Hsame)
                Hattribute' Htype ltac:(by rewrite length_replicate)) as Hget.
  destruct (getItems UInt32 0 ids (replicate (length ids) 0) d) as [[d' out'] | e | u];
    simpl in *; [| done | done].
  destruct Hget as (? & ? & _). split; [done |]. by eapply same_schema_trans.
Qed.

(** ** What a lookup asks of the source, and under which locks *)

Section requests.
Context `{Platform}.

Import CacheDictionary.

Lemma cell_outdated_rw_lock cell id d outdated d' :
  cell_outdated cell id d = (outdated, d') → rw_lock d' = rw_lock d.
Proof. by intros [-> | ->]%cell_outdated_cases. Qed.

Lemma fetch_row_not_Throw {E} (T : scalar) attribute i id s (e : E) :
  fetch_row T attribute i id s ≠ Throw e.
Proof.
  destruct s as [[d out] outdated_ids]. unfold fetch_row. intros Hthrow.
  destruct (decide (id = 0)).
  { apply bind_Throw in Hthrow as [Hthrow | (? & _ & ?)]; [| done].
    by apply store_not_Throw in Hthrow. }
  apply bind_Throw in Hthrow as [Hthrow | (cell & _ & Hthrow)];
    [by apply read_not_Throw in Hthrow |].
  destruct (cell_outdated cell id d) as [outdated d']. destruct outdated.
  - apply bind_Throw in Hthrow as [Hthrow | (? & _ & ?)]; [| done].
    by apply store_not_Throw in Hthrow.
  - apply bind_Throw in Hthrow as [Hthrow | (x & _ & Hthrow)];
      [by apply read_not_Throw in Hthrow |].
    apply bind_Throw in Hthrow as [Hthrow | (? & _ & ?)]; [| done].
    by apply store_not_Throw in Hthrow.
Qed.

Lemma fetch_rows_not_Throw {E} (T : scalar) attribute ids :
  ∀ i s (e : E), fetch_rows T attribute i ids s ≠ Throw e.
Proof.
  induction ids as [| id ids IH]; intros i s e Hthrow; [done |].
  simpl in Hthrow. apply bind_Throw in Hthrow as [Hthrow | (s' & _ & Hthrow)].
  - by apply fetch_row_not_Throw in Hthrow.
  - by apply IH in Hthrow.
Qed.

Lemma fetch_rows_rw_lock {E} (T : scalar) attribute ids :
  ∀ i d out outdated_ids d1 out1 outdated1,
  fetch_rows (E := E) T attribute i ids (d, out, outdated_ids) = Ok (d1, out1, outdated1) →
  rw_lock d1 = rw_lock d.
Proof.
  induction ids as [| id ids IH]; intros i d out outdated_ids d1 out1 outdated1 Hrows.
  { simpl in Hrows. by simplify_eq. }
  simpl in Hrows. apply bind_Ok in Hrows as ([[d' out'] outdated'] & Hrow & Hrows).
  apply IH in Hrows. rewrite Hrows. clear Hrows IH.
  unfold fetch_row in Hrow.
  destruct (decide (id = 0)).
  { apply bind_Ok in Hrow as (? & _ & Hrow). by simplify_eq. }
  apply bind_Ok in Hrow as (cell & _ & Hrow).
  destruct (cell_outdated cell id d) as [outdated d2] eqn:Houtdated.
  apply cell_outdated_rw_lock in Houtdated.
  destruct outdated.
  - apply bind_Ok in Hrow as (? & _ & Hrow). by simplify_eq.
  - apply bind_Ok in Hrow as (? & _ & Hrow).
    apply bind_Ok in Hrow as (? & _ & Hrow). by simplify_eq.
Qed.

(** X11. The scalar lookup asks the source at most once. It takes the
    read lock; if no key is outdated it ends there, without a call of
    [loadIds]. Otherwise it calls [loadIds] once and takes the write lock,
    and the keys of the request are distinct keys of [ids], none of them
    0, and at least one. This holds of the dictionary it returns and of
    the one an exception leaves. *)
Theorem getItems_requests (T : scalar) (attribute_idx : nat) (ids : list Z)
    (out : list (cpp T)) (d : t) :
  ends_in
    (λ '(d', _),
       (loadIds_calls d' = loadIds_calls d ∧
        rw_lock d' = rw_lock d ++ [ScopedReadRWLock]) ∨
       (∃ required_ids,
          loadIds_calls d' = loadIds_calls d ++ [required_ids] ∧
          rw_lock d' = rw_lock d ++ [ScopedReadRWLock; ScopedWriteRWLock] ∧
          required_ids ≠ [] ∧ NoDup required_ids ∧
          ∀ k, k ∈ required_ids → k ∈ ids ∧ k ≠ 0))
    (λ _, True)
    (getItems T attribute_idx ids out d).
Proof.
  unfold getItems.
  destruct (read attribute_index (attributes d) attribute_idx) as [attribute | e | u]
    eqn:Hattribute; simpl; [| by apply read_not_Throw in Hattribute | done].
  destruct (fetch_rows T attribute 0 ids _) as [[[d1 out1] outdated1] | e | u] eqn:Hrows;
    simpl; [| by apply fetch_rows_not_Throw in Hrows | done].
  pose proof (fetch_rows_rw_lock _ _ _ _ _ _ _ _ _ _ Hrows) as Hlock. simpl in Hlock.
  apply fetch_rows_keyed in Hrows as (Hsame & _ & Hkeys & _).
  destruct Hsame as (_ & _ & _ & _ & _ & Hcalls). simpl in Hcalls.
  destruct (decide (outdated1 = ∅)) as [Hempty | Hsome]; simpl; [by left |].
  pose proof (update_frame (on_scalar_updated T attribute_idx) (keys outdated1) d1
                (out1, outdated1)) as Hupdate.
  assert (Hrequest : keys outdated1 ≠ [] ∧ NoDup (keys outdated1) ∧
                     ∀ k, k ∈ keys outdated1 → k ∈ ids ∧ k ≠ 0).
  { split; [by intros ?%keys_nil |]. split; [apply NoDup_keys |].
    intros k Hk%elem_of_keys. destruct (Hkeys k Hk) as [Hk0 | ?]; [| done].
    rewrite lookup_empty in Hk0. by destruct Hk0. }
  destruct (update (keys outdated1) (on_scalar_updated T attribute_idx) (d1, (out1, outdated1)))
    as [[d2 [out2 outdated2]] | [e [d2 [out2 outdated2]]] | u]; simpl in *; [| | done].
  - destruct Hupdate as (_ & Hcalls2 & _ & Hlock2).
    right. exists (keys outdated1). rewrite Hcalls2, Hlock2, Hcalls, Hlock.
    split; [done |]. split; [by rewrite <- app_assoc | done].
  - destruct Hupdate as (_ & Hcalls2 & _ & Hlock2).
    right. exists (keys outdated1). rewrite Hcalls2, Hlock2, Hcalls, Hlock.
    split; [done |]. split; [by rewrite <- app_assoc | done].
Qed.

Lemma fetch_strings_not_Throw {E} attribute ids :
  ∀ s (e : E), fetch_strings attribute ids s ≠ Throw e.
Proof.
  induction ids as [| id ids IH]; intros [d out] e Hthrow; [done |].
  simpl in Hthrow. destruct (decide (id = 0)); [by apply IH in Hthrow |].
  apply bind_Throw in Hthrow as [Hthrow | (cell & _ & Hthrow)];
    [by apply read_not_Throw in Hthrow |].
  destruct (cell_outdated cell id d) as [outdated d']. destruct outdated; [done |].
  apply bind_Throw in Hthrow as [Hthrow | (x & _ & Hthrow)];
    [by apply read_not_Throw in Hthrow |].
  by apply IH in Hthrow.
Qed.

Lemma fetch_strings_rw_lock {E} attribute ids :
  ∀ d out flag d1 out1,
  fetch_strings (E := E) attribute ids (d, out) = Ok (flag, d1, out1) →
  rw_lock d1 = rw_lock d.
Proof.
  induction ids as [| id ids IH]; intros d out flag d1 out1 Hrows.
  { simpl in Hrows. by simplify_eq. }
  simpl in Hrows. destruct (decide (id = 0)); [by apply IH in Hrows |].
  apply bind_Ok in Hrows as (cell & _ & Hrows).
  destruct (cell_outdated cell id d) as [outdated d2] eqn:Houtdated.
  apply cell_outdated_rw_lock in Houtdated.
  destruct outdated; [by simplify_eq |].
  apply bind_Ok in Hrows as (? & _ & Hrows).
  apply IH in Hrows. congruence.
Qed.

Lemma collect_row_not_Throw {E} attribute id s (e : E) :
  collect_row attribute id s ≠ Throw e.
Proof.
  destruct s as [d [[outdated_ids map] total_length]]. unfold collect_row. intros Hthrow.
  destruct (decide (id = 0)); [done |].
  apply bind_Throw in Hthrow as [Hthrow | (cell & _ & Hthrow)];
    [by apply read_not_Throw in Hthrow |].
  destruct (cell_outdated cell id d) as [outdated d']. destruct outdated; [done |].
  apply bind_Throw in Hthrow as [Hthrow | (x & _ & Hthrow)]; [| done].
  by apply read_not_Throw in Hthrow.
Qed.

Lemma collect_rows_not_Throw {E} attribute ids :
  ∀ s (e : E), collect_rows attribute ids s ≠ Throw e.
Proof.
  induction ids as [| id ids IH]; intros s e Hthrow; [done |].
  simpl in Hthrow. apply bind_Throw in Hthrow as [Hthrow | (s' & _ & Hthrow)].
  - by apply collect_row_not_Throw in Hthrow.
  - by apply IH in Hthrow.
Qed.

Lemma collect_rows_keys {E} attribute ids :
  ∀ d outdated_ids map total_length d1 outdated1 map1 total_length1,
  collect_rows (E := E) attribute ids (d, (outdated_ids, map, total_length))
    = Ok (d1, (outdated1, map1, total_length1)) →
  rw_lock d1 = rw_lock d ∧
  ∀ k, is_Some (outdated1 !! k) → is_Some (outdated_ids !! k) ∨ (k ∈ ids ∧ k ≠ 0).
Proof.
  induction ids as [| id ids IH];
    intros d outdated_ids map total_length d1 outdated1 map1 total_length1 Hrows.
  { simpl in Hrows. simplify_eq. split; [done | by left]. }
  simpl in Hrows.
  apply bind_Ok in Hrows as ([d' [[outdated' map'] total_length']] & Hrow & Hrows).
  apply IH in Hrows as (Hlock1 & Hkeys1).
  assert (Hrow' : rw_lock d' = rw_lock d ∧
                  ∀ k, is_Some (outdated' !! k) →
                       is_Some (outdated_ids !! k) ∨ (k = id ∧ k ≠ 0)).
  { unfold collect_row in Hrow.
    destruct (decide (id = 0)); [simplify_eq; split; [done | by left] |].
    apply bind_Ok in Hrow as (cell & _ & Hrow).
    destruct (cell_outdated cell id d) as [outdated d2] eqn:Houtdated.
    apply cell_outdated_rw_lock in Houtdated.
    destruct outdated.
    - simplify_eq. split; [done |]. intros k Hk.
      destruct (decide (k = id)) as [-> | Hne]; [by right |].
      rewrite lookup_insert_ne in Hk by done. by left.
    - apply bind_Ok in Hrow as (? & _ & Hrow). simplify_eq. split; [done | by left]. }
  destruct Hrow' as (Hlock' & Hkeys').
  split; [congruence |].
  intros k Hk. destruct (Hkeys1 k Hk) as [Hk' | [Hin Hk0]].
  - destruct (Hkeys' k Hk') as [? | [-> ?]]; [by left | right]. split; [left | done].
  - right. split; [by right | done].
Qed.

Lemma getItems_pessimistic_requests (attribute_idx : nat) (ids : list Z)
    (out : ColumnString.t) (d : t) :
  ends_in
    (λ '(d', _),
       (loadIds_calls d' = loadIds_calls d ∧
        rw_lock d' = rw_lock d ++ [ScopedReadRWLock]) ∨
       (∃ required_ids,
          loadIds_calls d' = loadIds_calls d ++ [required_ids] ∧
          rw_lock d' = rw_lock d ++ [ScopedReadRWLock; ScopedWriteRWLock] ∧
          required_ids ≠ [] ∧ NoDup required_ids ∧
          ∀ k, k ∈ required_ids → k ∈ ids ∧ k ≠ 0))
    (λ _, True)
    (getItems_pessimistic attribute_idx ids out d).
Proof.
  unfold getItems_pessimistic.
  destruct (read attribute_index (attributes d) attribute_idx) as [attribute | e | u]
    eqn:Hattribute; simpl; [| by apply read_not_Throw in Hattribute | done].
  destruct (collect_rows attribute ids _) as [[d1 [[outdated1 map1] total_length1]] | e | u]
    eqn:Hrows; simpl; [| by apply collect_rows_not_Throw in Hrows | done].
  pose proof (collect_rows_keys _ _ _ _ _ _ _ _ _ _ Hrows) as (Hlock & Hkeys). simpl in Hlock.
  apply collect_rows_resident in Hrows as (Hsame & _).
  destruct Hsame as (_ & _ & _ & _ & _ & Hcalls). simpl in Hcalls.
  destruct (decide (outdated1 = ∅)) as [Hempty | Hsome]; simpl.
  { destruct (read attribute_index (attributes d1) attribute_idx) as [attribute1 | e | u]
      eqn:Hattribute1; simpl; [by left | by apply read_not_Throw in Hattribute1 | done]. }
  pose proof (update_frame (on_string_updated attribute_idx) (keys outdated1) d1
                (map1, total_length1)) as Hupdate.
  assert (Hrequest : keys outdated1 ≠ [] ∧ NoDup (keys outdated1) ∧
                     ∀ k, k ∈ keys outdated1 → k ∈ ids ∧ k ≠ 0).
  { split; [by intros ?%keys_nil |]. split; [apply NoDup_keys |].
    intros k Hk%elem_of_keys. destruct (Hkeys k Hk) as [Hk0 | ?]; [| done].
    rewrite lookup_empty in Hk0. by destruct Hk0. }
  destruct (update (keys outdated1) (on_string_updated attribute_idx) (d1, (map1, total_length1)))
    as [[d2 [map2 total_length2]] | [e [d2 [map2 total_length2]]] | u]; simpl in *; [| | done].
  - destruct Hupdate as (_ & Hcalls2 & _ & Hlock2).
    destruct (read attribute_index (attributes d2) attribute_idx) as [attribute2 | e | u]
      eqn:Hattribute2; simpl; [| by apply read_not_Throw in Hattribute2 | done].
    right. exists (keys outdated1). rewrite Hcalls2, Hlock2, Hcalls, Hlock.
    split; [done |]. split; [by rewrite <- app_assoc | done].
  - destruct Hupdate as (_ & Hcalls2 & _ & Hlock2).
    right. exists (keys outdated1). rewrite Hcalls2, Hlock2, Hcalls, Hlock.
    split; [done |]. split; [by rewrite <- app_assoc | done].
Qed.

(** X12. The string lookup asks the source at most once. The optimistic
    pass takes the read lock and, when every key is up to date, ends the
    lookup there. Otherwise the pessimistic pass takes the read lock again
    and, only if a key is outdated then, calls [loadIds] once and takes the
    write lock; the keys of the request are distinct keys of [ids], none of
    them 0, and at least one. This holds of the dictionary the lookup
    returns and of the one an exception leaves. *)
Theorem getItems_string_requests (attribute_idx : nat) (ids : list Z)
    (out : ColumnString.t) (d : t) :
  ends_in
    (λ '(d', _),
       (loadIds_calls d' = loadIds_calls d ∧
        (rw_lock d' = rw_lock d ++ [ScopedReadRWLock] ∨
         rw_lock d' = rw_lock d ++ [ScopedReadRWLock; ScopedReadRWLock])) ∨
       (∃ required_ids,
          loadIds_calls d' = loadIds_calls d ++ [required_ids] ∧
          rw_lock d' =
            rw_lock d ++ [ScopedReadRWLock; ScopedReadRWLock; ScopedWriteRWLock] ∧
          required_ids ≠ [] ∧ NoDup required_ids ∧
          ∀ k, k ∈ required_ids → k ∈ ids ∧ k ≠ 0))
    (λ _, True)
    (getItems_string attribute_idx ids out d).
Proof.
  unfold getItems_string.
  destruct (read attribute_index (attributes d) attribute_idx) as [attribute | e | u]
    eqn:Hattribute; simpl; [| by apply read_not_Throw in Hattribute | done].
  destruct (fetch_strings attribute ids _) as [[[flag d1] out1] | e | u] eqn:Hrows;
    simpl; [| by apply fetch_strings_not_Throw in Hrows | done].
  pose proof (fetch_strings_rw_lock _ _ _ _ _ _ _ Hrows) as Hlock. simpl in Hlock.
  apply fetch_strings_same in Hrows as (_ & _ & _ & _ & _ & Hcalls). simpl in Hcalls.
  destruct flag; simpl; [| left; split; [done | by left]].
  eapply ends_in_mono; [| | apply getItems_pessimistic_requests]; [| done].
  intros [d2 out2] [[Hcalls2 Hlock2] | (required_ids & Hcalls2 & Hlock2 & Hrequest)].
  - left. rewrite Hcalls2, Hlock2, Hcalls, Hlock. split; [done | right].
    by rewrite <- app_assoc.
  - right. exists required_ids. rewrite Hcalls2, Hlock2, Hcalls, Hlock.
    split; [done |]. split; [by rewrite <- app_assoc | done].
Qed.

(** ** The check of the id column *)

(** The blocks of a stream are refreshed one after the other. *)
Lemma update_blocks_app {X} (on_cell_updated : Z → Z → t → X → outcome Empty_set X)
    before after :
  ∀ s,
  update_blocks on_cell_updated (before ++ after) s
  = (s' ← update_blocks on_cell_updated before s; update_blocks on_cell_updated after s').
Proof.
  induction before as [| block before IH]; intros s; [done |].
  simpl. destruct (Block.id_column block) as [ids |]; [| done].
  destruct (update_rows on_cell_updated block 0 ids s) as [s1 | e | u]; simpl; [apply IH | done | done].
Qed.

(** X13. When the answer of the source holds a block whose id column is
    not a [ColumnVector<UInt64>], [update] does not return: it refreshes
    the blocks before that block and then throws TYPE_MISMATCH, with the
    dictionary and what the callback captures as the refresh of those
    blocks left them, so that nothing is rolled back; what comes after the
    block in the answer has no effect. *)
Theorem update_untyped_block {X} (on_cell_updated : Z → Z → t → X → outcome Empty_set X)
    (ids : list Z) (d : t) (x : X) (before : list Block.t) (block : Block.t)
    (rest : list Block.t) :
  IDictionarySource.loadIds (source_ptr d) ids = before ++ block :: rest →
  Block.id_column block = None →
  update ids on_cell_updated (d, x)
  = (s ← update_blocks on_cell_updated before
           (lock ScopedWriteRWLock (called_loadIds ids d), x);
     Throw (id_column_mismatch, s)) ∧
  code id_column_mismatch = TYPE_MISMATCH ∧
  ∀ s, update ids on_cell_updated (d, x) ≠ Ok s.
Proof.
  intros Hanswer Hblock.
  assert (Hupdate : update ids on_cell_updated (d, x)
                    = (s ← update_blocks on_cell_updated before
                             (lock ScopedWriteRWLock (called_loadIds ids d), x);
                       Throw (id_column_mismatch, s))).
  { unfold update. rewrite Hanswer, update_blocks_app.
    destruct (update_blocks on_cell_updated before _) as [s | e | u]; simpl; [| done | done].
    by rewrite Hblock. }
  split; [exact Hupdate |]. split; [done |].
  intros s. rewrite Hupdate.
  by destruct (update_blocks on_cell_updated before _).
Qed.

End requests.

(** The example dictionary over a source whose second block has an untyped
    id column, refreshed for key 4: the row of the first block is
    installed when the exception leaves. *)
Lemma update_untyped_block_witness :
  update (H := example_platform) (X := ()) [4] (λ _ _ _ x, Ok x) (example_untyped_dictionary, ())
  = (s ← update_blocks (H := example_platform) (λ _ _ _ x, Ok x)
           [example_block [(4, 7, ["a"%byte])]]
           (CacheDictionary.lock ScopedWriteRWLock
              (CacheDictionary.called_loadIds [4] example_untyped_dictionary), ());
     Throw (id_column_mismatch, s)) ∧
  code id_column_mismatch = TYPE_MISMATCH ∧
  ∀ s, update (H := example_platform) (X := ()) [4] (λ _ _ _ x, Ok x)
         (example_untyped_dictionary, ()) ≠ Ok s.
Proof.
  apply (update_untyped_block (H := example_platform) (X := ()) (λ _ _ _ x, Ok x) [4]
           example_untyped_dictionary () [example_block [(4, 7, ["a"%byte])]]
           {| Block.id_column := None; Block.columns := [] |}
           [example_block [(2, 3, ["h"%byte; "i"%byte])]]).
  - reflexivity.
  - reflexivity.
Defined.

(** What that refresh and a lookup of key 4 leave when the exception
    leaves: key 4 is in its cell, key 2 is not, and position 0 of the
    output of the lookup holds the value of the row of key 4. *)
Lemma example_untyped_lookup :
  match update (H := example_platform) (X := ()) [4] (λ _ _ _ x, Ok x)
          (example_untyped_dictionary, ()) with
  | Throw (e, (d', _)) =>
      e = id_column_mismatch ∧
      cell_metadata_t.id <$> CacheDictionary.cells d' = [0; 4; 0; 0]
  | _ => False
  end ∧
  match getItems (H := example_platform) UInt32 0 [4] [0] example_untyped_dictionary with
  | Throw (e, (d', out')) =>
      e = id_column_mismatch ∧
      cell_metadata_t.id <$> CacheDictionary.cells d' = [0; 4; 0; 0] ∧
      out' = [7]
  | _ => False
  end.
Proof. vm_compute. done. Qed.

(** ** Lookups that find every key up to date *)

Section hits.
Context `{Platform}.

Import CacheDictionary.

(** The first loop on keys that are all up to date: nothing is noted as
    outdated, and every position receives the null value for key 0 and the
    value in the slot of its key otherwise. *)
Lemma fetch_rows_all_fresh {E} (T : scalar) attribute ids :
  ∀ i d out outdated_ids,
  length (arrays_t.get T (attribute_t.arrays attribute)) = length (cells d) →
  all_fresh d (length ids) ids →
  (i + length ids ≤ length out)%nat →
  ∃ d1 out1,
    fetch_rows (E := E) T attribute i ids (d, out, outdated_ids) = Ok (d1, out1, outdated_ids) ∧
    same_contents d d1 ∧ rw_lock d1 = rw_lock d ∧
    length out1 = length out ∧
    (∀ j, (j < i ∨ i + length ids ≤ j)%nat → out1 !! j = out !! j) ∧
    (∀ p k, ids !! p = Some k →
       out1 !! (i + p)%nat =
         if decide (k = 0) then Some (null_values_t.get T (attribute_t.null_values attribute))
         else arrays_t.get T (attribute_t.arrays attribute) !! Z.to_nat (getCellIdx d k)).
Proof.
  induction ids as [| id ids IH]; intros i d out outdated_ids Hlength Hfresh Hout.
  { exists d, out. split; [done |]. split; [apply same_contents_refl |].
    split; [done |]. split; [done |]. split; [done |]. by intros p k ?. }
  simpl in Hout. simpl. unfold fetch_row.
  destruct (decide (id = 0)) as [-> | Hid].
  { rewrite store_lt by lia. simpl.
    destruct (IH (S i) d
                (<[i := null_values_t.get T (attribute_t.null_values attribute)]> out)
                outdated_ids Hlength)
      as (d1 & out1 & Hrows & Hsame & Hlock & Hlength1 & Hother & Hvalues).
    - intros n k Hn Hk Hk0. apply Hfresh; [simpl; lia | by right | done].
    - rewrite length_insert. lia.
    - exists d1, out1. split; [done |]. split; [done |]. split; [done |].
      rewrite length_insert in Hlength1. split; [done |]. split.
      + intros j Hj. rewrite Hother by lia. apply list_lookup_insert_ne. lia.
      + intros [| p] k Hp; simpl in Hp.
        * injection Hp as <-. rewrite Nat.add_0_r, Hother by lia.
          rewrite decide_True by done. apply list_lookup_insert_eq. lia.
        * replace (i + S p)%nat with (S i + p)%nat by lia. by apply Hvalues. }
  assert (Hup : up_to_date d (clock_reads d) id = true).
  { apply Hfresh; [simpl; lia | left | done]. }
  assert (∃ cell, cells d !! Z.to_nat (getCellIdx d id) = Some cell) as [cell Hcell].
  { unfold up_to_date in Hup. destruct (cells d !! _); [eauto | done]. }
  destruct (lookup_lt_is_Some_2 (arrays_t.get T (attribute_t.arrays attribute))
              (Z.to_nat (getCellIdx d id))) as [x Hx].
  { rewrite Hlength. by eapply lookup_lt_Some. }
  rewrite (read_lookup _ _ _ _ Hcell). simpl.
  destruct (cell_outdated_spec cell id d Hcell) as (d' & Houtdated & Hsame & Hreads).
  pose proof (cell_outdated_rw_lock _ _ _ _ _ Houtdated) as Hlock.
  rewrite Houtdated, Hup. simpl. rewrite (read_lookup _ _ _ _ Hx). simpl.
  rewrite store_lt by lia. simpl.
  destruct (IH (S i) d' (<[i := x]> out) outdated_ids)
    as (d1 & out1 & Hrows & Hsame1 & Hlock1 & Hlength1 & Hother & Hvalues).
  - destruct Hsame as (-> & _). done.
  - intros n k Hn Hk Hk0. rewrite (up_to_date_same _ _ _ _ Hsame).
    apply Hfresh; [simpl; lia | by right | done].
  - rewrite length_insert. lia.
  - exists d1, out1. split; [done |]. split; [by eapply same_contents_trans |].
    split; [congruence |]. rewrite length_insert in Hlength1. split; [done |]. split.
    + intros j Hj. rewrite Hother by lia. apply list_lookup_insert_ne. lia.
    + intros [| p] k Hp; simpl in Hp.
      * injection Hp as <-. rewrite Nat.add_0_r, Hother by lia.
        rewrite decide_False by done. rewrite Hx. apply list_lookup_insert_eq. lia.
      * replace (i + S p)%nat with (S i + p)%nat by lia.
        rewrite (Hvalues p k Hp). by rewrite (getCellIdx_same _ _ _ Hsame).
Qed.

Lemma getItems_all_fresh (T : scalar) attribute_idx ids out d attribute :
  attributes d !! attribute_idx = Some attribute →
  length (arrays_t.get T (attribute_t.arrays attribute)) = length (cells d) →
  (length ids ≤ length out)%nat →
  all_fresh d (length ids) ids →
  ∃ d' out',
    getItems T attribute_idx ids out d = Ok (d', out') ∧
    same_contents d d' ∧
    rw_lock d' = rw_lock d ++ [ScopedReadRWLock] ∧
    length out' = length out ∧
    (∀ j k, ids !! j = Some k →
       out' !! j =
         if decide (k = 0) then Some (null_values_t.get T (attribute_t.null_values attribute))
         else arrays_t.get T (attribute_t.arrays attribute) !! Z.to_nat (getCellIdx d k)) ∧
    (∀ j, (length ids ≤ j)%nat → out' !! j = out !! j).
Proof.
  intros Hattribute Hlength Hout Hfresh.
  unfold getItems. rewrite (read_lookup _ _ _ _ Hattribute). simpl.
  match goal with
  | |- context [@fetch_rows _ ?E T attribute 0%nat ids ?s] =>
      destruct (fetch_rows_all_fresh (E := E) T attribute ids 0
                  (lock ScopedReadRWLock d) out ∅ Hlength)
        as (d1 & out1 & Hrows & Hsame & Hlock & Hlength1 & Hother & Hvalues);
        [by eapply all_fresh_later; [apply same_contents_lock | | | exact Hfresh]
        | simpl; lia |];
      change (@fetch_rows _ E T attribute 0%nat ids s)
        with (fetch_rows (E := E) T attribute 0 ids (lock ScopedReadRWLock d, out, ∅))
  end.
  rewrite Hrows. simpl. rewrite decide_True by done.
  exists d1, out1. split; [done |].
  split; [by eapply same_contents_trans; [apply same_contents_lock |] |].
  split; [done |]. split; [done |]. split.
  - intros j k Hj. exact (Hvalues j k Hj).
  - intros j Hj. apply Hother. lia.
Qed.

(** X14. A scalar lookup whose keys are all up to date at the readings
    of the clock it takes returns, on a well-formed dictionary and with
    room for the keys in the output, without a call of the source and with
    only the read lock taken: cells, attributes and source calls are as
    they were, position [j] of the output holds the null value when
    [ids[j]] is 0 and the value in the slot of [ids[j]] otherwise, and the
    output past the keys is untouched. *)
Theorem getItems_hit (T : scalar) (attribute_idx : nat) (ids : list Z) (out : list (cpp T))
    (d : t) (attribute : attribute_t.t) :
  well_formed d →
  attributes d !! attribute_idx = Some attribute →
  attribute_t.type attribute = LC_TYPE T →
  (length ids ≤ length out)%nat →
  all_fresh d (length ids) ids →
  ∃ d' out',
    getItems T attribute_idx ids out d = Ok (d', out') ∧
    same_contents d d' ∧
    rw_lock d' = rw_lock d ++ [ScopedReadRWLock] ∧
    length out' = length out ∧
    (∀ j k, ids !! j = Some k →
       out' !! j =
         if decide (k = 0) then Some (null_values_t.get T (attribute_t.null_values attribute))
         else arrays_t.get T (attribute_t.arrays attribute) !! Z.to_nat (getCellIdx d k)) ∧
    (∀ j, (length ids ≤ j)%nat → out' !! j = out !! j).
Proof.
  intros Hwf Hattribute Htype Hout Hfresh.
  apply getItems_all_fresh; [done | | done | done].
  pose proof (well_formed_slots d _ _ Hwf Hattribute) as Hslots.
  rewrite (slots_scalar T) in Hslots by done.
  destruct Hwf as (_ & Hcells & _). congruence.
Qed.

(** X15. What the getter of one key returns does not depend on the
    uninitialised element of its one-element output: the first loop writes
    the element before anything reads it. *)
Theorem get_individual_initialised (T : scalar) (attribute_name : string) (id : Z)
    (uninitialised uninitialised' : cpp T) (d : t) :
  get_individual T attribute_name id uninitialised d
  = get_individual T attribute_name id uninitialised' d.
Proof.
  unfold get_individual.
  destruct (checked_attribute (LC_TYPE T) attribute_name d ()) as [idx | e | u]; [| done | done].
  simpl. unfold getItems.
  destruct (read attribute_index (attributes d) idx) as [attribute | e | u]; [| done | done].
  simpl. unfold fetch_row.
  destruct (decide (id = 0)) as [-> | Hid]; [done |].
  destruct (read cell_index (cells (lock ScopedReadRWLock d)) _) as [cell | e | u];
    [| done | done].
  simpl. destruct (cell_outdated cell id (lock ScopedReadRWLock d)) as [outdated d'].
  destruct outdated; [done |].
  destruct (read array_index (arrays_t.get T (attribute_t.arrays attribute)) _)
    as [x | e | u]; done.
Qed.

(** X16. The scalar lookup gives every position of key 0 the null value
    of the attribute, whatever the cache holds and whatever rows the source
    sends, a row for key 0 included. *)
Theorem getItems_key_zero (T : scalar) (attribute_idx : nat) (ids : list Z)
    (out : list (cpp T)) (d : t) (attribute : attribute_t.t) :
  attributes d !! attribute_idx = Some attribute →
  attribute_t.type attribute = LC_TYPE T →
  match getItems T attribute_idx ids out d with
  | Ok (d', out') =>
      ∀ j, ids !! j = Some 0 →
        out' !! j = Some (null_values_t.get T (attribute_t.null_values attribute))
  | Throw _ => True
  | Undefined _ => True
  end.
Proof.
  intros Hattribute Htype.
  destruct (getItems T attribute_idx ids out d) as [[d' out'] | e | u] eqn:Hget; [| done | done].
  destruct (getItems_zero T attribute_idx ids out d attribute d' out' Hattribute Htype Hget)
    as [Hzero _].
  exact Hzero.
Qed.

End hits.

(** The example dictionary after a lookup of key 4, asked for the keys 4,
    0 and 4 at the readings 1 and 2 of the clock. *)
Lemma getItems_hit_witness :
  ∃ d' out',
    getItems (H := example_platform) UInt32 0 [4; 0; 4] [0; 0; 0; 0] (example_after [] [[4]])
      = Ok (d', out') ∧
    same_contents (example_after [] [[4]]) d' ∧
    CacheDictionary.rw_lock d'
      = CacheDictionary.rw_lock (example_after [] [[4]]) ++ [ScopedReadRWLock] ∧
    length out' = length [0; 0; 0; 0] ∧
    (∀ j k, [4; 0; 4] !! j = Some k →
       out' !! j =
         if decide (k = 0)
         then Some (null_values_t.get UInt32
                      (attribute_t.null_values (example_after_attribute_x [] [[4]])))
         else arrays_t.get UInt32 (attribute_t.arrays (example_after_attribute_x [] [[4]]))
                !! Z.to_nat (getCellIdx (example_after [] [[4]]) k)) ∧
    (∀ j, (length [4; 0; 4] ≤ j)%nat → out' !! j = [0; 0; 0; 0] !! j).
Proof.
  apply (getItems_hit (H := example_platform) UInt32 0 [4; 0; 4] [0; 0; 0; 0]
           (example_after [] [[4]]) (example_after_attribute_x [] [[4]])).
  - apply example_after_well_formed.
  - reflexivity.
  - reflexivity.
  - simpl. lia.
  - intros n id Hn Hid Hid0.
    assert (id = 4) as ->.
    { apply elem_of_cons in Hid as [-> | Hid]; [done |].
      apply elem_of_cons in Hid as [-> | Hid]; [done |].
      apply elem_of_cons in Hid as [-> | Hid]; [done |].
      by apply elem_of_nil in Hid. }
    assert (n = 1 ∨ n = 2 ∨ n = 3)%nat as [-> | [-> | ->]]
      by (change (CacheDictionary.clock_reads (example_after [] [[4]])) with 1%nat in Hn;
          simpl in Hn; lia);
      vm_compute; reflexivity.
Defined.

(** The example dictionary over a source that sends a row for key 0 with
    every answer, asked for the keys 4 and 0. *)
Lemma getItems_key_zero_witness :
  match getItems (H := example_platform) UInt32 0 [4; 0] [0; 0]
          (example_dictionary [(0, 1, ["z"%byte])]) with
  | Ok (d', out') =>
      ∀ j, [4; 0] !! j = Some 0 →
        out' !! j = Some (null_values_t.get UInt32 (attribute_t.null_values example_scalar_attribute))
  | Throw _ => True
  | Undefined _ => True
  end.
Proof.
  apply (getItems_key_zero (H := example_platform) UInt32 0 [4; 0] [0; 0]
           (example_dictionary [(0, 1, ["z"%byte])]) example_scalar_attribute);
    reflexivity.
Defined.

(** ** A value fetched from the source is served from the cache *)

Section round_trip.
Context `{Platform}.

Import CacheDictionary.

Lemma keys_singleton {V} (k : Z) (v : V) : keys (<[k := v]> (∅ : gmap Z V)) = [k].
Proof. unfold keys. by rewrite insert_empty, map_to_list_singleton. Qed.



End round_trip.

(** ** Keys the source has no row for, and the instant of expiry *)

Section misses.
Context `{Platform}.

Import CacheDictionary.

Lemma update_blocks_without_rows {X}
    (on_cell_updated : Z → Z → t → X → outcome Empty_set X) stream s :
  Forall (λ block, Block.id_column block = Some []) stream →
  update_blocks on_cell_updated stream s = Ok s.
Proof.
  induction 1 as [| block stream Hblock _ IH]; [done |].
  simpl. rewrite Hblock. simpl. exact IH.
Qed.

(** X18. When the source answers with no row, a scalar lookup returns
    and leaves cells and attributes as they were: nothing is cached for a
    key the source does not have, no key becomes up to date, and the next
    lookup of such a key asks the source again. When no cell expires
    between the readings of the first loop, a position holds the value in
    the slot of its key if the key is up to date and not 0, and the null
    value otherwise. *)
Theorem getItems_unanswered (T : scalar) (attribute_idx : nat) (ids : list Z)
    (out : list (cpp T)) (d : t) (attribute : attribute_t.t) :
  attributes d !! attribute_idx = Some attribute →
  (∀ required_ids, (∀ k, k ∈ required_ids → k ∈ ids) →
     Forall (λ block, Block.id_column block = Some [])
       (IDictionarySource.loadIds (source_ptr d) required_ids)) →
  steady d (length ids) →
  match getItems T attribute_idx ids out d with
  | Ok (d', out') =>
      cells d' = cells d ∧ attributes d' = attributes d ∧
      (∀ n k, up_to_date d' n k = up_to_date d n k) ∧
      (∀ j k, ids !! j = Some k →
         out' !! j =
           if decide (k ≠ 0 ∧ up_to_date d (clock_reads d) k = true)
           then arrays_t.get T (attribute_t.arrays attribute) !! Z.to_nat (getCellIdx d k)
           else Some (null_values_t.get T (attribute_t.null_values attribute)))
  | Throw _ => False
  | Undefined _ => True
  end.
Proof.
  intros Hattribute Hanswer Hsteady.
  unfold getItems. rewrite (read_lookup _ _ _ _ Hattribute). simpl.
  destruct (fetch_rows T attribute 0 ids _) as [[[d1 out1] outdated1] | e | u] eqn:Hrows;
    simpl; [| by apply fetch_rows_not_Throw in Hrows | done].
  pose proof (fetch_rows_keyed _ _ _ _ _ _ _ _ _ _ Hrows) as (_ & _ & Hkeys & _).
  apply (fetch_rows_steady T attribute (up_to_date d (clock_reads d))) in Hrows
    as (Hsame & _ & _ & _ & _ & _ & Hvalues); [| exact Hsteady].
  destruct Hsame as (Hcells & Hattributes & Hsize & Hsource & _). simpl in *.
  assert (Hresult : ∀ d' : t,
            cells d' = cells d1 → attributes d' = attributes d1 → size d' = size d1 →
            cells d' = cells d ∧ attributes d' = attributes d ∧
            (∀ n k, up_to_date d' n k = up_to_date d n k) ∧
            (∀ j k, ids !! j = Some k →
               out1 !! j =
                 if decide (k ≠ 0 ∧ up_to_date d (clock_reads d) k = true)
                 then arrays_t.get T (attribute_t.arrays attribute) !! Z.to_nat (getCellIdx d k)
                 else Some (null_values_t.get T (attribute_t.null_values attribute)))).
  { intros d' Hcells' Hattributes' Hsize'.
    split; [congruence |]. split; [congruence |]. split.
    - intros n k. unfold up_to_date, getCellIdx. by rewrite Hcells', Hcells, Hsize', Hsize.
    - intros j k Hj. rewrite (Hvalues j k Hj).
      destruct (decide (k = 0)) as [-> | Hk].
      + rewrite decide_False; [done |]. by intros [? _].
      + destruct (up_to_date d (clock_reads d) k).
        * by rewrite decide_True.
        * rewrite decide_False; [done |]. by intros [_ ?]. }
  destruct (decide (outdated1 = ∅)) as [Hempty | Hsome]; simpl; [by apply Hresult |].
  unfold update. rewrite update_blocks_without_rows.
  - simpl.
    exact (Hresult (lock ScopedWriteRWLock (called_loadIds (keys outdated1) d1))
             eq_refl eq_refl eq_refl).
  - rewrite Hsource. apply Hanswer. intros k Hk%elem_of_keys.
    destruct (Hkeys k Hk) as [Hk0 | [? _]]; [| done].
    rewrite lookup_empty in Hk0. by destruct Hk0.
Qed.

(** X19. A lookup of one key other than 0 asks the source exactly when
    the cell of its slot holds another key or the clock reads [expires_at]
    or later: a cell expires at the instant [expires_at], not after it.
    The request is then for that key alone. *)
Theorem getItems_one_key (T : scalar) (attribute_idx : nat) (id : Z) (out : list (cpp T))
    (d : t) (cell : cell_metadata_t.t) :
  id ≠ 0 →
  cells d !! Z.to_nat (getCellIdx d id) = Some cell →
  ends_in
    (λ '(d', _),
       loadIds_calls d' =
         loadIds_calls d ++
           (if bool_decide (cell_metadata_t.id cell = id ∧
                            system_clock_now (clock_reads d) < cell_metadata_t.expires_at cell)
            then [] else [[id]]))
    (λ _, True)
    (getItems T attribute_idx [id] out d).
Proof.
  intros Hid Hcell. unfold getItems.
  destruct (read attribute_index (attributes d) attribute_idx) as [attribute | e | u]
    eqn:Hattribute; simpl; [| by apply read_not_Throw in Hattribute | done].
  destruct (fetch_row T attribute 0 id _) as [[[d1 out1] outdated1] | e | u] eqn:Hrow;
    simpl; [| by apply fetch_row_not_Throw in Hrow | done].
  apply fetch_row_Ok in Hrow as (Hsame & _ & _ & _ & ->).
  destruct Hsame as (_ & _ & _ & _ & _ & Hcalls). simpl in Hcalls.
  change (up_to_date (lock ScopedReadRWLock d) (clock_reads (lock ScopedReadRWLock d)) id)
    with (up_to_date d (clock_reads d) id).
  assert (Hfresh : up_to_date d (clock_reads d) id
                   = bool_decide (cell_metadata_t.id cell = id ∧
                                  system_clock_now (clock_reads d)
                                  < cell_metadata_t.expires_at cell)).
  { unfold up_to_date. by rewrite Hcell. }
  rewrite <- Hfresh.
  destruct (up_to_date d (clock_reads d) id).
  - rewrite (decide_False (P := id ≠ 0 ∧ true = false)) by (by intros [_ ?]).
    rewrite decide_True by done. simpl. by rewrite app_nil_r.
  - rewrite !(decide_True (P := id ≠ 0 ∧ false = false)) by done.
    unfold push_back_outdated. rewrite positions_empty. simpl.
    rewrite decide_False by (apply insert_non_empty).
    rewrite keys_singleton.
    pose proof (update_frame (on_scalar_updated T attribute_idx) [id] d1
                  (out1, <[id := [0%nat]]> ∅)) as Hupdate.
    destruct (update [id] (on_scalar_updated T attribute_idx) (d1, (out1, <[id := [0%nat]]> ∅)))
      as [[d2 [out2 outdated2]] | [e [d2 [out2 outdated2]]] | u]; simpl in *; [| | done].
    + destruct Hupdate as (_ & -> & _). by rewrite Hcalls.
    + destruct Hupdate as (_ & -> & _). by rewrite Hcalls.
Qed.

(** X20. A string that a refresh installs in a slot, empty or not, is
    read back from the slot as the source sent it; an empty string takes
    no array: its slot holds the null [StringRef]. The other slots of the
    attribute are as they were. *)
Theorem setAttributeValue_string_read_back {E} (attribute : attribute_t.t) (idx : Z)
    (string : String) :
  attribute_t.type attribute = AttributeType.string →
  (Z.to_nat idx < length (arrays_t.of_StringRef (attribute_t.arrays attribute)))%nat →
  ∃ attribute' string_ref,
    setAttributeValue (E := E) attribute idx (Field_String string) = Ok attribute' ∧
    arrays_t.of_StringRef (attribute_t.arrays attribute') !! Z.to_nat idx = Some string_ref ∧
    StringRef.bytes string_ref = string ∧
    (string = [] → string_ref = StringRef.null) ∧
    (string ≠ [] → StringRef.data string_ref = Some (string ++ [x00])) ∧
    ∀ j, j ≠ Z.to_nat idx →
      arrays_t.of_StringRef (attribute_t.arrays attribute') !! j
      = arrays_t.of_StringRef (attribute_t.arrays attribute) !! j.
Proof.
  intros Htype Hidx.
  destruct (set_string_safe (E := E) attribute idx string Htype Hidx)
    as (string_ref & Hset & Hbytes & Hempty & Hfull).
  eexists _, string_ref. unfold setAttributeValue. rewrite Htype.
  split; [exact Hset |]. simpl.
  split; [by apply list_lookup_insert_eq |].
  split; [done |]. split; [done |].
  split; [intros Hne; by destruct (Hfull Hne) |].
  intros j Hj. by apply list_lookup_insert_ne.
Qed.

End misses.



(** The example source has no row for key 9. *)
Lemma example_source_unknown (required_ids : list Z) :
  (∀ k, k ∈ required_ids → k ∈ [9; 0; 9]) →
  Forall (λ block, Block.id_column block = Some [])
    (IDictionarySource.loadIds
       (CacheDictionary.source_ptr (H := example_platform) (example_dictionary []))
       required_ids).
Proof.
  intros Hrequired.
  assert (Hnone : omap (λ id, list_find (λ row : Z * Z * String, row.1.1 = id) example_table
                              ≫= λ found, Some found.2) required_ids = []).
  { induction required_ids as [| k required_ids IH]; [done |].
    assert (Hk : k = 9 ∨ k = 0).
    { specialize (Hrequired k ltac:(left)).
      apply elem_of_cons in Hrequired as [-> | Hrequired]; [by left |].
      apply elem_of_cons in Hrequired as [-> | Hrequired]; [by right |].
      apply elem_of_cons in Hrequired as [-> | Hrequired]; [by left |].
      by apply elem_of_nil in Hrequired. }
    specialize (IH ltac:(intros k' Hk'; apply Hrequired; by right)).
    destruct Hk as [-> | ->]; simpl; exact IH. }
  change (IDictionarySource.loadIds
            (CacheDictionary.source_ptr (H := example_platform) (example_dictionary []))
            required_ids)
    with [example_block
            ([] ++ omap (λ id, list_find (λ row : Z * Z * String, row.1.1 = id) example_table
                               ≫= λ found, Some found.2) required_ids)].
  rewrite Hnone. apply Forall_cons. split; [reflexivity | constructor].
Qed.

(** The example dictionary, asked for the keys 9, 0 and 9. *)
Lemma getItems_unanswered_witness :
  match getItems (H := example_platform) UInt32 0 [9; 0; 9] [5; 5; 5] (example_dictionary []) with
  | Ok (d', out') =>
      CacheDictionary.cells d' = CacheDictionary.cells (example_dictionary []) ∧
      CacheDictionary.attributes d' = CacheDictionary.attributes (example_dictionary []) ∧
      (∀ n k, up_to_date d' n k = up_to_date (example_dictionary []) n k) ∧
      (∀ j k, [9; 0; 9] !! j = Some k →
         out' !! j =
           if decide (k ≠ 0 ∧
                      up_to_date (example_dictionary [])
                        (CacheDictionary.clock_reads (example_dictionary [])) k = true)
           then arrays_t.get UInt32 (attribute_t.arrays example_scalar_attribute)
                  !! Z.to_nat (getCellIdx (example_dictionary []) k)
           else Some (null_values_t.get UInt32 (attribute_t.null_values example_scalar_attribute)))
  | Throw _ => False
  | Undefined _ => True
  end.
Proof.
  apply (getItems_unanswered (H := example_platform) UInt32 0 [9; 0; 9] [5; 5; 5]
           (example_dictionary []) example_scalar_attribute).
  - reflexivity.
  - apply example_source_unknown.
  - apply example_dictionary_steady.
Defined.

(** The example dictionary after a lookup of key 4: the cell of slot 1
    holds key 4 and expires at 10 seconds. *)
Lemma getItems_one_key_witness :
  ends_in
    (λ '(d', _),
       CacheDictionary.loadIds_calls d' =
         CacheDictionary.loadIds_calls (H := example_platform) (example_after [] [[4]]) ++
           (if bool_decide
                 (cell_metadata_t.id
                    {| cell_metadata_t.id := 4; cell_metadata_t.expires_at := seconds 10 |} = 4 ∧
                  @system_clock_now example_platform
                    (CacheDictionary.clock_reads (example_after [] [[4]]))
                  < cell_metadata_t.expires_at
                      {| cell_metadata_t.id := 4; cell_metadata_t.expires_at := seconds 10 |})
            then [] else [[4]]))
    (λ _, True)
    (getItems (H := example_platform) UInt32 0 [4] [0] (example_after [] [[4]])).
Proof.
  apply (getItems_one_key (H := example_platform) UInt32 0 4 [0] (example_after [] [[4]])
           {| cell_metadata_t.id := 4; cell_metadata_t.expires_at := seconds 10 |}).
  - lia.
  - vm_compute. reflexivity.
Defined.

(** A string slot of the example dictionary and the empty string. *)
Lemma setAttributeValue_string_read_back_witness :
  ∃ attribute' string_ref,
    setAttributeValue (H := example_platform) (E := ()) example_string_attribute 1
      (Field_String []) = Ok attribute' ∧
    arrays_t.of_StringRef (attribute_t.arrays attribute') !! Z.to_nat 1 = Some string_ref ∧
    StringRef.bytes string_ref = [] ∧
    (([] : String) = [] → string_ref = StringRef.null) ∧
    (([] : String) ≠ [] → StringRef.data string_ref = Some ([] ++ [x00])) ∧
    ∀ j, j ≠ Z.to_nat 1 →
      arrays_t.of_StringRef (attribute_t.arrays attribute') !! j
      = arrays_t.of_StringRef (attribute_t.arrays example_string_attribute) !! j.
Proof.
  apply (setAttributeValue_string_read_back (H := example_platform) (E := ())
           example_string_attribute 1 []).
  - reflexivity.
  - vm_compute. lia.
Defined.

(** ** A refresh writes the slots of the rows it receives, and no other *)

Section other_slots.
Context `{Platform}.

Import CacheDictionary.

Lemma arrays_of_StringRef_set (T : scalar) (x : list (cpp T)) (a : arrays_t.t) :
  arrays_t.of_StringRef (arrays_t.set T x a) = arrays_t.of_StringRef a.
Proof. by destruct T. Qed.

Lemma arrays_get_set_StringRef (T : scalar) (x : list StringRef.t) (a : arrays_t.t) :
  arrays_t.get T (arrays_t.set_StringRef x a) = arrays_t.get T a.
Proof. by destruct T. Qed.

Lemma set_scalar_other_slots {E} (T0 : scalar) attribute idx value attribute' :
  set_scalar (E := E) T0 attribute idx value = Ok attribute' →
  ∀ j, j ≠ Z.to_nat idx →
    (∀ T, arrays_t.get T (attribute_t.arrays attribute') !! j
          = arrays_t.get T (attribute_t.arrays attribute) !! j) ∧
    arrays_t.of_StringRef (attribute_t.arrays attribute') !! j
    = arrays_t.of_StringRef (attribute_t.arrays attribute) !! j.
Proof.
  intros (x & _ & _ & ->)%set_scalar_Ok j Hj. simpl. split.
  - intros T. destruct (decide (T0 = T)) as [<- | Hne].
    + rewrite arrays_get_set. by apply list_lookup_insert_ne.
    + by rewrite arrays_get_set_ne.
  - by rewrite arrays_of_StringRef_set.
Qed.

Lemma setAttributeValue_other_slots {E} attribute idx value attribute' :
  setAttributeValue (E := E) attribute idx value = Ok attribute' →
  ∀ j, j ≠ Z.to_nat idx →
    (∀ T, arrays_t.get T (attribute_t.arrays attribute') !! j
          = arrays_t.get T (attribute_t.arrays attribute) !! j) ∧
    arrays_t.of_StringRef (attribute_t.arrays attribute') !! j
    = arrays_t.of_StringRef (attribute_t.arrays attribute) !! j.
Proof.
  unfold setAttributeValue.
  destruct (attribute_t.type attribute); try apply set_scalar_other_slots.
  unfold set_string. intros Hset j Hj.
  apply bind_Ok in Hset as (string & _ & Hset).
  apply bind_Ok in Hset as (old & _ & Hset).
  apply bind_Ok in Hset as (string_ref & _ & Hset).
  apply bind_Ok in Hset as (array & [_ ->]%store_Ok & [= <-]).
  simpl. split.
  - intros T. by rewrite arrays_get_set_StringRef.
  - by apply list_lookup_insert_ne.
Qed.

Lemma setAttributeValues_other_slots {E} block i cell_idx attributes :
  ∀ attribute_idx attributes',
  setAttributeValues (E := E) block i cell_idx attribute_idx attributes = Ok attributes' →
  ∀ j, j ≠ Z.to_nat cell_idx →
    Forall2 (λ attribute attribute',
               (∀ T, arrays_t.get T (attribute_t.arrays attribute') !! j
                     = arrays_t.get T (attribute_t.arrays attribute) !! j) ∧
               arrays_t.of_StringRef (attribute_t.arrays attribute') !! j
               = arrays_t.of_StringRef (attribute_t.arrays attribute) !! j)
      attributes attributes'.
Proof.
  induction attributes as [| attribute rest IH]; intros attribute_idx attributes' Hset j Hj.
  { simpl in Hset. injection Hset as <-. constructor. }
  simpl in Hset.
  apply bind_Ok in Hset as (attribute_column & _ & Hset).
  apply bind_Ok in Hset as (value & _ & Hset).
  apply bind_Ok in Hset as (attribute' & Hattribute' & Hset).
  apply bind_Ok in Hset as (rest' & Hrest & [= <-]).
  constructor.
  - by eapply setAttributeValue_other_slots.
  - by eapply IH.
Qed.

Section refresh.
Context {X : Type} (on_cell_updated : Z → Z → t → X → outcome Empty_set X).
Context (d0 : t) (slot : nat).

Lemma update_row_other_slots block i id d x d' x' :
  Z.to_nat (getCellIdx d0 id) ≠ slot →
  size d = size d0 → slot_untouched slot d0 d →
  update_row on_cell_updated block i id (d, x) = Ok (d', x') →
  size d' = size d0 ∧ slot_untouched slot d0 d'.
Proof.
  intros Hslot Hsize (Hcells & Hattributes) Hrow.
  apply update_row_Ok in Hrow as (old & attributes' & x'' & _ & Hset & Hcallback & Heq).
  simpl in Heq. injection Heq as -> ->.
  assert (Hidx : getCellIdx d id = getCellIdx d0 id).
  { unfold getCellIdx. by rewrite Hsize. }
  rewrite Hidx in *.
  split; [done |]. split; simpl.
  - rewrite <- Hcells. by apply list_lookup_insert_ne.
  - eapply Forall2_trans; [| exact Hattributes |].
    2: { apply (setAttributeValues_other_slots block i (getCellIdx d0 id) (attributes d)
                  0%nat attributes' Hset slot). congruence. }
    intros a a' a'' [Hget Href] [Hget' Href']. split.
    + intros T. by rewrite Hget', Hget.
    + by rewrite Href', Href.
Qed.

Lemma update_rows_other_slots block ids :
  ∀ i d x,
  (∀ id, id ∈ ids → Z.to_nat (getCellIdx d0 id) ≠ slot) →
  size d = size d0 → slot_untouched slot d0 d →
  ends_in (λ '(d', _), size d' = size d0 ∧ slot_untouched slot d0 d') (λ _, True)
    (update_rows on_cell_updated block i ids (d, x)).
Proof.
  induction ids as [| id ids IH]; intros i d x Hids Hsize Hd; [done |].
  simpl.
  destruct (update_row on_cell_updated block i id (d, x)) as [[d1 x1] | e | u] eqn:Hrow; simpl;
    [| by apply update_row_not_Throw in Hrow | done].
  destruct (update_row_other_slots block i id d x d1 x1) as [Hsize1 Hd1];
    [apply Hids; left | done | done | done |].
  apply IH; [intros id' Hid'; apply Hids; by right | done | done].
Qed.

Lemma update_blocks_other_slots stream :
  ∀ d x,
  (∀ block row_ids id, block ∈ stream → Block.id_column block = Some row_ids →
     id ∈ row_ids → Z.to_nat (getCellIdx d0 id) ≠ slot) →
  size d = size d0 → slot_untouched slot d0 d →
  ends_in (λ '(d', _), size d' = size d0 ∧ slot_untouched slot d0 d') (λ _, True)
    (update_blocks on_cell_updated stream (d, x)).
Proof.
  induction stream as [| block stream IH]; intros d x Hstream Hsize Hd; [done |].
  simpl. destruct (Block.id_column block) as [row_ids |] eqn:Hids; [| done].
  pose proof (update_rows_other_slots block row_ids 0 d x) as Hrows.
  destruct (update_rows on_cell_updated block 0 row_ids (d, x)) as [[d1 x1] | [e [d1 x1]] | u];
    simpl in *.
  - destruct Hrows as [Hsize1 Hd1]; [| done | done |].
    { intros id Hid. eapply Hstream; [left | done | done]. }
    apply IH; [| done | done].
    intros block' row_ids' id Hin. apply Hstream. by right.
  - apply Hrows; [| done | done]. intros id Hid. eapply Hstream; [left | done | done].
  - done.
Qed.

End refresh.

(** X21. A refresh leaves alone every slot that is not the slot of a key
    the source sends: in the dictionary that [update] returns, and in the
    one it leaves when it throws, the cell of such a slot and the elements
    of the arrays of every attribute at that slot are as they were. *)
Theorem update_other_slots {X} (on_cell_updated : Z → Z → t → X → outcome Empty_set X)
    (ids : list Z) (d : t) (x : X) (slot : nat) :
  (∀ block row_ids id,
     block ∈ IDictionarySource.loadIds (source_ptr d) ids →
     Block.id_column block = Some row_ids →
     id ∈ row_ids → Z.to_nat (getCellIdx d id) ≠ slot) →
  ends_in (λ '(d', _), slot_untouched slot d d') (λ _, True)
    (update ids on_cell_updated (d, x)).
Proof.
  intros Hstream. unfold update.
  eapply ends_in_mono;
    [| | apply (update_blocks_other_slots on_cell_updated d slot); [exact Hstream | done |]].
  - intros [d' x'] [_ Hd']. done.
  - done.
  - split; [done |]. simpl.
    induction (attributes d); constructor; done.
Qed.

End other_slots.

(** A refresh of key 4, whose slot is 1, and the slot 0. *)
Lemma update_other_slots_witness :
  ends_in (λ '(d', _), slot_untouched 0 (example_dictionary []) d') (λ _, True)
    (update (H := example_platform) (X := ()) [4] (λ _ _ _ x, Ok x) (example_dictionary [], ())).
Proof.
  apply (update_other_slots (H := example_platform) (X := ()) (λ _ _ _ x, Ok x) [4]
           (example_dictionary []) () 0).
  intros block row_ids id Hblock Hids Hid.
  change (IDictionarySource.loadIds
            (CacheDictionary.source_ptr (H := example_platform) (example_dictionary [])) [4])
    with [example_block [(4, 7, ["a"%byte])]] in Hblock.
  apply list_elem_of_singleton in Hblock as ->.
  simpl in Hids. injection Hids as <-.
  apply list_elem_of_singleton in Hid as ->.
  vm_compute. lia.
Defined.

(** ** A string fetched from the source is served from the cache *)

Section string_round_trip.
Context `{Platform}.

Import CacheDictionary.






End string_round_trip.



(** ** The hierarchical attribute *)

Section hierarchy.
Context `{Platform}.

Import CacheDictionary.

Lemma createAttributes_hierarchical size dict_struct :
  ∀ index attributes hierarchical,
  let result := createAttributes size dict_struct (index, attributes, hierarchical) in
  (result.2 = hierarchical ∧
   ∀ attribute, attribute ∈ dict_struct → DictionaryAttribute.hierarchical attribute = false) ∨
  (∃ j attribute,
     result.2 = Some (length attributes + j)%nat ∧
     dict_struct !! j = Some attribute ∧
     DictionaryAttribute.hierarchical attribute = true ∧
     ∀ j' attribute', (j < j')%nat → dict_struct !! j' = Some attribute' →
       DictionaryAttribute.hierarchical attribute' = false).
Proof.
  induction dict_struct as [| attribute rest IH]; intros index attributes hierarchical.
  { left. split; [done |]. by intros attribute ?%elem_of_nil. }
  simpl.
  match goal with
  | |- context [createAttributes size rest (?index1, ?attributes1, ?hierarchical1)] =>
      destruct (IH index1 attributes1 hierarchical1)
        as [[Hresult Hrest] | (j & found & Hresult & Hfound & Hflag & Hlater)]
  end.
  - rewrite Hresult. rewrite length_app. simpl.
    destruct (DictionaryAttribute.hierarchical attribute) eqn:Hflag.
    + right. exists 0%nat, attribute. split; [f_equal; lia |]. split; [done |].
      split; [done |]. intros [| j'] attribute' Hj' Hattribute'; [lia |].
      apply Hrest. by eapply list_elem_of_lookup_2.
    + left. split; [done |]. intros attribute' [-> | Hin]%elem_of_cons; [done | by apply Hrest].
  - right. exists (S j), found. rewrite Hresult, length_app. simpl.
    split; [f_equal; lia |]. split; [done |]. split; [done |].
    intros [| j'] attribute' Hj' Hattribute'; [lia |].
    apply (Hlater j' attribute'); [lia | done].
Qed.

(** X23. The constructor leaves [hierarchical_attribute] at the last
    attribute that is declared hierarchical: an earlier one is overwritten,
    and it is null when no attribute is declared hierarchical. *)
Theorem construct_hierarchical_attribute name dict_struct source_ptr dict_lifetime size
    rnd_engine :
  IDictionarySource.supportsSelectiveLoad source_ptr = true →
  ∃ d, construct name dict_struct source_ptr dict_lifetime size rnd_engine = Ok d ∧
       match hierarchical_attribute d with
       | Some idx =>
           ∃ attribute,
             dict_struct !! idx = Some attribute ∧
             DictionaryAttribute.hierarchical attribute = true ∧
             ∀ j attribute', (idx < j)%nat → dict_struct !! j = Some attribute' →
               DictionaryAttribute.hierarchical attribute' = false
       | None =>
           ∀ attribute, attribute ∈ dict_struct →
             DictionaryAttribute.hierarchical attribute = false
       end.
Proof.
  intros Hsource. unfold construct. rewrite Hsource. simpl.
  pose proof (createAttributes_hierarchical (round_up_to_power_of_two size) dict_struct ∅ [] None)
    as Hresult.
  destruct (createAttributes (round_up_to_power_of_two size) dict_struct (∅, [], None))
    as [[index attributes'] hierarchical].
  simpl in Hresult. eexists. split; [reflexivity |]. simpl.
  destruct Hresult as [[-> Hnone] | (j & attribute & -> & Hfound & Hflag & Hlater)]; [done |].
  by exists attribute.
Qed.

End hierarchy.

(** The schema with two attributes declared hierarchical. *)
Lemma construct_hierarchical_attribute_witness :
  ∃ d, construct (H := example_platform) "example" example_hierarchy_schema
         (example_source [] example_table) example_lifetime 4 0 = Ok d ∧
       match CacheDictionary.hierarchical_attribute d with
       | Some idx =>
           ∃ attribute,
             example_hierarchy_schema !! idx = Some attribute ∧
             DictionaryAttribute.hierarchical attribute = true ∧
             ∀ j attribute', (idx < j)%nat → example_hierarchy_schema !! j = Some attribute' →
               DictionaryAttribute.hierarchical attribute' = false
       | None =>
           ∀ attribute, attribute ∈ example_hierarchy_schema →
             DictionaryAttribute.hierarchical attribute = false
       end.
Proof.
  apply (construct_hierarchical_attribute (H := example_platform) "example"
           example_hierarchy_schema (example_source [] example_table) example_lifetime 4 0).
  reflexivity.
Defined.

(** ** The positions a scalar lookup writes *)

Section written_positions.
Context `{Platform}.

Import CacheDictionary.

Lemma fetch_rows_elsewhere {E} (T : scalar) attribute ids :
  ∀ i d out outdated_ids d1 out1 outdated1,
  fetch_rows (E := E) T attribute i ids (d, out, outdated_ids) = Ok (d1, out1, outdated1) →
  ∀ j, (j < i ∨ i + length ids ≤ j)%nat → out1 !! j = out !! j.
Proof.
  induction ids as [| id ids IH]; intros i d out outdated_ids d1 out1 outdated1 Hrows j Hj.
  { simpl in Hrows. by simplify_eq. }
  simpl in Hrows, Hj.
  apply bind_Ok in Hrows as ([[d' out'] outdated'] & Hrow & Hrows).
  apply fetch_row_Ok in Hrow as (_ & _ & _ & (x & _ & ->) & _).
  rewrite (IH _ _ _ _ _ _ _ Hrows j) by lia.
  apply list_lookup_insert_ne. lia.
Qed.

(** X24. The scalar lookup writes the output only at the positions of
    the keys: every element of the output from position [ids.size()] on is,
    when the lookup returns and when it throws, what it was on entry. *)
Theorem getItems_writes_keys_only (T : scalar) (attribute_idx : nat) (ids : list Z)
    (out : list (cpp T)) (d : t) :
  ends_in (λ '(_, out'), ∀ j, (length ids ≤ j)%nat → out' !! j = out !! j) (λ _, True)
    (getItems T attribute_idx ids out d).
Proof.
  unfold getItems.
  destruct (read attribute_index (attributes d) attribute_idx) as [attribute | e | u]
    eqn:Hattribute; simpl; [| by apply read_not_Throw in Hattribute | done].
  destruct (fetch_rows T attribute 0 ids _) as [[[d1 out1] outdated1] | e | u] eqn:Hrows;
    simpl; [| by apply fetch_rows_not_Throw in Hrows | done].
  pose proof (fetch_rows_elsewhere _ _ _ _ _ _ _ _ _ _ Hrows) as Hout1.
  apply fetch_rows_keyed in Hrows as (_ & Hpositions & _).
  assert (Hnoted : ∀ k j, j ∈ positions outdated1 k → (j < length ids)%nat).
  { intros k j Hj. destruct (Hpositions k j Hj) as [Hempty | (_ & Hlookup & _)].
    - rewrite positions_empty in Hempty. by apply elem_of_nil in Hempty.
    - apply lookup_lt_Some in Hlookup. lia. }
  destruct (decide (outdated1 = ∅)) as [Hempty | Hsome]; simpl.
  { intros j Hj. apply Hout1. lia. }
  set (P := λ s : t * (list (cpp T) * gmap Z (list nat)),
              (∀ k j, j ∈ positions s.2.2 k → (j < length ids)%nat) ∧
              ∀ j, (length ids ≤ j)%nat → s.2.1 !! j = out !! j).
  assert (Hstep : ∀ block i id s s',
            P s → update_row (on_scalar_updated T attribute_idx) block i id s = Ok s' → P s').
  { intros block i id [da [outa outdateda]] [db [outb outdatedb]] [Hnoteda Houta] Hrow.
    simpl in Hnoteda, Houta.
    apply update_row_Ok in Hrow as (old & attributes' & x' & _ & _ & Hcallback & Heq).
    simpl in Hcallback, Heq. injection Heq as Hdb Hxb. subst x'.
    apply on_scalar_updated_Ok in Hcallback as (_ & value & out'' & _ & _ & Hset & Hpair).
    injection Hpair as -> ->.
    apply set_missing_Ok in Hset as (_ & _ & Hvalues).
    split; simpl.
    - intros k j Hj. rewrite positions_touch in Hj. by eapply Hnoteda.
    - intros j Hj. rewrite Hvalues. rewrite decide_False; [by apply Houta |].
      intros Hin. apply Hnoteda in Hin. lia. }
  pose proof (update_blocks_ends_in (on_scalar_updated T attribute_idx) P Hstep) as Hupdate.
  unfold update.
  match goal with
  | |- context [update_blocks (on_scalar_updated T attribute_idx) ?stream ?s] =>
      specialize (Hupdate stream s);
      destruct (update_blocks (on_scalar_updated T attribute_idx) stream s)
        as [[d2 [out2 outdated2]] | [e [d2 [out2 outdated2]]] | u]
  end; simpl in *; [| | done].
  - apply Hupdate. split; [done |]. simpl. intros j Hj. apply Hout1. lia.
  - apply Hupdate. split; [done |]. simpl. intros j Hj. apply Hout1. lia.
Qed.

End written_positions.
